(** * The RRD connector of facette: a shallow embedding of [pkg/connector/rrd.go]

    The development follows the source file: the fragments of the Go runtime
    and standard library that the connector relies on ([Go]), the interface of
    the RRD binding ([RRD]), the connector itself ([Connector]: the factory,
    the query compiler and executor, the result merger, discovery) and a
    reference evaluator for the reverse-Polish expressions of an export
    program ([Engine]).  The properties of the connector are stated and proved
    in the second half of the file. *)

From stdpp Require Import gmap strings list fin_maps pretty.
From Stdlib Require Import ZArith NArith Lia Ascii.

Local Open Scope string_scope.
Local Open Scope list_scope.
Local Open Scope Z_scope.

(* ===================================================================== *)
(** * Go: values, strings and floating-point numbers                     *)
(* ===================================================================== *)

Module Go.

(** The three ways a Go call can end: a value, a returned [error], or a
    run-time panic (index out of range, nil dereference, ...). *)
Inductive Outcome (A : Type) : Type :=
| Ok (a : A)
| Err (msg : string)
| Panic (why : string).
Arguments Ok {A} a.
Arguments Err {A} msg.
Arguments Panic {A} why.

#[global] Instance outcome_ret : MRet Outcome := λ A a, Ok a.
#[global] Instance outcome_bind : MBind Outcome := λ A B k c,
  match c with
  | Ok a => k a
  | Err e => Err e
  | Panic w => Panic w
  end.

(** A monadic left fold: the body of a [for ... range] loop that may fail. *)
Fixpoint foldM {A St : Type} (f : St → A → Outcome St) (l : list A) (s : St) : Outcome St :=
  match l with
  | [] => Ok s
  | x :: l' => s' ← f s x; foldM f l' s'
  end.

(** ** Strings *)

(** [strconv.Itoa] and the [%d] verb. *)
Definition Itoa (n : Z) : string := pretty n.

(** [strings.Join]. *)
Definition Join (elems : list string) (sep : string) : string := String.concat sep elems.

(** The text before and after the first occurrence of the byte [sep]. *)
Fixpoint cut (sep : Ascii.ascii) (s : string) : option (string * string) :=
  match s with
  | EmptyString => None
  | String c r =>
      if decide (c = sep) then Some (EmptyString, r)
      else match cut sep r with
           | Some (a, b) => Some (String c a, b)
           | None => None
           end
  end.

(** [strings.SplitN s sep n] for a one-byte separator and [n >= 0]: at most
    [n] pieces, the last one being the unsplit remainder. *)
Fixpoint SplitN (s : string) (sep : Ascii.ascii) (n : nat) : list string :=
  match n with
  | O => []
  | S O => [s]
  | S n' =>
      match cut sep s with
      | None => [s]
      | Some (a, b) => a :: SplitN b sep n'
      end
  end.

(** The separator of the engine's expressions and statistic lines. *)
Definition comma : Ascii.ascii := Ascii.Ascii false false true true false true false false.

(** Number of occurrences of a byte. *)
Fixpoint count_byte (c : Ascii.ascii) (s : string) : nat :=
  match s with
  | EmptyString => O
  | String c' r => ((if decide (c' = c) then 1 else 0) + count_byte c r)%nat
  end.

(** The slice expression [s[i:]]: it panics when [i > len(s)]. *)
Fixpoint slice_from (s : string) (i : nat) : option string :=
  match i, s with
  | O, _ => Some s
  | S _, EmptyString => None
  | S i', String _ r => slice_from r i'
  end.

(** ** float64

    A [float64] is modelled by its exact value: a sign and a non-negative
    fraction for the finite numbers (both zeros included), the two infinities
    and not-a-number.  Every finite double is such a fraction (with a power of
    two as denominator), so a statement over this type covers every double. *)
Inductive float64 : Type :=
| Fin (neg : bool) (num : N) (den : positive)
| Inf (neg : bool)
| NaN.

Definition float64_zero : float64 := Fin false 0 1.

(** The comparison [x != 0]. *)
Definition fne0 (x : float64) : bool :=
  match x with
  | Fin _ n _ => negb (n =? 0)%N
  | Inf _ | NaN => true
  end.

(** The signed numerator of a finite value. *)
Definition signed (neg : bool) (n : N) : Z := if neg then - Z.of_N n else Z.of_N n.

(** The conversion [int(x)] on a 64-bit platform: truncation toward zero.  The
    language leaves the result implementation-defined when the truncated value
    does not fit, and for the non-finite values: these give [None]. *)
Definition float_to_int (x : float64) : option Z :=
  match x with
  | Fin s n d =>
      let t := signed s (n / Npos d)%N in
      if (- 2 ^ 63 <=? t) && (t <? 2 ^ 63) then Some t else None
  | Inf _ | NaN => None
  end.

(** The conversion [float64(k)].  It is exact whenever [k] is the truncation of
    a double, the only use the connector makes of it. *)
Definition int_to_float (k : Z) : float64 := Fin (k <? 0) (Z.abs_N k) 1.

(** Subtraction [x - y]: exact on finite values, where it also follows the
    rule for the sign of a zero result; the usual rules otherwise. *)
Definition fsub (x y : float64) : float64 :=
  match x, y with
  | NaN, _ | _, NaN => NaN
  | Inf sx, Inf sy => if Bool.eqb sx sy then NaN else Inf sx
  | Inf sx, Fin _ _ _ => Inf sx
  | Fin _ _ _, Inf sy => Inf (negb sy)
  | Fin sx nx dx, Fin sy ny dy =>
      let r := signed sx nx * Zpos dy - signed sy ny * Zpos dx in
      Fin (if r =? 0 then sx && negb sy else r <? 0) (Z.abs_N r) (dx * dy)
  end.

(** Rounding of the fraction [a / b] to the nearest integer, ties to even. *)
Definition round_half_even (a : N) (b : positive) : N :=
  let q := (a / Npos b)%N in
  let r := (a mod Npos b)%N in
  match (2 * r ?= Npos b)%N with
  | Lt => q
  | Gt => (q + 1)%N
  | Eq => if N.even q then q else (q + 1)%N
  end.

(** [n] written with at least [width] decimal digits. *)
Definition zero_pad (width : nat) (n : N) : string :=
  let digits := pretty n in
  String.concat "" (replicate (width - String.length digits) "0") +:+ digits.

(** The verb [%.<prec>f]: the decimal expansion of the exact value, correctly
    rounded to [prec] fractional digits. *)
Definition FormatFixed (prec : nat) (x : float64) : string :=
  match x with
  | NaN => "NaN"
  | Inf false => "+Inf"
  | Inf true => "-Inf"
  | Fin s n d =>
      let unit := (10 ^ N.of_nat prec)%N in
      let scaled := round_half_even (n * unit) d in
      (if s then "-" else "") +:+ pretty (scaled / unit)%N +:+
      match prec with
      | O => ""
      | _ => "." +:+ zero_pad prec (scaled mod unit)%N
      end
  end.

(** The plain verb [%f] prints six fractional digits. *)
Definition FormatF (x : float64) : string := FormatFixed 6 x.

(** ** Dynamic values ([interface{}]) as found in a configuration map. *)
Inductive Value : Type :=
| VString (s : string)
| VInt (n : Z)
| VBool (b : bool)
| VFloat (x : float64).

(** The type assertion [v.(string)] on the result of a map lookup; a missing
    key yields the nil interface, on which the assertion fails as well. *)
Definition assert_string (v : option Value) : string * bool :=
  match v with
  | Some (VString s) => (s, true)
  | _ => ("", false)
  end.

End Go.

Import Go.

(* ===================================================================== *)
(** * The RRD binding                                                     *)
(* ===================================================================== *)

Module RRD.

(** Modelled from the spec: the binding [thirdparty/github.com/ziutek/rrd] is
    not part of the connector's file.  A program is the ordered list of the
    operations requested from the engine: define-from-archive, derive,
    compute-statistic, print, mark-as-output. *)
Inductive Op : Type :=
| OpDef (vname rrdfile dsname cf : string)
| OpCDef (vname rpn : string)
| OpVDef (vname rpn : string)
| OpPrint (vname format : string)
| OpXportDef (vname label : string).

(** Modelled from the spec: a grapher or an exporter of the binding, reduced
    to the daemon endpoint and the operations recorded so far. *)
Record Program : Type := { daemon : string; ops : list Op }.

Definition Grapher : Type := Program.
Definition Exporter : Type := Program.

Definition NewGrapher : Grapher := {| daemon := ""; ops := [] |}.
Definition NewExporter : Exporter := {| daemon := ""; ops := [] |}.

Definition SetDaemon (d : string) (p : Program) : Program :=
  {| daemon := d; ops := ops p |}.

(** Every method [Def], [CDef], [VDef], [Print], [XportDef] appends its
    operation to the program. *)
Definition emit (o : Op) (p : Program) : Program :=
  {| daemon := daemon p; ops := (ops p ++ [o])%list |}.

(** Modelled from the spec: the row-major numeric table an export returns. *)
Record XportData : Type := {
  Legends : list string;
  RowCnt : nat;
  values : list float64
}.

(** Modelled from the spec: the result of an export as the connector holds
    it.  The values of a real export live in a buffer allocated by the engine,
    identified here by a handle; the zero value [XportResult{}] has none. *)
Record XportResult : Type := { table : XportData; buffer : option nat }.

Definition XportResult_zero : XportResult :=
  {| table := {| Legends := []; RowCnt := 0; values := [] |}; buffer := None |}.

(** Modelled from the spec: [ValueAt(legend, row)] reads the row-major table;
    an index past the end panics. *)
Definition ValueAt (r : XportResult) (legend row : nat) : Outcome float64 :=
  match values (table r) !! (length (Legends (table r)) * row + legend)%nat with
  | Some v => Ok v
  | None => Panic "index out of range"
  end.

(** Modelled from the spec: [FreeValues] releases the engine-held buffer of a
    result, if it has one.  [live] is the set of buffers currently held. *)
Definition FreeValues (r : XportResult) (live : gset nat) : gset nat :=
  match buffer r with
  | Some b => live ∖ {[b]}
  | None => live
  end.

(** Modelled from the spec: the statistic lines a graph-info run prints. *)
Record GraphInfo : Type := { InfoPrint : list string }.

End RRD.

Import RRD.

(* ===================================================================== *)
(** * The connector                                                       *)
(* ===================================================================== *)

Module Connector.

Record rrdMetric : Type := { Dataset : string; FilePath : string }.

(** The connector.  The output channel the Go structure points to is owned by
    the caller; its state is threaded separately (see [Refresh]). *)
Record RRDConnector : Type := {
  Path : string;
  Pattern : string;
  Daemon : string;
  metrics : gmap string (gmap string rrdMetric)
}.

(** The factory registered under the name [rrd] by [init]. *)
Definition Connectors_rrd (config : gmap string Value) : Outcome RRDConnector :=
  match config !! "path" with
  | None => Err "missing `path' mandatory connector setting"
  | Some _ =>
  match config !! "pattern" with
  | None => Err "missing `pattern' mandatory connector setting"
  | Some _ =>
      let '(configPath, ok) := assert_string (config !! "path") in
      if negb ok then Err "connector setting `path' should be a string" else
      let '(configPattern, ok) := assert_string (config !! "pattern") in
      if negb ok then Err "connector setting `pattern' should be a string" else
      let '(configDaemon, ok) := assert_string (config !! "daemon") in
      if negb ok then Err "connector setting `daemon' should be a string" else
      Ok {| Path := configPath; Pattern := configPattern; Daemon := configDaemon;
            metrics := ∅ |}
  end
  end.

(** ** Queries and results *)

(** Modelled from the spec: the aggregation operator of a group query is an
    integer in the source; its three named constants are declared outside the
    connector's file.  [OperGroupTypeOther] stands for any other integer. *)
Inductive OperGroupType : Type :=
| OperGroupTypeNone
| OperGroupTypeAvg
| OperGroupTypeSum
| OperGroupTypeOther (code : Z).

#[global] Instance OperGroupType_eq_dec : EqDecision OperGroupType.
Proof. solve_decision. Defined.

(** Modelled from the spec: the metric a series refers to. *)
Record MetricQuery : Type := { mq_Name : string; mq_SourceName : string }.

(** Modelled from the spec: a series of a group query; [sq_Metric] is the
    nullable pointer [Metric]. *)
Record SerieQuery : Type := {
  sq_Name : string;
  sq_Metric : option MetricQuery;
  sq_Scale : float64
}.

(** Modelled from the spec: a group query. *)
Record GroupQuery : Type := {
  gq_Name : string;
  gq_Type : OperGroupType;
  gq_Series : list SerieQuery;
  gq_Scale : float64
}.

Definition set_Type (t : OperGroupType) (q : GroupQuery) : GroupQuery :=
  {| gq_Name := gq_Name q; gq_Type := t; gq_Series := gq_Series q;
     gq_Scale := gq_Scale q |}.

(** Modelled from the spec: the output for one label. *)
Record PlotResult : Type := {
  Plots : list float64;
  Info : gmap string float64
}.

(** The expression [connector.metrics[source][name]] followed by a field
    access: both lookups yield nil when the key is absent, and the field
    access then dereferences a nil pointer. *)
Definition lookup_metric (connector : RRDConnector) (m : MetricQuery) : Outcome rrdMetric :=
  match metrics connector !! mq_SourceName m ≫= (λ src, src !! mq_Name m) with
  | Some d => Ok d
  | None => Panic "nil pointer dereference"
  end.

(** A [for index, x := range l] loop that threads a state. *)
Fixpoint range_fold {A St : Type} (f : St → nat → A → St) (l : list A) (index : nat)
    (s : St) : St :=
  match l with
  | [] => s
  | x :: l' => range_fold f l' (S index) (f s index x)
  end.

Fixpoint range_foldM {A St : Type} (f : St → nat → A → Outcome St) (l : list A)
    (index : nat) (s : St) : Outcome St :=
  match l with
  | [] => Ok s
  | x :: l' => s' ← f s index x; range_foldM f l' (S index) s'
  end.

Section Compiler.

(** The conversion [int(x)] is implementation-defined for a finite [x] that
    does not fit a 64-bit integer; [int_overflow_test x] is what the test
    [x - float64(int(x)) != 0] yields on the platform for such an [x]. *)
Variable int_overflow_test : float64 → bool.

(** The test [percentile-float64(int(percentile)) != 0] of [rrdSetGraph].  On
    an infinity or a not-a-number the difference is again one, whatever the
    conversion returned. *)
Definition has_fraction (percentile : float64) : bool :=
  match float_to_int percentile with
  | Some k => fne0 (fsub percentile (int_to_float k))
  | None =>
      match percentile with
      | Fin _ _ _ => int_overflow_test percentile
      | Inf _ | NaN => true
      end
  end.

(** The body of the percentile loop of [rrdSetGraph]. *)
Definition rrdSetGraph_percentile (serieName itemName : string)
    (graph : Grapher) (index : nat) (percentile : float64) : Grapher :=
  let graph := emit (OpCDef (serieName +:+ "-cdef" +:+ Itoa (Z.of_nat index))
                            (serieName +:+ ",UN,0," +:+ serieName +:+ ",IF")) graph in
  let graph := emit (OpVDef (serieName +:+ "-vdef" +:+ Itoa (Z.of_nat index))
                            (serieName +:+ "-cdef" +:+ Itoa (Z.of_nat index) +:+ "," +:+
                             FormatF percentile +:+ ",PERCENT")) graph in
  if has_fraction percentile then
    emit (OpPrint (serieName +:+ "-vdef" +:+ Itoa (Z.of_nat index))
                  (itemName +:+ "," +:+ FormatFixed 2 percentile +:+ "th,%lf")) graph
  else
    emit (OpPrint (serieName +:+ "-vdef" +:+ Itoa (Z.of_nat index))
                  (itemName +:+ "," +:+ FormatFixed 0 percentile +:+ "th,%lf")) graph.

Definition rrdSetGraph (graph : Grapher) (serieName itemName : string)
    (percentiles : list float64) : Grapher :=
  let graph := emit (OpVDef (serieName +:+ "-min") (serieName +:+ ",MINIMUM")) graph in
  let graph := emit (OpPrint (serieName +:+ "-min") (itemName +:+ ",min,%lf")) graph in
  let graph := emit (OpVDef (serieName +:+ "-avg") (serieName +:+ ",AVERAGE")) graph in
  let graph := emit (OpPrint (serieName +:+ "-avg") (itemName +:+ ",avg,%lf")) graph in
  let graph := emit (OpVDef (serieName +:+ "-max") (serieName +:+ ",MAXIMUM")) graph in
  let graph := emit (OpPrint (serieName +:+ "-max") (itemName +:+ ",max,%lf")) graph in
  let graph := emit (OpVDef (serieName +:+ "-last") (serieName +:+ ",LAST")) graph in
  let graph := emit (OpPrint (serieName +:+ "-last") (itemName +:+ ",last,%lf")) graph in
  range_fold (rrdSetGraph_percentile serieName itemName) percentiles 0%nat graph.

(** The local variables of [rrdGetData] that the compilation loops update. *)
Record Locals : Type := {
  v_graph : Grapher;
  v_xport : option Exporter;
  v_series : gmap string string;
  v_stack : list string;
  v_count : Z
}.

(** The body of the loop over [query.Series] in the case [OperGroupTypeNone]. *)
Definition none_body (connector : RRDConnector) (query : GroupQuery)
    (percentiles : list float64) (infoOnly : bool)
    (l : Locals) (serie : SerieQuery) : Outcome Locals :=
  match sq_Metric serie with
  | None => Ok l
  | Some metric =>
      let serieTemp := "serie" +:+ Itoa (v_count l) in
      let serieName := sq_Name serie in
      let count := v_count l + 1 in
      m ← lookup_metric connector metric;
      let graph := emit (OpDef (serieTemp +:+ "-orig0") (FilePath m) (Dataset m) "AVERAGE")
                        (v_graph l) in
      let graph :=
        if fne0 (sq_Scale serie) then
          emit (OpCDef (serieTemp +:+ "-orig1")
                       (serieTemp +:+ "-orig0," +:+ FormatF (sq_Scale serie) +:+ ",*")) graph
        else
          emit (OpCDef (serieTemp +:+ "-orig1") (serieTemp +:+ "-orig0")) graph in
      let graph :=
        if fne0 (gq_Scale query) then
          emit (OpCDef serieTemp
                       (serieTemp +:+ "-orig1," +:+ FormatF (gq_Scale query) +:+ ",*")) graph
        else
          emit (OpCDef serieTemp (serieTemp +:+ "-orig1")) graph in
      let graph := rrdSetGraph graph serieTemp serieName percentiles in
      let xport :=
        if infoOnly then v_xport l else
          (λ xport : Exporter,
             let xport := emit (OpDef (serieTemp +:+ "-orig0") (FilePath m) (Dataset m)
                                      "AVERAGE") xport in
             let xport :=
               if fne0 (sq_Scale serie) then
                 emit (OpCDef (serieTemp +:+ "-orig1")
                              (serieTemp +:+ "-orig0," +:+ FormatF (sq_Scale serie) +:+ ",*"))
                      xport
               else
                 emit (OpCDef (serieTemp +:+ "-orig1") (serieTemp +:+ "-orig0")) xport in
             let xport :=
               if fne0 (gq_Scale query) then
                 emit (OpCDef serieTemp
                              (serieTemp +:+ "-orig1," +:+ FormatF (gq_Scale query) +:+ ",*"))
                      xport
               else
                 emit (OpCDef serieTemp (serieTemp +:+ "-orig1")) xport in
             emit (OpXportDef serieTemp serieTemp) xport) <$> v_xport l in
      Ok {| v_graph := graph; v_xport := xport;
            v_series := <[serieTemp := serieName]> (v_series l);
            v_stack := v_stack l; v_count := count |}
  end.

(** The body of the loop over [query.Series] in the case [OperGroupTypeAvg],
    [OperGroupTypeSum]. *)
Definition aggr_body (connector : RRDConnector) (serieName : string) (infoOnly : bool)
    (l : Locals) (index : nat) (serie : SerieQuery) : Outcome Locals :=
  match sq_Metric serie with
  | None => Ok l
  | Some metric =>
      let serieTemp := serieName +:+ "-tmp" +:+ Itoa (Z.of_nat index) in
      m ← lookup_metric connector metric;
      let graph := emit (OpDef (serieTemp +:+ "-ori") (FilePath m) (Dataset m) "AVERAGE")
                        (v_graph l) in
      let graph := emit (OpCDef serieTemp
                                (serieTemp +:+ "-ori,UN,0," +:+ serieTemp +:+ "-ori,IF"))
                        graph in
      let xport :=
        if infoOnly then v_xport l else
          (λ xport : Exporter,
             let xport := emit (OpDef (serieTemp +:+ "-ori") (FilePath m) (Dataset m)
                                      "AVERAGE") xport in
             emit (OpCDef serieTemp
                          (serieTemp +:+ "-ori,UN,0," +:+ serieTemp +:+ "-ori,IF")) xport)
          <$> v_xport l in
      let stack :=
        if decide (length (v_stack l) = 0%nat) then (v_stack l ++ [serieTemp])%list
        else (v_stack l ++ [serieTemp; "+"])%list in
      Ok {| v_graph := graph; v_xport := xport; v_series := v_series l;
            v_stack := stack; v_count := v_count l |}
  end.

(** The case [OperGroupTypeAvg], [OperGroupTypeSum] of the [switch]. *)
Definition rrdGetData_aggregate (connector : RRDConnector) (query : GroupQuery)
    (percentiles : list float64) (infoOnly : bool) (l : Locals) : Outcome Locals :=
  let serieName := "serie" +:+ Itoa (v_count l) in
  let count := v_count l + 1 in
  l ← range_foldM (aggr_body connector serieName infoOnly) (gq_Series query) 0%nat l;
  let stack :=
    if decide (gq_Type query = OperGroupTypeAvg) then
      v_stack l ++ [Itoa (Z.of_nat (length (gq_Series query))); "/"]
    else v_stack l in
  let graph := emit (OpCDef (serieName +:+ "-orig") (Join stack ",")) (v_graph l) in
  let graph :=
    if fne0 (gq_Scale query) then
      emit (OpCDef serieName
                   (serieName +:+ "-orig," +:+ FormatF (gq_Scale query) +:+ ",*")) graph
    else
      emit (OpCDef serieName (serieName +:+ "-orig")) graph in
  let graph := rrdSetGraph graph serieName (gq_Name query) percentiles in
  let xport :=
    if infoOnly then v_xport l else
      (λ xport : Exporter,
         let xport := emit (OpCDef (serieName +:+ "-orig") (Join stack ",")) xport in
         let xport :=
           if fne0 (gq_Scale query) then
             emit (OpCDef serieName
                          (serieName +:+ "-orig," +:+ FormatF (gq_Scale query) +:+ ",*"))
                  xport
           else
             emit (OpCDef serieName (serieName +:+ "-orig")) xport in
         emit (OpXportDef serieName serieName) xport) <$> v_xport l in
  Ok {| v_graph := graph; v_xport := xport;
        v_series := <[serieName := gq_Name query]> (v_series l);
        v_stack := stack; v_count := count |}.

(** The grapher and the exporter as created at the start of [rrdGetData],
    with the daemon endpoint when the connector has one. *)
Definition initial_locals (connector : RRDConnector) (infoOnly : bool) : Locals :=
  let graph := NewGrapher in
  let graph := if decide (Daemon connector ≠ "") then SetDaemon (Daemon connector) graph
               else graph in
  let xport :=
    if infoOnly then None
    else Some (if decide (Daemon connector ≠ "") then SetDaemon (Daemon connector) NewExporter
               else NewExporter) in
  {| v_graph := graph; v_xport := xport; v_series := ∅; v_stack := []; v_count := 0 |}.

(** The compilation part of [rrdGetData]: from the creation of the grapher
    and exporter to the end of the [switch] on [query.Type]. *)
Definition rrdGetData_compile (connector : RRDConnector) (query : GroupQuery)
    (percentiles : list float64) (infoOnly : bool) : Outcome Locals :=
  let l := initial_locals connector infoOnly in
  match gq_Type query with
  | OperGroupTypeNone =>
      foldM (none_body connector query percentiles infoOnly) (gq_Series query) l
  | OperGroupTypeAvg | OperGroupTypeSum =>
      rrdGetData_aggregate connector query percentiles infoOnly l
  | OperGroupTypeOther code =>
      Err ("unknown `" +:+ Itoa code +:+ "' operator type")
  end.

End Compiler.

(** ** Execution and merging *)

(** What a query can read and write: the connector and the query it receives
    by pointer, and the result buffers the engine currently holds. *)
Record World : Type := {
  w_connector : RRDConnector;
  w_query : GroupQuery;
  w_live : gset nat
}.

Definition set_query (q : GroupQuery) (w : World) : World :=
  {| w_connector := w_connector w; w_query := q; w_live := w_live w |}.

Definition set_live (live : gset nat) (w : World) : World :=
  {| w_connector := w_connector w; w_query := w_query w; w_live := live |}.

Definition new_PlotResult : PlotResult := {| Plots := []; Info := ∅ |}.

(** The indexing expression [chunks[i]]. *)
Definition index (chunks : list string) (i : nat) : Outcome string :=
  match chunks !! i with
  | Some c => Ok c
  | None => Panic "index out of range"
  end.

Section Executor.

Variable int_overflow_test : float64 → bool.

(** The engine: an export returns a table or an error, a graph-info run the
    printed statistic lines or an error. *)
Variable Xport : Exporter → Z → Z → Z → XportData + string.
Variable Graph : Grapher → Z → Z → GraphInfo + string.

(** [strconv.ParseFloat(s, 64)]; [None] when it returns an error. *)
Variable ParseFloat : string → option float64.

(** The body of the loop of [rrdParseInfo]. *)
Definition rrdParseInfo_line (data : gmap string PlotResult) (value : string)
    : Outcome (gmap string PlotResult) :=
  let chunks := SplitN value comma 3 in
  c2 ← index chunks 2;
  let chunkFloat := match ParseFloat c2 with
                    | Some x => x
                    | None => NaN
                    end in
  c0 ← index chunks 0;
  let data := match data !! c0 with
              | None => <[c0 := new_PlotResult]> data
              | Some _ => data
              end in
  c1 ← index chunks 1;
  Ok (alter (λ r, {| Plots := Plots r; Info := <[c1 := chunkFloat]> (Info r) |}) c0 data).

Definition rrdParseInfo (info : GraphInfo) (data : gmap string PlotResult)
    : Outcome (gmap string PlotResult) :=
  foldM rrdParseInfo_line (InfoPrint info) data.

(** The loop over [data.Legends] of [rrdGetData]: a fresh result per legend,
    filled with the column of that legend. *)
Definition fill_column (data : XportResult) (legend : nat) (label : string)
    (result : gmap string PlotResult) : Outcome (gmap string PlotResult) :=
  foldM (λ result i,
           v ← ValueAt data legend i;
           Ok (alter (λ r, {| Plots := Plots r ++ [v]; Info := Info r |}) label result))
        (seq 0 (RowCnt (table data))) result.

Definition fill_result (series : gmap string string) (data : XportResult)
    (result : gmap string PlotResult) : Outcome (gmap string PlotResult) :=
  range_foldM (λ result index serieName,
                 let label := default "" (series !! serieName) in
                 fill_column data index label (<[label := new_PlotResult]> result))
              (Legends (table data)) 0%nat result.

(** The part of [rrdGetData] that follows the checks on [query.Series]:
    compilation, export, graph information, merge. *)
Definition rrdGetData_execute (w : World) (startTime endTime step : Z)
    (percentiles : list float64) (infoOnly : bool)
    : World * Outcome (gmap string PlotResult) :=
  match rrdGetData_compile int_overflow_test (w_connector w) (w_query w) percentiles
                           infoOnly with
  | Err e => (w, Err e)
  | Panic why => (w, Panic why)
  | Ok l =>
      let result : gmap string PlotResult := ∅ in
      (* the variable [data] declared before the export *)
      let data := XportResult_zero in
      let '(w, exported) :=
        if infoOnly then (w, Ok result) else
          match v_xport l with
          | None => (w, Panic "nil pointer dereference")
          | Some xport =>
              match Xport xport startTime endTime step with
              | inr err => (w, Err err)
              | inl tbl =>
                  (* the variable [data] declared by [data, err := ...], local
                     to the block and distinct from the one above *)
                  let b := fresh (w_live w) in
                  let data' := {| table := tbl; buffer := Some b |} in
                  (set_live ({[b]} ∪ w_live w) w,
                   fill_result (v_series l) data' result)
              end
          end in
      match exported with
      | Err e => (w, Err e)
      | Panic why => (w, Panic why)
      | Ok result =>
          match Graph (v_graph l) startTime endTime with
          | inr err => (w, Err err)
          | inl graphInfo =>
              match rrdParseInfo graphInfo result with
              | Err e => (w, Err e)
              | Panic why => (w, Panic why)
              | Ok result => (set_live (FreeValues data (w_live w)) w, Ok result)
              end
          end
      end
  end.

Definition rrdGetData (w : World) (startTime endTime step : Z)
    (percentiles : list float64) (infoOnly : bool)
    : World * Outcome (gmap string PlotResult) :=
  if decide (length (gq_Series (w_query w)) = 0%nat) then (w, Err "group has no series") else
  let w :=
    if decide (gq_Type (w_query w) ≠ OperGroupTypeNone ∧
               length (gq_Series (w_query w)) = 1%nat)
    then set_query (set_Type OperGroupTypeNone (w_query w)) w
    else w in
  rrdGetData_execute w startTime endTime step percentiles infoOnly.

Definition GetPlots (w : World) (startTime endTime step : Z) (percentiles : list float64)
    : World * Outcome (gmap string PlotResult) :=
  rrdGetData w startTime endTime step percentiles false.

End Executor.

(** ** Discovery *)

(** A channel as the connector sees it: whether it has been closed and what
    has been sent on it.  A send on, or a second close of, a closed channel
    panics; a consumer is assumed to drain the channel, so a send does not
    block for ever. *)
Record Chan (A : Type) : Type := { closed : bool; sent : list A }.
Arguments closed {A} c.
Arguments sent {A} c.

Definition chan_send {A : Type} (x : A) (c : Chan A) : Outcome (Chan A) :=
  if closed c then Panic "send on closed channel"
  else Ok {| closed := false; sent := sent c ++ [x] |}.

Definition chan_close {A : Type} (c : Chan A) : Outcome (Chan A) :=
  if closed c then Panic "close of closed channel"
  else Ok {| closed := true; sent := sent c |}.

(** A compiled pattern, by the two methods [Refresh] calls. *)
Record Regexp : Type := {
  SubexpNames : list string;
  FindStringSubmatch : string → list string
}.

(** Modelled from the spec: one call of the visit function by the directory
    walker [utils.WalkDir], which is not part of the connector's file:
    the path, whether [fileInfo.Mode() & os.ModeType] is non-zero, and the
    traversal error handed over, if any. *)
Record FileVisit : Type := {
  fv_path : string;
  fv_special : bool;
  fv_err : option string
}.

(** The state of a discovery run: the connector, the channel its
    [outputChan] field points to, and the error channel. *)
Record Discovery : Type := {
  d_connector : RRDConnector;
  d_output : Chan (string * string);
  d_errChan : Chan string
}.

Definition set_metrics (m : gmap string (gmap string rrdMetric)) (st : Discovery)
    : Discovery :=
  {| d_connector := {| Path := Path (d_connector st); Pattern := Pattern (d_connector st);
                       Daemon := Daemon (d_connector st); metrics := m |};
     d_output := d_output st; d_errChan := d_errChan st |}.

Definition set_output (c : Chan (string * string)) (st : Discovery) : Discovery :=
  {| d_connector := d_connector st; d_output := c; d_errChan := d_errChan st |}.

Definition set_errChan (c : Chan string) (st : Discovery) : Discovery :=
  {| d_connector := d_connector st; d_output := d_output st; d_errChan := c |}.

(** A loop whose body updates the state and may return an error or panic;
    the first such outcome ends the loop. *)
Fixpoint foldS {A St : Type} (f : St → A → St * Outcome ()) (l : list A) (s : St)
    : St * Outcome () :=
  match l with
  | [] => (s, Ok ())
  | x :: l' =>
      match f s x with
      | (s', Ok _) => foldS f l' s'
      | (s', other) => (s', other)
      end
  end.

(** The statement [errChan <- err]. *)
Definition send_err (msg : string) (st : Discovery) : Discovery * Outcome () :=
  match chan_send msg (d_errChan st) with
  | Ok c => (set_errChan c st, Ok ())
  | Err e => (st, Err e)
  | Panic why => (st, Panic why)
  end.

Section Discovery.

(** [regexp.MustCompile]; [None] when the pattern does not compile, in which
    case [MustCompile] panics. *)
Variable Compile : string → option Regexp.

(** [rrd.Info] reduced to what [Refresh] reads of it: an error, or the keys
    of the [ds.index] entry, when there is one, in the order the [range]
    statement yields them. *)
Variable rrd_Info : string → string + option (list string).

(** Modelled from the spec: the visits [utils.WalkDir] makes from a root, in
    order; the walk ends at the first visit for which the visit function
    returns an error, and returns that error. *)
Variable WalkDir_visits : string → list FileVisit.

(** The body of the loop over the dataset names of one archive. *)
Definition add_dataset (filePath sourceName metricName : string)
    (st : Discovery) (dsName : string) : Discovery * Outcome () :=
  let metricFullName := metricName +:+ "/" +:+ dsName in
  match chan_send (sourceName, metricFullName) (d_output st) with
  | Err e => (st, Err e)
  | Panic why => (st, Panic why)
  | Ok c =>
      let st := set_output c st in
      (set_metrics
         (alter (λ src, <[metricFullName := {| Dataset := dsName; FilePath := filePath |}]> src)
                sourceName (metrics (d_connector st))) st,
       Ok ())
  end.

(** The closure [walkFunc] of [Refresh].  The warnings it logs for a file
    that does not match or whose metadata cannot be read are not modelled. *)
Definition walkFunc (re : Regexp) (st : Discovery) (v : FileVisit) : Discovery * Outcome () :=
  match fv_err v with
  | Some err => (st, Err err)
  | None =>
  if fv_special v then (st, Ok ()) else
  match slice_from (fv_path v) (String.length (Path (d_connector st)) + 1) with
  | None => (st, Panic "slice bounds out of range")
  | Some rel =>
  let submatch := FindStringSubmatch re rel in
  if decide (length submatch = 0%nat) then (st, Ok ()) else
  match (name1 ← index (SubexpNames re) 1;
         if decide (name1 = "source") then
           sourceName ← index submatch 1; metricName ← index submatch 2;
           Ok (sourceName, metricName)
         else
           sourceName ← index submatch 2; metricName ← index submatch 1;
           Ok (sourceName, metricName)) with
  | Err e => (st, Err e)
  | Panic why => (st, Panic why)
  | Ok (sourceName, metricName) =>
      let st :=
        match metrics (d_connector st) !! sourceName with
        | None => set_metrics (<[sourceName := ∅]> (metrics (d_connector st))) st
        | Some _ => st
        end in
      match rrd_Info (fv_path v) with
      | inl _ => (st, Ok ())
      | inr None => (st, Ok ())
      | inr (Some dsNames) =>
          foldS (add_dataset (fv_path v) sourceName metricName) dsNames st
      end
  end
  end
  end.

(** The loop of [Refresh] that validates the names of the capture groups:
    the set of names seen, or the first invalid one. *)
Fixpoint check_groups (names : list string) (groups : gset string) : string + gset string :=
  match names with
  | [] => inr groups
  | key :: names' =>
      if decide (key = "") then check_groups names' groups
      else if decide (key = "source" ∨ key = "metric") then
        check_groups names' ({[key]} ∪ groups)
      else inl key
  end.

(** [Refresh] up to its deferred calls. *)
Definition Refresh_body (st : Discovery) : Discovery * Outcome () :=
  match Compile (Pattern (d_connector st)) with
  | None => (st, Panic "regexp: Compile")
  | Some re =>
      match check_groups (SubexpNames re) ∅ with
      | inl key => send_err ("invalid pattern keyword `" +:+ key +:+ "'") st
      | inr groups =>
          if decide ("source" ∉ groups) then send_err "missing pattern keyword `source'" st
          else if decide ("metric" ∉ groups) then
            send_err "missing pattern keyword `metric'" st
          else
            match foldS (walkFunc re) (WalkDir_visits (Path (d_connector st))) st with
            | (st, Err err) => send_err err st
            | (st, other) => (st, other)
            end
      end
  end.

(** [Refresh]: the body, then the deferred [close(errChan)] and
    [close( *connector.outputChan)], which run whether or not the body
    panicked; the run panics if any of the three did. *)
Definition Refresh (st : Discovery) : Discovery * Outcome () :=
  let '(st, r) := Refresh_body st in
  let '(st, r) :=
    match chan_close (d_errChan st) with
    | Ok c => (set_errChan c st, r)
    | _ => (st, Panic "close of closed channel")
    end in
  match chan_close (d_output st) with
  | Ok c => (set_output c st, r)
  | _ => (st, Panic "close of closed channel")
  end.

End Discovery.

End Connector.

Import Connector.

(* ===================================================================== *)
(** * A reference evaluator for export programs                           *)
(* ===================================================================== *)

Module Engine.

Section Evaluator.

(** Modelled from the spec: the time-series engine is an external
    collaborator.  Its numbers are left abstract: [num] with the three
    arithmetic operations the connector's expressions use, the constants 0 and
    1, the test for zero, and the reading of a numeric literal.  An unknown
    sample is [None]. *)
Variable num : Type.
Variables add mul div : num → num → num.
Variables zero one : num.
Variable is_zero : num → bool.
Variable lit : string → option num.

(** Modelled from the spec: the comma-separated tokens of an expression. *)
Definition fields (rpn : string) : list string :=
  SplitN rpn comma (S (String.length rpn)).

(** Modelled from the spec: arithmetic propagates the unknown. *)
Definition binop (f : num → num → num) (a b : option num) : option num :=
  match a, b with
  | Some x, Some y => Some (f x y)
  | _, _ => None
  end.

(** Modelled from the spec: a condition holds when it is known and not
    zero. *)
Definition truthy (c : option num) : bool :=
  match c with
  | Some x => negb (is_zero x)
  | None => false
  end.

(** Modelled from the spec: one token of a reverse-Polish expression applied
    to the evaluation stack (top first): the operators [+], [*], [/], the
    is-unknown test [UN], the conditional select [IF] (on [a,b,c,IF]: [b] when
    [a] holds, else [c]), a numeric literal, or a previously defined
    identifier.  [None] when the expression is ill-formed. *)
Definition step (env : gmap string (option num)) (stack : list (option num)) (tok : string)
    : option (list (option num)) :=
  if decide (tok = "+") then
    match stack with b :: a :: rest => Some (binop add a b :: rest) | _ => None end
  else if decide (tok = "*") then
    match stack with b :: a :: rest => Some (binop mul a b :: rest) | _ => None end
  else if decide (tok = "/") then
    match stack with b :: a :: rest => Some (binop div a b :: rest) | _ => None end
  else if decide (tok = "UN") then
    match stack with
    | a :: rest => Some (Some (match a with None => one | Some _ => zero end) :: rest)
    | _ => None
    end
  else if decide (tok = "IF") then
    match stack with
    | c :: b :: a :: rest => Some ((if truthy a then b else c) :: rest)
    | _ => None
    end
  else
    match lit tok with
    | Some x => Some (Some x :: stack)
    | None =>
        match env !! tok with
        | Some v => Some (v :: stack)
        | None => None
        end
    end.

Fixpoint steps (env : gmap string (option num)) (toks : list string)
    (stack : list (option num)) : option (list (option num)) :=
  match toks with
  | [] => Some stack
  | tok :: toks' =>
      match step env stack tok with
      | Some stack' => steps env toks' stack'
      | None => None
      end
  end.

(** Modelled from the spec: the value of an expression, the single element
    left on the stack. *)
Definition eval (env : gmap string (option num)) (rpn : string) : option (option num) :=
  match steps env (fields rpn) [] with
  | Some [v] => Some v
  | _ => None
  end.

(** Modelled from the spec: the evaluation of an export program at one row.
    [sample file ds] is the consolidated sample of dataset [ds] of archive
    [file] at that row.  The state is the value of every identifier defined
    so far and the columns marked as output so far, by legend. *)
Definition exec (sample : string → string → option num)
    (st : gmap string (option num) * list (string * option num)) (o : Op)
    : option (gmap string (option num) * list (string * option num)) :=
  match o with
  | OpDef vname rrdfile dsname _ => Some (<[vname := sample rrdfile dsname]> st.1, st.2)
  | OpCDef vname rpn =>
      match eval st.1 rpn with
      | Some v => Some (<[vname := v]> st.1, st.2)
      | None => None
      end
  | OpXportDef vname label =>
      match st.1 !! vname with
      | Some v => Some (st.1, st.2 ++ [(label, v)])
      | None => None
      end
  | OpVDef _ _ | OpPrint _ _ => Some st
  end.

Fixpoint execs (sample : string → string → option num) (os : list Op)
    (st : gmap string (option num) * list (string * option num))
    : option (gmap string (option num) * list (string * option num)) :=
  match os with
  | [] => Some st
  | o :: os' =>
      match exec sample st o with
      | Some st' => execs sample os' st'
      | None => None
      end
  end.

(** Modelled from the spec: the row of the exported table, one value per
    output column. *)
Definition run_row (sample : string → string → option num) (p : Exporter)
    : option (list (string * option num)) :=
  match execs sample (ops p) (∅, []) with
  | Some st => Some st.2
  | None => None
  end.

(** Modelled from the spec: the labels of the columns marked as output, in
    the order in which they are marked. *)
Definition legends (p : Exporter) : list string :=
  omap (λ o, match o with OpXportDef _ label => Some label | _ => None end) (ops p).

(** Modelled from the spec: the evaluation of an export program at each row
    of a time range, in order. *)
Fixpoint run_rows (rows : list (string → string → option num)) (p : Exporter)
    : option (list (list (string * option num))) :=
  match rows with
  | [] => Some []
  | sample :: rest =>
      match run_row sample p, run_rows rest p with
      | Some r, Some rs => Some (r :: rs)
      | _, _ => None
      end
  end.

(** Modelled from the spec: the double handed over for a sample, which is
    not-a-number for an unknown. *)
Variable double : num → float64.

Definition plot (v : option num) : float64 :=
  match v with
  | Some x => double x
  | None => NaN
  end.

(** Modelled from the spec: an export.  [archive startTime endTime step] is
    what the archives hold over the time range, one sample function per row.
    The table has the marked columns as legends and holds the rows one after
    the other; a program with an ill-formed expression is refused. *)
Definition Xport (archive : Z → Z → Z → list (string → string → option num))
    (p : Exporter) (startTime endTime step : Z) : XportData + string :=
  match run_rows (archive startTime endTime step) p with
  | Some rows =>
      inl {| Legends := legends p; RowCnt := length rows;
             values := concat (map (map (λ c, plot c.2)) rows) |}
  | None => inr "rrd: invalid rpn expression"
  end.

End Evaluator.

End Engine.

(* ===================================================================== *)
(** * Properties                                                          *)
(* ===================================================================== *)

(** ** The configuration factory *)

Section Factory.

Variable config : gmap string Value.

(** Whatever strings [path] and [pattern] are bound to, a configuration
    without a [daemon] entry is refused. *)
Lemma Connectors_rrd_daemon_required :
  config !! "daemon" = None →
  ∀ c, Connectors_rrd config ≠ Ok c.
Proof.
  intros Hd c. unfold Connectors_rrd.
  destruct (config !! "path") as [[]|]; try discriminate;
  destruct (config !! "pattern") as [[]|]; try discriminate;
  rewrite Hd; simpl; discriminate.
Qed.

(** With the three settings bound to strings the factory builds the
    connector, with an empty catalog. *)
Lemma Connectors_rrd_ok (p re d : string) :
  config !! "path" = Some (VString p) →
  config !! "pattern" = Some (VString re) →
  config !! "daemon" = Some (VString d) →
  Connectors_rrd config = Ok {| Path := p; Pattern := re; Daemon := d; metrics := ∅ |}.
Proof.
  intros Hp Hr Hd. unfold Connectors_rrd. rewrite Hp, Hr, Hd. reflexivity.
Qed.

End Factory.

(** C5: the factory does not treat [daemon] as optional.  On the
    configuration that binds [path] and [pattern] to strings and omits
    [daemon], it returns the error reserved for a [daemon] setting of the
    wrong type instead of a connector. *)
Theorem Connectors_rrd_without_daemon :
  Connectors_rrd (<["path" := VString "/var/lib/collectd/rrd"]>
                  (<["pattern" := VString "(?P<source>[^/]+)/(?P<metric>.+)\.rrd"]> ∅))
  = Err "connector setting `daemon' should be a string".
Proof. vm_compute. reflexivity. Qed.

(** ** Splitting a statistic line *)

Lemma comma_byte : String comma "" = ",".
Proof. reflexivity. Qed.

Lemma cut_None (sep : Ascii.ascii) (s : string) :
  cut sep s = None ↔ count_byte sep s = 0%nat.
Proof.
  induction s as [|c r IH]; simpl; [done|].
  destruct (decide (c = sep)); [split; intros; discriminate|].
  destruct (cut sep r) as [[a b]|]; simpl.
  - split; [discriminate|]. intros H. apply IH in H. discriminate.
  - split; [intros _; by apply IH | done].
Qed.

Lemma cut_Some (sep : Ascii.ascii) (s a b : string) :
  cut sep s = Some (a, b) →
  s = a +:+ String sep b ∧ count_byte sep a = 0%nat ∧
  count_byte sep s = S (count_byte sep b).
Proof.
  revert a. induction s as [|c r IH]; simpl; intros a H; [discriminate|].
  destruct (decide (c = sep)) as [->|Hne].
  - injection H as <- <-. done.
  - destruct (cut sep r) as [[a' b']|]; [|discriminate].
    injection H as <- <-. destruct (IH a' eq_refl) as (-> & Ha & Hc).
    simpl. rewrite decide_False by done. rewrite Ha, Hc. done.
Qed.

Lemma cut_app (sep : Ascii.ascii) (a b : string) :
  count_byte sep a = 0%nat → cut sep (a +:+ String sep b) = Some (a, b).
Proof.
  induction a as [|c r IH]; simpl; intros H.
  - by rewrite decide_True.
  - destruct (decide (c = sep)); [discriminate|]. by rewrite IH.
Qed.

(** A line with at least two commas splits into exactly three fields. *)
Lemma SplitN3_fields (s : string) :
  (2 ≤ count_byte comma s)%nat → ∃ c0 c1 c2, SplitN s comma 3 = [c0; c1; c2].
Proof.
  intros H. simpl.
  destruct (cut comma s) as [[a b]|] eqn:E1.
  - apply cut_Some in E1 as (_ & _ & Hc).
    destruct (cut comma b) as [[a' b']|] eqn:E2; [by eauto|].
    apply cut_None in E2. lia.
  - apply cut_None in E1. lia.
Qed.

(** A line with fewer than two commas has no third field. *)
Lemma SplitN3_short (s : string) :
  (count_byte comma s < 2)%nat → SplitN s comma 3 !! 2%nat = None.
Proof.
  intros H. simpl.
  destruct (cut comma s) as [[a b]|] eqn:E1; [|done].
  apply cut_Some in E1 as (_ & _ & Hc).
  destruct (cut comma b) as [[a' b']|] eqn:E2; [|done].
  apply cut_Some in E2 as (_ & _ & Hc'). lia.
Qed.

(** The fields of a line written [label,key,value]. *)
Lemma SplitN3_line (label key value : string) :
  count_byte comma label = 0%nat → count_byte comma key = 0%nat →
  SplitN (label +:+ "," +:+ key +:+ "," +:+ value) comma 3 = [label; key; value].
Proof.
  intros Hl Hk. simpl.
  change ("," +:+ key +:+ "," +:+ value) with (String comma (key +:+ String comma value)).
  rewrite (cut_app _ _ _ Hl), (cut_app _ _ _ Hk). done.
Qed.

(** ** The result merger *)

(** What a caller reads from a merged result: the statistic stored for a
    label under a key, and the samples of a label. *)
Definition stat (data : gmap string PlotResult) (label key : string) : option float64 :=
  data !! label ≫= (λ r, Info r !! key).

Definition samples (data : gmap string PlotResult) (label : string) : list float64 :=
  default [] (Plots <$> data !! label).

(** The update one statistic line performs. *)
Definition store (c0 c1 : string) (x : float64) (data : gmap string PlotResult)
    : gmap string PlotResult :=
  alter (λ r, {| Plots := Plots r; Info := <[c1 := x]> (Info r) |}) c0
        (match data !! c0 with
         | None => <[c0 := new_PlotResult]> data
         | Some _ => data
         end).

Definition parsed (ParseFloat : string → option float64) (c2 : string) : float64 :=
  match ParseFloat c2 with
  | Some x => x
  | None => NaN
  end.

Lemma stat_store (data : gmap string PlotResult) (c0 c1 : string) (x : float64)
    (label key : string) :
  stat (store c0 c1 x data) label key =
  if decide (label = c0 ∧ key = c1) then Some x else stat data label key.
Proof.
  unfold stat, store. destruct (decide (label = c0)) as [->|Hl].
  - rewrite lookup_alter_eq.
    destruct (data !! c0) as [r|] eqn:E; simpl.
    + rewrite E. simpl. destruct (decide (key = c1)) as [->|Hk].
      * rewrite decide_True by done. by rewrite lookup_insert_eq.
      * rewrite decide_False by tauto. by rewrite lookup_insert_ne.
    + rewrite lookup_insert_eq. simpl. destruct (decide (key = c1)) as [->|Hk].
      * rewrite decide_True by done. by rewrite lookup_insert_eq.
      * rewrite decide_False by tauto. rewrite lookup_insert_ne by done. done.
  - rewrite decide_False by tauto. rewrite lookup_alter_ne by done.
    destruct (data !! c0); [done|]. by rewrite lookup_insert_ne.
Qed.

Lemma samples_store (data : gmap string PlotResult) (c0 c1 : string) (x : float64)
    (label : string) :
  samples (store c0 c1 x data) label = samples data label.
Proof.
  unfold samples, store. destruct (decide (label = c0)) as [->|Hl].
  - rewrite lookup_alter_eq. destruct (data !! c0) as [r|] eqn:E; simpl.
    + by rewrite E.
    + by rewrite lookup_insert_eq.
  - rewrite lookup_alter_ne by done.
    destruct (data !! c0); [done|]. by rewrite lookup_insert_ne.
Qed.

Section Merger.

Variable ParseFloat : string → option float64.

Lemma rrdParseInfo_line_fields (data : gmap string PlotResult) (value c0 c1 c2 : string) :
  SplitN value comma 3 = [c0; c1; c2] →
  rrdParseInfo_line ParseFloat data value = Ok (store c0 c1 (parsed ParseFloat c2) data).
Proof. intros H. unfold rrdParseInfo_line. rewrite H. reflexivity. Qed.

Lemma rrdParseInfo_line_short (data : gmap string PlotResult) (value : string) :
  (count_byte comma value < 2)%nat →
  rrdParseInfo_line ParseFloat data value = Panic "index out of range".
Proof.
  intros H. unfold rrdParseInfo_line, index.
  rewrite (SplitN3_short _ H). reflexivity.
Qed.

End Merger.

Lemma foldM_app {A St : Type} (f : St → A → Outcome St) (l1 l2 : list A) (s : St) :
  foldM f (l1 ++ l2) s = foldM f l1 s ≫= foldM f l2.
Proof.
  revert s. induction l1 as [|x l1 IH]; intros s; simpl; [done|].
  destruct (f s x); simpl; [apply IH|done|done].
Qed.

Section MergerRuns.

Variable ParseFloat : string → option float64.

Lemma rrdParseInfo_line_inv (data data' : gmap string PlotResult) (value : string) :
  rrdParseInfo_line ParseFloat data value = Ok data' →
  ∃ c0 c1 c2, SplitN value comma 3 = [c0; c1; c2] ∧
              data' = store c0 c1 (parsed ParseFloat c2) data.
Proof.
  intros H. destruct (le_lt_dec 2 (count_byte comma value)) as [Hc|Hc].
  - destruct (SplitN3_fields _ Hc) as (c0 & c1 & c2 & E).
    rewrite (rrdParseInfo_line_fields _ _ _ _ _ _ E) in H.
    injection H as <-. eauto.
  - rewrite (rrdParseInfo_line_short _ _ _ Hc) in H. discriminate.
Qed.

(** The merger never touches the samples. *)
Lemma rrdParseInfo_samples (lines : list string) (data d : gmap string PlotResult) :
  foldM (rrdParseInfo_line ParseFloat) lines data = Ok d →
  ∀ l, samples d l = samples data l.
Proof.
  revert data. induction lines as [|line lines IH]; simpl; intros data H l.
  - by injection H as <-.
  - destruct (rrdParseInfo_line ParseFloat data line) as [data'| |] eqn:E;
      simpl in H; try discriminate.
    apply rrdParseInfo_line_inv in E as (c0 & c1 & c2 & _ & ->).
    rewrite (IH _ H). apply samples_store.
Qed.

(** Two results that agree everywhere but on one statistic still do so
    after the same lines have been merged into both; the run on one succeeds
    when the run on the other does. *)
Lemma rrdParseInfo_agree (label key : string) (lines : list string)
    (dA dB d0 : gmap string PlotResult) :
  foldM (rrdParseInfo_line ParseFloat) lines dB = Ok d0 →
  (∀ l k, ¬ (l = label ∧ k = key) → stat dA l k = stat dB l k) →
  ∃ d1, foldM (rrdParseInfo_line ParseFloat) lines dA = Ok d1 ∧
        (∀ l k, ¬ (l = label ∧ k = key) → stat d1 l k = stat d0 l k) ∧
        (Forall (λ line, ∀ v, SplitN line comma 3 ≠ [label; key; v]) lines →
         stat d1 label key = stat dA label key).
Proof.
  revert dA dB. induction lines as [|line lines IH]; simpl; intros dA dB H Hag.
  - injection H as <-. eauto.
  - destruct (rrdParseInfo_line ParseFloat dB line) as [dB'| |] eqn:E;
      simpl in H; try discriminate.
    apply rrdParseInfo_line_inv in E as (c0 & c1 & c2 & Hs & ->).
    rewrite (rrdParseInfo_line_fields _ dA _ _ _ _ Hs). simpl.
    destruct (IH (store c0 c1 (parsed ParseFloat c2) dA) _ H) as (d1 & Hrun & Hoff & Hon).
    { intros l k Hne. rewrite !stat_store. case_decide; [done|by apply Hag]. }
    exists d1. split; [done|]. split; [done|].
    intros Hall. inversion Hall as [|? ? Hline Hrest]; subst.
    rewrite (Hon Hrest), stat_store. rewrite decide_False; [done|].
    intros [-> ->]. by apply (Hline c2).
Qed.

(** C10: the merger reads the third field of every line without checking
    that the line has one.  It completes exactly when every line contains at
    least two commas, and panics with an index out of range exactly when some
    line contains fewer. *)
Theorem rrdParseInfo_needs_three_fields (info : GraphInfo) (data : gmap string PlotResult) :
  ((∃ r, rrdParseInfo ParseFloat info data = Ok r) ↔
   Forall (λ line, (2 ≤ count_byte comma line)%nat) (InfoPrint info)) ∧
  (rrdParseInfo ParseFloat info data = Panic "index out of range" ↔
   Exists (λ line, (count_byte comma line < 2)%nat) (InfoPrint info)).
Proof.
  unfold rrdParseInfo. destruct info as [lines]. simpl.
  revert data. induction lines as [|line lines IH]; intros data; simpl.
  - split; split; eauto.
    + discriminate.
    + intros H. inversion H.
  - destruct (le_lt_dec 2 (count_byte comma line)) as [Hc|Hc].
    + destruct (SplitN3_fields _ Hc) as (c0 & c1 & c2 & E).
      rewrite (rrdParseInfo_line_fields _ data _ _ _ _ E). simpl.
      destruct (IH (store c0 c1 (parsed ParseFloat c2) data)) as [IH1 IH2].
      split; split.
      * intros H. constructor; [done|]. by apply IH1.
      * intros H. inversion H; subst. by apply IH1.
      * intros H. apply Exists_cons_tl. by apply IH2.
      * intros H. inversion H; subst; [lia|]. by apply IH2.
    + rewrite (rrdParseInfo_line_short _ data _ Hc). simpl.
      split; split.
      * intros [r Hr]. discriminate.
      * intros H. inversion H; subst. lia.
      * intros _. by apply Exists_cons_hd.
      * done.
Qed.

(** C9: a statistic line [label,key,value] whose value does not parse makes
    the merger store not-a-number under [label] and [key] and carry on.
    Compared with the run over the other lines alone, the run still succeeds,
    every sample sequence and every other statistic is the same, and the
    not-a-number is what the result holds for [label] and [key] unless a later
    line writes that statistic again. *)
Theorem rrdParseInfo_unparsable_value (pre post : list string) (label key value : string)
    (data d0 : gmap string PlotResult) :
  count_byte comma label = 0%nat →
  count_byte comma key = 0%nat →
  ParseFloat value = None →
  rrdParseInfo ParseFloat {| InfoPrint := pre ++ post |} data = Ok d0 →
  ∃ d1,
    rrdParseInfo ParseFloat
      {| InfoPrint := pre ++ (label +:+ "," +:+ key +:+ "," +:+ value) :: post |} data = Ok d1 ∧
    (∀ l, samples d1 l = samples d0 l ∧ samples d1 l = samples data l) ∧
    (∀ l k, ¬ (l = label ∧ k = key) → stat d1 l k = stat d0 l k) ∧
    (Forall (λ line, ∀ v, SplitN line comma 3 ≠ [label; key; v]) post →
     stat d1 label key = Some NaN).
Proof.
  intros Hl Hk Hv. unfold rrdParseInfo. simpl.
  rewrite foldM_app. rewrite foldM_app. simpl.
  destruct (foldM (rrdParseInfo_line ParseFloat) pre data) as [dp| |] eqn:Epre;
    simpl; try discriminate.
  intros Hpost.
  rewrite (rrdParseInfo_line_fields _ dp _ _ _ _ (SplitN3_line label key value Hl Hk)).
  simpl. unfold parsed at 1. rewrite Hv.
  destruct (rrdParseInfo_agree label key post (store label key NaN dp) dp d0 Hpost)
    as (d1 & Hrun & Hoff & Hon).
  { intros l k Hne. rewrite stat_store. by rewrite decide_False. }
  exists d1. split; [done|]. split; [|split; [done|]].
  - intros l. rewrite (rrdParseInfo_samples _ _ _ Hrun l), samples_store.
    rewrite (rrdParseInfo_samples _ _ _ Hpost l).
    by rewrite (rrdParseInfo_samples _ _ _ Epre l).
  - intros Hall. rewrite (Hon Hall), stat_store. by rewrite decide_True.
Qed.

End MergerRuns.

(** ** The statistics request *)

(** A value is integral when it is finite and its fraction is a whole
    number. *)
Definition integral (x : float64) : bool :=
  match x with
  | Fin _ n d => (n mod Npos d =? 0)%N
  | Inf _ | NaN => false
  end.

(** The values on which the language fixes the outcome of the test of
    [rrdSetGraph]: the finite ones that fit a 64-bit integer, and the
    non-finite ones. *)
Definition test_determined (x : float64) : Prop :=
  match x with
  | Fin _ _ _ => is_Some (float_to_int x)
  | Inf _ | NaN => True
  end.

(** The three operations requested for the percentile of a given index. *)
Definition percentile_ops (serieName itemName : string) (index : nat) (p : float64)
    : list Op :=
  [ OpCDef (serieName +:+ "-cdef" +:+ Itoa (Z.of_nat index))
           (serieName +:+ ",UN,0," +:+ serieName +:+ ",IF");
    OpVDef (serieName +:+ "-vdef" +:+ Itoa (Z.of_nat index))
           (serieName +:+ "-cdef" +:+ Itoa (Z.of_nat index) +:+ "," +:+ FormatF p +:+
            ",PERCENT");
    OpPrint (serieName +:+ "-vdef" +:+ Itoa (Z.of_nat index))
            (itemName +:+ "," +:+
             (if integral p then FormatFixed 0 p else FormatFixed 2 p) +:+ "th,%lf") ].

(** The four summary statistics requested for every identifier. *)
Definition summary_ops (serieName itemName : string) : list Op :=
  [ OpVDef (serieName +:+ "-min") (serieName +:+ ",MINIMUM");
    OpPrint (serieName +:+ "-min") (itemName +:+ ",min,%lf");
    OpVDef (serieName +:+ "-avg") (serieName +:+ ",AVERAGE");
    OpPrint (serieName +:+ "-avg") (itemName +:+ ",avg,%lf");
    OpVDef (serieName +:+ "-max") (serieName +:+ ",MAXIMUM");
    OpPrint (serieName +:+ "-max") (itemName +:+ ",max,%lf");
    OpVDef (serieName +:+ "-last") (serieName +:+ ",LAST");
    OpPrint (serieName +:+ "-last") (itemName +:+ ",last,%lf") ].

Lemma signed_abs (k : Z) : signed (k <? 0) (Z.abs_N k) = k.
Proof. unfold signed. destruct (Z.ltb_spec k 0); lia. Qed.

Lemma abs_signed (s : bool) (n : N) : Z.abs_N (signed s n) = n.
Proof. unfold signed. destruct s; lia. Qed.

Section Statistics.

Variable int_overflow_test : float64 → bool.

(** On the values that fit an integer, the test of [rrdSetGraph] holds
    exactly for the non-integral ones. *)
Lemma has_fraction_integral (p : float64) :
  test_determined p → has_fraction int_overflow_test p = negb (integral p).
Proof.
  destruct p as [s n d| |]; [|done..].
  unfold test_determined, has_fraction. intros [k Hk]. rewrite Hk.
  unfold float_to_int in Hk. cbv zeta in Hk.
  destruct (_ && _); [|discriminate]. injection Hk as <-.
  unfold fsub, int_to_float. rewrite signed_abs. unfold fne0. f_equal.
  assert (signed s n * 1 - signed s (n / Npos d) * Zpos d = signed s (n mod Npos d)) as ->.
  { pose proof (N.div_mod n (Npos d) ltac:(done)) as Hdm.
    unfold signed. destruct s; lia. }
  by rewrite abs_signed.
Qed.

Lemma rrdSetGraph_percentile_ops (serieName itemName : string) (graph : Grapher)
    (index : nat) (p : float64) :
  test_determined p →
  ops (rrdSetGraph_percentile int_overflow_test serieName itemName graph index p) =
  ops graph ++ percentile_ops serieName itemName index p.
Proof.
  intros Hp. unfold rrdSetGraph_percentile, percentile_ops.
  rewrite (has_fraction_integral p Hp).
  destruct (integral p); simpl; rewrite <- !(assoc_L (++)); reflexivity.
Qed.

Lemma percentile_loop_ops (serieName itemName : string) (percentiles : list float64) :
  Forall test_determined percentiles →
  ∀ (graph : Grapher) (index : nat),
    ops (range_fold (rrdSetGraph_percentile int_overflow_test serieName itemName)
                    percentiles index graph) =
    ops graph ++
    concat (imap (λ i p, percentile_ops serieName itemName (index + i) p) percentiles).
Proof.
  induction 1 as [|p ps Hp _ IH]; intros graph index.
  - simpl. by rewrite app_nil_r.
  - cbn [range_fold]. rewrite IH, (rrdSetGraph_percentile_ops _ _ _ _ _ Hp).
    rewrite imap_cons, concat_cons, Nat.add_0_r, <- (assoc_L (++)).
    do 3 f_equal. apply imap_ext. intros i x _. simpl. by rewrite Nat.add_succ_r.
Qed.

(** C8: the statistics block of an identifier consists of the four summary
    requests followed, for the percentile [p] of index [i], by a derived
    identifier with unknowns zeroed, its [p]-th percentile, and a print
    request whose format is [<label>,<p>th,%lf], with [p] written without
    fractional digits when it is integral and with two otherwise. *)
Theorem rrdSetGraph_ops (graph : Grapher) (serieName itemName : string)
    (percentiles : list float64) :
  Forall test_determined percentiles →
  ops (rrdSetGraph int_overflow_test graph serieName itemName percentiles) =
  ops graph ++ summary_ops serieName itemName ++
  concat (imap (percentile_ops serieName itemName) percentiles).
Proof.
  intros H. unfold rrdSetGraph. rewrite (percentile_loop_ops _ _ _ H). simpl.
  rewrite <- !(assoc_L (++)). reflexivity.
Qed.

End Statistics.

(** The double nearest to 99.9. *)
Definition f99_9 : float64 := Fin false 3514918771674317 (2 ^ 45).
Definition f50 : float64 := Fin false 50 1.

(** The formats of the print requests of a program, in order. *)
Definition print_formats (p : Program) : list string :=
  omap (λ o, match o with OpPrint _ f => Some f | _ => None end) (ops p).

(** The percentiles 50 and 99.9 both fit an integer, and their statistics
    block has the shape stated above. *)
Lemma rrdSetGraph_ops_50_99_9 :
  Forall test_determined [f50; f99_9] ∧
  ops (rrdSetGraph (λ _, true) NewGrapher "serie0" "cpu" [f50; f99_9]) =
  ops NewGrapher ++ summary_ops "serie0" "cpu" ++
  concat (imap (percentile_ops "serie0" "cpu") [f50; f99_9]).
Proof.
  assert (Forall test_determined [f50; f99_9]) as H.
  { repeat constructor; vm_compute; eauto. }
  split; [exact H|]. apply (rrdSetGraph_ops (λ _, true) _ _ _ _ H).
Defined.

(** The percentiles 50 and 99.9 of a series labelled [cpu] are printed under
    [cpu,50th] and [cpu,99.90th]. *)
Example rrdSetGraph_cpu_keys (int_overflow_test : float64 → bool) :
  print_formats (rrdSetGraph int_overflow_test NewGrapher "serie0" "cpu" [f50; f99_9]) =
  [ "cpu,min,%lf"; "cpu,avg,%lf"; "cpu,max,%lf"; "cpu,last,%lf";
    "cpu,50th,%lf"; "cpu,99.90th,%lf" ].
Proof. vm_compute. reflexivity. Qed.

(** ** The shape of a compiled program *)

(** A program extended by a list of operations. *)
Definition add_ops (os : list Op) (p : Program) : Program :=
  {| daemon := daemon p; ops := ops p ++ os |}.

Lemma emit_add_ops (o : Op) (p : Program) : emit o p = add_ops [o] p.
Proof. reflexivity. Qed.

Lemma add_ops_nil (p : Program) : add_ops [] p = p.
Proof. destruct p. unfold add_ops. simpl. by rewrite app_nil_r. Qed.

Lemma add_ops_add_ops (os1 os2 : list Op) (p : Program) :
  add_ops os2 (add_ops os1 p) = add_ops (os1 ++ os2) p.
Proof. unfold add_ops. simpl. by rewrite (assoc_L (++)). Qed.

Lemma SetDaemon_add_ops (d : string) (os : list Op) (p : Program) :
  SetDaemon d (add_ops os p) = add_ops os (SetDaemon d p).
Proof. reflexivity. Qed.

Lemma percentile_loop_appends (int_overflow_test : float64 → bool)
    (serieName itemName : string) (percentiles : list float64) :
  ∀ (index : nat) (graph : Grapher),
    ∃ os, range_fold (rrdSetGraph_percentile int_overflow_test serieName itemName)
                     percentiles index graph = add_ops os graph.
Proof.
  induction percentiles as [|p ps IH]; intros index graph; simpl.
  - exists []. by rewrite add_ops_nil.
  - destruct (IH (S index) (rrdSetGraph_percentile int_overflow_test serieName itemName
                                                    graph index p)) as [os ->].
    unfold rrdSetGraph_percentile.
    destruct (has_fraction _ p); rewrite !emit_add_ops, !add_ops_add_ops; eauto.
Qed.

(** The statistics block only appends to the program. *)
Lemma rrdSetGraph_appends (int_overflow_test : float64 → bool) (graph : Grapher)
    (serieName itemName : string) (percentiles : list float64) :
  ∃ os, rrdSetGraph int_overflow_test graph serieName itemName percentiles = add_ops os graph.
Proof.
  unfold rrdSetGraph.
  edestruct percentile_loop_appends as [os ->].
  rewrite !emit_add_ops, !add_ops_add_ops. eauto.
Qed.

(** *** Aggregated queries *)

Definition tmp_name (serieName : string) (index : nat) : string :=
  serieName +:+ "-tmp" +:+ Itoa (Z.of_nat index).

(** The two definitions of a contributing series: the raw dataset, and the
    same with unknown samples replaced by zero. *)
Definition tmp_ops (serieTemp : string) (m : rrdMetric) : list Op :=
  [ OpDef (serieTemp +:+ "-ori") (FilePath m) (Dataset m) "AVERAGE";
    OpCDef serieTemp (serieTemp +:+ "-ori,UN,0," +:+ serieTemp +:+ "-ori,IF") ].

(** The series that contribute to an aggregate, by position in the query and
    catalog entry: those that carry a metric. *)
Fixpoint contributors (connector : RRDConnector) (series : list SerieQuery) (index : nat)
    : list (nat * rrdMetric) :=
  match series with
  | [] => []
  | serie :: rest =>
      match sq_Metric serie with
      | Some metric =>
          match lookup_metric connector metric with
          | Ok m => [(index, m)]
          | _ => []
          end
      | None => []
      end ++ contributors connector rest (S index)
  end.

(** One more operand on the accumulation stack. *)
Definition push (stack : list string) (name : string) : list string :=
  if decide (length stack = 0%nat) then stack ++ [name] else stack ++ [name; "+"].

Definition contributor_ops (serieName : string) (cs : list (nat * rrdMetric)) : list Op :=
  flat_map (λ c, tmp_ops (tmp_name serieName c.1) c.2) cs.

Definition contributor_names (serieName : string) (cs : list (nat * rrdMetric))
    : list string :=
  map (λ c, tmp_name serieName c.1) cs.

Lemma aggr_loop (connector : RRDConnector) (serieName : string) (infoOnly : bool)
    (series : list SerieQuery) :
  ∀ (index : nat) (l l' : Locals),
    range_foldM (aggr_body connector serieName infoOnly) series index l = Ok l' →
    let cs := contributors connector series index in
    v_graph l' = add_ops (contributor_ops serieName cs) (v_graph l) ∧
    v_xport l' = (if infoOnly then v_xport l
                  else add_ops (contributor_ops serieName cs) <$> v_xport l) ∧
    v_stack l' = fold_left push (contributor_names serieName cs) (v_stack l) ∧
    v_series l' = v_series l ∧ v_count l' = v_count l.
Proof.
  induction series as [|serie rest IH]; intros index l l' H; simpl in *.
  - injection H as <-. rewrite add_ops_nil.
    destruct infoOnly, (v_xport l); simpl; rewrite ?add_ops_nil; done.
  - destruct (aggr_body connector serieName infoOnly l index serie) as [l1| |] eqn:E;
      simpl in H; try discriminate.
    destruct (IH _ _ _ H) as (Hg & Hx & Hs & Hm & Hc). clear IH H.
    unfold aggr_body in E. destruct (sq_Metric serie) as [metric|].
    + destruct (lookup_metric connector metric) as [m| |]; simpl in E; try discriminate.
      injection E as <-. simpl in *.
      rewrite Hg, Hx, Hs, Hm, Hc. rewrite !emit_add_ops, !add_ops_add_ops.
      repeat split.
      destruct infoOnly; [done|]. destruct (v_xport l); simpl; [|done].
      by rewrite !emit_add_ops, !add_ops_add_ops.
    + injection E as <-. done.
Qed.

(** The grapher and the exporter as they are before the [switch]. *)
Definition initial_program (connector : RRDConnector) : Program :=
  if decide (Daemon connector ≠ "") then SetDaemon (Daemon connector) NewGrapher
  else NewGrapher.

(** The last definition of an identifier: the group scale applied to
    [source], or [source] itself when the scale is zero. *)
Definition scale_op (target source : string) (scale : float64) : Op :=
  if fne0 scale then OpCDef target (source +:+ "," +:+ FormatF scale +:+ ",*")
  else OpCDef target source.

(** The reverse-Polish accumulation of an aggregated query. *)
Definition aggr_stack (connector : RRDConnector) (query : GroupQuery) : list string :=
  fold_left push (contributor_names "serie0" (contributors connector (gq_Series query) 0)) [] ++
  (if decide (gq_Type query = OperGroupTypeAvg)
   then [Itoa (Z.of_nat (length (gq_Series query))); "/"] else []).

(** The operations common to both programs of an aggregated query. *)
Definition aggr_ops (connector : RRDConnector) (query : GroupQuery) : list Op :=
  contributor_ops "serie0" (contributors connector (gq_Series query) 0) ++
  [ OpCDef "serie0-orig" (Join (aggr_stack connector query) ",");
    scale_op "serie0" "serie0-orig" (gq_Scale query) ].

Lemma serie0_name : "serie" +:+ Itoa 0 = "serie0".
Proof. reflexivity. Qed.

Lemma rrdGetData_compile_aggr (int_overflow_test : float64 → bool)
    (connector : RRDConnector) (query : GroupQuery) (percentiles : list float64)
    (infoOnly : bool) (l : Locals) :
  gq_Type query = OperGroupTypeAvg ∨ gq_Type query = OperGroupTypeSum →
  rrdGetData_compile int_overflow_test connector query percentiles infoOnly = Ok l →
  v_stack l = aggr_stack connector query ∧
  (∃ os, v_graph l = add_ops (aggr_ops connector query ++ os) (initial_program connector)) ∧
  v_xport l = (if infoOnly then None
               else Some (add_ops (aggr_ops connector query ++ [OpXportDef "serie0" "serie0"])
                                  (initial_program connector))) ∧
  v_series l = {["serie0" := gq_Name query]}.
Proof.
  intros Ht H.
  assert (rrdGetData_aggregate int_overflow_test connector query percentiles infoOnly
            (initial_locals connector infoOnly) = Ok l) as Ha.
  { unfold rrdGetData_compile in H. by destruct Ht as [Ht|Ht]; rewrite Ht in H. }
  clear H. unfold rrdGetData_aggregate in Ha.
  change (v_count (initial_locals connector infoOnly)) with 0 in Ha.
  rewrite serie0_name in Ha.
  destruct (range_foldM _ _ _ _) as [l1| |] eqn:Hloop; try discriminate.
  apply aggr_loop in Hloop as (Hg & Hx & Hs & Hm & _).
  change (v_graph (initial_locals connector infoOnly))
    with (initial_program connector) in Hg.
  change (v_xport (initial_locals connector infoOnly))
    with (if infoOnly then None else Some (initial_program connector)) in Hx.
  change (Ok ?x = Ok l) with (mret (M := Outcome) x = Ok l) in Ha.
  cbv beta iota zeta delta [mbind outcome_bind mret outcome_ret] in Ha.
  injection Ha as <-. cbn [v_stack v_graph v_xport v_series].
  assert (∀ g : Program,
    (if fne0 (gq_Scale query)
     then emit (OpCDef "serie0" ("serie0" +:+ "-orig," +:+ FormatF (gq_Scale query) +:+ ",*")) g
     else emit (OpCDef "serie0" ("serie0" +:+ "-orig")) g) =
    add_ops [scale_op "serie0" "serie0-orig" (gq_Scale query)] g) as Hscale.
  { intros g. unfold scale_op. by destruct (fne0 (gq_Scale query)). }
  rewrite !Hscale, !emit_add_ops, !add_ops_add_ops.
  assert ((if decide (gq_Type query = OperGroupTypeAvg)
           then v_stack l1 ++ [Itoa (Z.of_nat (length (gq_Series query))); "/"]
           else v_stack l1) = aggr_stack connector query) as ->.
  { unfold aggr_stack. rewrite Hs. case_decide; [done|by rewrite app_nil_r]. }
  rewrite Hg, Hx, Hm. unfold aggr_ops.
  split; [done|]. split; [|split; [|done]].
  - edestruct rrdSetGraph_appends as [os ->]. exists os.
    by rewrite !add_ops_add_ops, <- !(assoc_L (++)).
  - destruct infoOnly; simpl; [done|].
    rewrite !Hscale, !emit_add_ops, !add_ops_add_ops.
    by rewrite <- !(assoc_L (++)).
Qed.

(** ** The divisor of an average *)

(** A series is resolvable when it carries a metric that the catalog knows. *)
Definition resolvable (connector : RRDConnector) (serie : SerieQuery) : bool :=
  match sq_Metric serie with
  | Some metric =>
      match lookup_metric connector metric with
      | Ok _ => true
      | _ => false
      end
  | None => false
  end.

(** The operand of the final division of an accumulation stack. *)
Definition avg_divisor (stack : list string) : option string :=
  match reverse stack with
  | "/" :: n :: _ => Some n
  | _ => None
  end.

(** The statement that an average is taken over the resolvable series. *)
Definition divides_by_resolvable (connector : RRDConnector) (query : GroupQuery) : Prop :=
  ∀ int_overflow_test percentiles infoOnly l,
    rrdGetData_compile int_overflow_test connector query percentiles infoOnly = Ok l →
    avg_divisor (v_stack l) =
    Some (Itoa (Z.of_nat (length (filter (λ s, resolvable connector s = true)
                                         (gq_Series query))))).

(** A catalog with two metrics of one source. *)
Definition catalog_web1 : RRDConnector :=
  {| Path := "/var/lib/rrd"; Pattern := "(?P<source>[^/]+)/(?P<metric>.+)\.rrd";
     Daemon := "";
     metrics :=
       {[ "web1" :=
            <["cpu/value" := {| Dataset := "value"; FilePath := "/var/lib/rrd/web1/cpu.rrd" |}]>
            (<["load/shortterm" := {| Dataset := "shortterm";
                                      FilePath := "/var/lib/rrd/web1/load.rrd" |}]> ∅) ]} |}.

Definition serie_cpu : SerieQuery :=
  {| sq_Name := "cpu"; sq_Metric := Some {| mq_Name := "cpu/value"; mq_SourceName := "web1" |};
     sq_Scale := float64_zero |}.

Definition serie_load : SerieQuery :=
  {| sq_Name := "load";
     sq_Metric := Some {| mq_Name := "load/shortterm"; mq_SourceName := "web1" |};
     sq_Scale := float64_zero |}.

(** A series whose metric did not resolve: its [Metric] pointer is nil. *)
Definition serie_gone : SerieQuery :=
  {| sq_Name := "gone"; sq_Metric := None; sq_Scale := float64_zero |}.

(** An average over three configured series, two of which resolve. *)
Definition avg_of_three : GroupQuery :=
  {| gq_Name := "group"; gq_Type := OperGroupTypeAvg;
     gq_Series := [serie_cpu; serie_gone; serie_load]; gq_Scale := float64_zero |}.

Example avg_of_three_resolvable :
  filter (λ s, resolvable catalog_web1 s = true) (gq_Series avg_of_three)
  = [serie_cpu; serie_load].
Proof. vm_compute. reflexivity. Qed.

Example avg_of_three_stack :
  ∃ l, rrdGetData_compile (λ _, true) catalog_web1 avg_of_three [] false = Ok l ∧
       v_stack l = ["serie0-tmp0"; "serie0-tmp2"; "+"; "3"; "/"] ∧
       OpCDef "serie0-orig" "serie0-tmp0,serie0-tmp2,+,3,/" ∈ ops (v_graph l).
Proof.
  eexists. split; [vm_compute; reflexivity|]. split; [reflexivity|].
  simpl. set_solver.
Qed.

(** The average of [avg_of_three] is not taken over its two resolvable
    series: the compiled expression divides by 3. *)
Lemma avg_of_three_not_by_resolvable : ¬ divides_by_resolvable catalog_web1 avg_of_three.
Proof.
  intros H.
  destruct avg_of_three_stack as (l & Hl & Hs & _).
  specialize (H _ _ _ _ Hl). rewrite Hs, avg_of_three_resolvable in H.
  vm_compute in H. discriminate.
Qed.

(** C1, as the code has it: in the program compiled for an average, the
    accumulation of the contributing series is followed by a division by the
    number of all series configured in the query, resolvable or not; this is
    the expression both programs define as the combined identifier. *)
Theorem avg_divides_by_configured (int_overflow_test : float64 → bool)
    (connector : RRDConnector) (query : GroupQuery) (percentiles : list float64)
    (infoOnly : bool) (l : Locals) :
  gq_Type query = OperGroupTypeAvg →
  rrdGetData_compile int_overflow_test connector query percentiles infoOnly = Ok l →
  avg_divisor (v_stack l) = Some (Itoa (Z.of_nat (length (gq_Series query)))) ∧
  v_stack l =
    fold_left push (contributor_names "serie0" (contributors connector (gq_Series query) 0)) []
    ++ [Itoa (Z.of_nat (length (gq_Series query))); "/"] ∧
  OpCDef "serie0-orig" (Join (v_stack l) ",") ∈ ops (v_graph l) ∧
  (infoOnly = false →
   ∃ xport, v_xport l = Some xport ∧
            OpCDef "serie0-orig" (Join (v_stack l) ",") ∈ ops xport).
Proof.
  intros Ht H.
  destruct (rrdGetData_compile_aggr _ _ _ _ _ _ (or_introl Ht) H)
    as (Hs & [os Hg] & Hx & _).
  assert (v_stack l =
    fold_left push (contributor_names "serie0" (contributors connector (gq_Series query) 0)) []
    ++ [Itoa (Z.of_nat (length (gq_Series query))); "/"]) as Hstack.
  { rewrite Hs. unfold aggr_stack. by rewrite decide_True. }
  split; [|split; [done|split]].
  - rewrite Hstack. unfold avg_divisor. rewrite reverse_app. reflexivity.
  - rewrite Hg, Hs. unfold add_ops, aggr_ops. simpl. set_solver.
  - intros ->. rewrite Hx. eexists. split; [done|].
    rewrite Hs. unfold add_ops, aggr_ops. simpl. set_solver.
Qed.

Lemma avg_divides_by_configured_witness :
  ∃ l, gq_Type avg_of_three = OperGroupTypeAvg ∧
       rrdGetData_compile (λ _, true) catalog_web1 avg_of_three [] false = Ok l ∧
       avg_divisor (v_stack l) = Some "3".
Proof.
  destruct (rrdGetData_compile (λ _, true) catalog_web1 avg_of_three [] false)
    as [l| |] eqn:Hl; [|vm_compute in Hl; discriminate..].
  exists l. split; [reflexivity|]. split; [reflexivity|].
  exact (proj1 (avg_divides_by_configured (λ _, true) catalog_web1 avg_of_three [] false l
                  eq_refl Hl)).
Defined.

(** ** Running a query *)

(** The guard at the head of [rrdGetData] that rewrites the aggregation
    type. *)
Definition single_series (query : GroupQuery) : Prop :=
  gq_Type query ≠ OperGroupTypeNone ∧ length (gq_Series query) = 1%nat.

Section Queries.

Variable int_overflow_test : float64 → bool.
Variable Xport : Exporter → Z → Z → Z → XportData + string.
Variable Graph : Grapher → Z → Z → GraphInfo + string.
Variable ParseFloat : string → option float64.

Local Abbreviation run := (rrdGetData int_overflow_test Xport Graph ParseFloat).

Local Abbreviation execute :=
  (rrdGetData_execute int_overflow_test Xport Graph ParseFloat).

(** The query as it is once the guard has run. *)
Definition guarded (query : GroupQuery) : GroupQuery :=
  if decide (single_series query) then set_Type OperGroupTypeNone query else query.

Lemma rrdGetData_guarded (w : World) (startTime endTime step : Z)
    (percentiles : list float64) (infoOnly : bool) :
  gq_Series (w_query w) ≠ [] →
  run w startTime endTime step percentiles infoOnly =
  execute (set_query (guarded (w_query w)) w) startTime endTime step percentiles infoOnly.
Proof.
  intros Hne. unfold rrdGetData, guarded, single_series.
  rewrite decide_False by (by destruct (gq_Series (w_query w))).
  destruct (decide (_ ∧ _)); [done|]. by destruct w.
Qed.

Lemma rrdGetData_empty (w : World) (startTime endTime step : Z)
    (percentiles : list float64) (infoOnly : bool) :
  gq_Series (w_query w) = [] →
  run w startTime endTime step percentiles infoOnly = (w, Err "group has no series").
Proof. intros H. unfold rrdGetData. by rewrite H. Qed.

Lemma guarded_idemp (query : GroupQuery) : guarded (guarded query) = guarded query.
Proof.
  unfold guarded, single_series.
  destruct (decide (gq_Type query ≠ OperGroupTypeNone ∧ _)) as [H|H]; simpl.
  - reflexivity.
  - by rewrite decide_False.
Qed.

Lemma guarded_series (query : GroupQuery) : gq_Series (guarded query) = gq_Series query.
Proof. unfold guarded. by case_decide. Qed.

(** After the guard a run writes neither the connector nor the query. *)
Lemma rrdGetData_execute_frame (w : World) (startTime endTime step : Z)
    (percentiles : list float64) (infoOnly : bool) :
  let w' := (execute w startTime endTime step percentiles infoOnly).1 in
  w_connector w' = w_connector w ∧ w_query w' = w_query w.
Proof.
  unfold rrdGetData_execute. repeat case_match; simplify_eq; simpl; done.
Qed.

(** The outcome of a run does not depend on the buffers held. *)
Lemma rrdGetData_execute_live (w : World) (live : gset nat) (startTime endTime step : Z)
    (percentiles : list float64) (infoOnly : bool) :
  (execute (set_live live w) startTime endTime step percentiles infoOnly).2 =
  (execute w startTime endTime step percentiles infoOnly).2.
Proof.
  unfold rrdGetData_execute. simpl.
  destruct (rrdGetData_compile _ _ _ _ _) as [l| |]; [|done..].
  destruct infoOnly; simpl.
  - repeat case_match; simplify_eq; done.
  - destruct (v_xport l) as [xport|]; [|done].
    destruct (Xport xport startTime endTime step) as [tbl|]; [|done]. simpl.
    assert (fill_result (v_series l) {| table := tbl; buffer := Some (fresh live) |} ∅ =
            fill_result (v_series l) {| table := tbl; buffer := Some (fresh (w_live w)) |} ∅)
      as -> by reflexivity.
    repeat case_match; simplify_eq; done.
Qed.

(** Once an export has succeeded, its buffer is held when the run returns,
    whichever way it returns. *)
Lemma rrdGetData_keeps_buffer (w : World) (startTime endTime step : Z)
    (percentiles : list float64) (l : Locals) (xport : Exporter) (tbl : XportData) :
  gq_Series (w_query w) ≠ [] →
  rrdGetData_compile int_overflow_test (w_connector w) (guarded (w_query w))
                     percentiles false = Ok l →
  v_xport l = Some xport →
  Xport xport startTime endTime step = inl tbl →
  w_live (run w startTime endTime step percentiles false).1 =
  {[fresh (w_live w)]} ∪ w_live w.
Proof.
  intros Hne Hc Hx Hr. rewrite (rrdGetData_guarded _ _ _ _ _ _ Hne).
  unfold rrdGetData_execute. simpl. rewrite Hc, Hx, Hr.
  repeat case_match; simplify_eq; simpl; done.
Qed.

End Queries.

Section Runs.

Variable int_overflow_test : float64 → bool.
Variable Xport : Exporter → Z → Z → Z → XportData + string.
Variable Graph : Grapher → Z → Z → GraphInfo + string.
Variable ParseFloat : string → option float64.

Local Abbreviation run := (rrdGetData int_overflow_test Xport Graph ParseFloat).

Lemma guarded_empty (query : GroupQuery) : gq_Series query = [] → guarded query = query.
Proof.
  intros H. unfold guarded, single_series. rewrite H. simpl.
  rewrite decide_False; [done|]. by intros [_ ?].
Qed.

(** What a run writes: nothing in the connector, and in the query the
    aggregation type alone, when the guard fires. *)
Lemma rrdGetData_writes (w : World) (startTime endTime step : Z)
    (percentiles : list float64) (infoOnly : bool) :
  let w' := (run w startTime endTime step percentiles infoOnly).1 in
  w_connector w' = w_connector w ∧ w_query w' = guarded (w_query w).
Proof.
  destruct (decide (gq_Series (w_query w) = [])) as [He|Hne].
  - rewrite rrdGetData_empty by done. simpl. by rewrite guarded_empty.
  - rewrite rrdGetData_guarded by done.
    by destruct (rrdGetData_execute_frame int_overflow_test Xport Graph ParseFloat
                   (set_query (guarded (w_query w)) w) startTime endTime step percentiles
                   infoOnly).
Qed.

(** A run on the query a first run leaves behind returns what the first run
    returned. *)
Lemma rrdGetData_again (w : World) (startTime endTime step : Z)
    (percentiles : list float64) (infoOnly : bool) :
  (run (run w startTime endTime step percentiles infoOnly).1
       startTime endTime step percentiles infoOnly).2 =
  (run w startTime endTime step percentiles infoOnly).2.
Proof.
  destruct (decide (gq_Series (w_query w) = [])) as [He|Hne].
  - rewrite (rrdGetData_empty _ _ _ _ w) by done. simpl. by rewrite rrdGetData_empty.
  - pose proof (rrdGetData_writes w startTime endTime step percentiles infoOnly) as [Hc Hq].
    simpl in Hc, Hq.
    destruct (run w startTime endTime step percentiles infoOnly) as [w' r] eqn:E.
    simpl in *.
    rewrite rrdGetData_guarded by (by rewrite Hq, guarded_series).
    rewrite Hq, guarded_idemp.
    rewrite rrdGetData_guarded in E by done.
    replace (set_query (guarded (w_query w)) w')
      with (set_live (w_live w') (set_query (guarded (w_query w)) w))
      by (destruct w, w'; simpl in *; by subst).
    rewrite rrdGetData_execute_live. by rewrite E.
Qed.

End Runs.

(** *** The guard on the number of series *)

Definition world_of (query : GroupQuery) : World :=
  {| w_connector := catalog_web1; w_query := query; w_live := ∅ |}.

(** A sum over two configured series, one of which resolves. *)
Definition sum_of_two : GroupQuery :=
  {| gq_Name := "group"; gq_Type := OperGroupTypeSum;
     gq_Series := [serie_cpu; serie_gone]; gq_Scale := float64_zero |}.

(** A sum over a single series. *)
Definition sum_of_one : GroupQuery :=
  {| gq_Name := "group"; gq_Type := OperGroupTypeSum;
     gq_Series := [serie_cpu]; gq_Scale := float64_zero |}.

(** The statement that a run rewrites the aggregation type to [None] exactly
    when fewer than two series of the query resolve. *)
Definition collapses_iff_unresolved (w : World) : Prop :=
  ∀ int_overflow_test Xport Graph ParseFloat startTime endTime step percentiles infoOnly,
    gq_Type (w_query (rrdGetData int_overflow_test Xport Graph ParseFloat w
                                 startTime endTime step percentiles infoOnly).1)
    = OperGroupTypeNone ↔
    (length (filter (λ s, resolvable (w_connector w) s = true) (gq_Series (w_query w))) < 2)%nat.

(** With two configured series of which one resolves, the query stays a sum:
    it is compiled as an aggregate, labelled with the name of the group. *)
Example sum_of_two_compiled :
  ∃ l, rrdGetData_compile (λ _, true) catalog_web1 (guarded sum_of_two) [] false = Ok l ∧
       v_series l = {["serie0" := "group"]} ∧
       v_stack l = ["serie0-tmp0"].
Proof.
  eexists. split; [vm_compute; reflexivity|]. split; [|reflexivity].
  apply map_eq. intros k. vm_compute. reflexivity.
Qed.

Lemma sum_of_two_not_collapsed : ¬ collapses_iff_unresolved (world_of sum_of_two).
Proof.
  intros H.
  specialize (H (λ _, true) (λ _ _ _ _, inr "unavailable") (λ _ _ _, inr "unavailable")
                (λ _, None) 0 0 0 [] false).
  destruct H as [_ H].
  rewrite (proj2 (rrdGetData_writes _ _ _ _ _ _ _ _ _ _)) in H.
  assert (1 < 2)%nat as Hlt by lia. specialize (H Hlt). vm_compute in H. discriminate.
Qed.

(** C2, as the code has it: a run on a query with an aggregation and at least
    one series rewrites the aggregation type to [None] exactly when the query
    has exactly one configured series, resolvable or not; the run is then the
    run on the same query with type [None], so that labels and scales are
    those of the per-series mode.  A sum or an average over two or more
    configured series is run as it is, however few of its series resolve:
    whenever it compiles, it is compiled as an aggregate, with the
    accumulation of its contributing series as its single export column,
    labelled with the name of the group. *)
Theorem collapse_iff_one_configured
    (int_overflow_test : float64 → bool)
    (Xport : Exporter → Z → Z → Z → XportData + string)
    (Graph : Grapher → Z → Z → GraphInfo + string)
    (ParseFloat : string → option float64)
    (w : World) (startTime endTime step : Z) (percentiles : list float64)
    (infoOnly : bool) :
  gq_Type (w_query w) ≠ OperGroupTypeNone →
  gq_Series (w_query w) ≠ [] →
  (gq_Type (w_query (rrdGetData int_overflow_test Xport Graph ParseFloat w
                                startTime endTime step percentiles infoOnly).1)
   = OperGroupTypeNone ↔ length (gq_Series (w_query w)) = 1%nat) ∧
  (length (gq_Series (w_query w)) = 1%nat →
   rrdGetData int_overflow_test Xport Graph ParseFloat w
              startTime endTime step percentiles infoOnly =
   rrdGetData int_overflow_test Xport Graph ParseFloat
              (set_query (set_Type OperGroupTypeNone (w_query w)) w)
              startTime endTime step percentiles infoOnly) ∧
  ((2 ≤ length (gq_Series (w_query w)))%nat →
   gq_Type (w_query w) = OperGroupTypeAvg ∨ gq_Type (w_query w) = OperGroupTypeSum →
   rrdGetData int_overflow_test Xport Graph ParseFloat w
              startTime endTime step percentiles infoOnly =
   rrdGetData_execute int_overflow_test Xport Graph ParseFloat w
                      startTime endTime step percentiles infoOnly ∧
   ∀ l,
     rrdGetData_compile int_overflow_test (w_connector w) (w_query w) percentiles infoOnly
     = Ok l →
     v_stack l = aggr_stack (w_connector w) (w_query w) ∧
     (∃ os, v_graph l = add_ops (aggr_ops (w_connector w) (w_query w) ++ os)
                                (initial_program (w_connector w))) ∧
     v_xport l =
       (if infoOnly then None
        else Some (add_ops (aggr_ops (w_connector w) (w_query w) ++
                            [OpXportDef "serie0" "serie0"])
                           (initial_program (w_connector w)))) ∧
     v_series l = {["serie0" := gq_Name (w_query w)]}).
Proof.
  intros Ht Hne. split; [|split].
  - rewrite (proj2 (rrdGetData_writes _ _ _ _ _ _ _ _ _ _)).
    unfold guarded, single_series. case_decide as H; simpl; [tauto|].
    split; [done|]. intros Hl. destruct H. done.
  - intros Hl.
    assert (guarded (w_query w) = set_Type OperGroupTypeNone (w_query w)) as Hg.
    { unfold guarded. by rewrite decide_True. }
    rewrite (rrdGetData_guarded _ _ _ _ w) by done.
    rewrite (rrdGetData_guarded _ _ _ _ (set_query _ w)) by done.
    simpl. rewrite <- Hg, guarded_idemp. reflexivity.
  - intros Hlen Haggr. split.
    + rewrite (rrdGetData_guarded _ _ _ _ w) by done.
      assert (guarded (w_query w) = w_query w) as ->.
      { unfold guarded, single_series. rewrite decide_False; [done|]. intros [_ ?]. lia. }
      by destruct w.
    + intros l Hl. by apply (rrdGetData_compile_aggr _ _ _ _ _ _ Haggr Hl).
Qed.

Lemma collapse_iff_one_configured_witness :
  gq_Type (w_query (world_of sum_of_one)) ≠ OperGroupTypeNone ∧
  gq_Series (w_query (world_of sum_of_one)) ≠ [] ∧
  gq_Type (w_query (rrdGetData (λ _, true) (λ _ _ _ _, inr "unavailable")
                               (λ _ _ _, inr "unavailable") (λ _, None)
                               (world_of sum_of_one) 0 0 0 [] false).1)
  = OperGroupTypeNone.
Proof.
  assert (gq_Type (w_query (world_of sum_of_one)) ≠ OperGroupTypeNone) as Ht by done.
  assert (gq_Series (w_query (world_of sum_of_one)) ≠ []) as Hne by done.
  split; [exact Ht|]. split; [exact Hne|].
  apply (proj1 (collapse_iff_one_configured _ _ _ _ _ _ _ _ _ _ Ht Hne)). reflexivity.
Defined.

(** *** What a query leaves behind *)

(** The statement that a query leaves the caller's group query as it was. *)
Definition leaves_query_unchanged (w : World) : Prop :=
  ∀ int_overflow_test Xport Graph ParseFloat startTime endTime step percentiles,
    w_query (GetPlots int_overflow_test Xport Graph ParseFloat w
                      startTime endTime step percentiles).1 = w_query w.

(** A sum over one series comes back from [GetPlots] with type [None]. *)
Example sum_of_one_rewritten
    (int_overflow_test : float64 → bool)
    (Xport : Exporter → Z → Z → Z → XportData + string)
    (Graph : Grapher → Z → Z → GraphInfo + string)
    (ParseFloat : string → option float64)
    (startTime endTime step : Z) (percentiles : list float64) :
  w_query (GetPlots int_overflow_test Xport Graph ParseFloat (world_of sum_of_one)
                    startTime endTime step percentiles).1
  = set_Type OperGroupTypeNone sum_of_one.
Proof.
  unfold GetPlots. rewrite (proj2 (rrdGetData_writes _ _ _ _ _ _ _ _ _ _)). reflexivity.
Qed.

Lemma sum_of_one_not_unchanged : ¬ leaves_query_unchanged (world_of sum_of_one).
Proof.
  intros H.
  specialize (H (λ _, true) (λ _ _ _ _, inr "unavailable") (λ _ _ _, inr "unavailable")
                (λ _, None) 0 0 0 []).
  rewrite sum_of_one_rewritten in H. discriminate.
Qed.

(** C3, as the code has it: a query leaves the connector as it was, and
    writes at most one field of the caller's group query: the aggregation
    type, set to [None] when the query has exactly one series and another
    type.  Name, series and scale are never written.  A second query with the
    value left behind returns what the first one returned and writes nothing
    more. *)
Theorem GetPlots_writes_type_only
    (int_overflow_test : float64 → bool)
    (Xport : Exporter → Z → Z → Z → XportData + string)
    (Graph : Grapher → Z → Z → GraphInfo + string)
    (ParseFloat : string → option float64)
    (w : World) (startTime endTime step : Z) (percentiles : list float64) :
  let get := GetPlots int_overflow_test Xport Graph ParseFloat in
  let w' := (get w startTime endTime step percentiles).1 in
  w_connector w' = w_connector w ∧
  w_query w' = (if decide (gq_Type (w_query w) ≠ OperGroupTypeNone ∧
                           length (gq_Series (w_query w)) = 1%nat)
                then set_Type OperGroupTypeNone (w_query w) else w_query w) ∧
  gq_Name (w_query w') = gq_Name (w_query w) ∧
  gq_Series (w_query w') = gq_Series (w_query w) ∧
  gq_Scale (w_query w') = gq_Scale (w_query w) ∧
  (get w' startTime endTime step percentiles).2 = (get w startTime endTime step percentiles).2 ∧
  w_query (get w' startTime endTime step percentiles).1 = w_query w'.
Proof.
  intros get w'. subst get w'. unfold GetPlots.
  pose proof (rrdGetData_writes int_overflow_test Xport Graph ParseFloat
                w startTime endTime step percentiles false) as [Hc Hq].
  simpl in Hc, Hq.
  split; [exact Hc|]. split; [exact Hq|].
  rewrite Hq.
  split; [unfold guarded; by case_decide|].
  split; [unfold guarded; by case_decide|].
  split; [unfold guarded; by case_decide|].
  split; [apply rrdGetData_again|].
  rewrite (proj2 (rrdGetData_writes _ _ _ _ _ _ _ _ _ _)), Hq. apply guarded_idemp.
Qed.

(** *** The buffer of an export *)

(** An engine that answers every export with one column of one sample and
    every graph-info run with one statistic line, and one whose graph-info
    run fails. *)
Definition Xport_one (_ : Exporter) (_ _ _ : Z) : XportData + string :=
  inl {| Legends := ["serie0"]; RowCnt := 1; values := [Fin false 3 2] |}.

Definition Graph_one (_ : Grapher) (_ _ : Z) : GraphInfo + string :=
  inl {| InfoPrint := ["cpu,min,1.5"] |}.

Definition Graph_failing (_ : Grapher) (_ _ : Z) : GraphInfo + string :=
  inr "rrd: graph failed".

(** A stand-in for [strconv.ParseFloat] on the few strings used below. *)
Definition ParseFloat_sample (s : string) : option float64 :=
  if decide (s = "1.5") then Some (Fin false 3 2)
  else if decide (s = "nan") then Some NaN
  else None.

(** A query for one resolvable series, without aggregation. *)
Definition one_series : GroupQuery :=
  {| gq_Name := "group"; gq_Type := OperGroupTypeNone;
     gq_Series := [serie_cpu]; gq_Scale := float64_zero |}.

Lemma one_series_compiles :
  ∃ l xport,
    rrdGetData_compile (λ _, true) (w_connector (world_of one_series))
                       (guarded (w_query (world_of one_series))) [] false = Ok l ∧
    v_xport l = Some xport.
Proof. eexists _, _. split; [vm_compute; reflexivity|reflexivity]. Qed.

(** C6: the buffer of a successful export is still held when [GetPlots]
    returns.  On the query [one_series], with no buffer held before: when the
    graph-info run succeeds the query returns a result and the buffer is
    held, [FreeValues] having been applied to the empty value declared before
    the export rather than to the export's result; when the graph-info run
    fails the query returns the error and the buffer is held. *)
Theorem GetPlots_keeps_export_buffer :
  let ok := GetPlots (λ _, true) Xport_one Graph_one ParseFloat_sample
                     (world_of one_series) 0 3600 60 [] in
  let failed := GetPlots (λ _, true) Xport_one Graph_failing ParseFloat_sample
                         (world_of one_series) 0 3600 60 [] in
  w_live (world_of one_series) = ∅ ∧
  (∃ result, ok.2 = Ok result) ∧ w_live ok.1 = {[fresh (∅ : gset nat)]} ∧
  failed.2 = Err "rrd: graph failed" ∧ w_live failed.1 = {[fresh (∅ : gset nat)]}.
Proof.
  destruct one_series_compiles as (l & xport & Hl & Hx).
  assert (gq_Series (w_query (world_of one_series)) ≠ []) as Hne by done.
  simpl. unfold GetPlots. split; [done|].
  rewrite !(rrdGetData_keeps_buffer _ _ _ _ _ _ _ _ _ _ _ _ Hne Hl Hx eq_refl).
  simpl. rewrite (right_id_L ∅ (∪)).
  split; [|split; [done|split; [|done]]].
  - eexists. vm_compute. reflexivity.
  - vm_compute. reflexivity.
Qed.

(** The lines [cpu,min,1.5], [cpu,avg,-nan], [cpu,max,1.5]: the engine
    prints an unknown average as [-nan], which [strconv.ParseFloat] rejects,
    and the merger stores not-a-number for it. *)
Lemma rrdParseInfo_unparsable_value_witness :
  ∃ d0,
    (count_byte comma "cpu" = 0%nat ∧ count_byte comma "avg" = 0%nat ∧
     ParseFloat_sample "-nan" = None ∧
     rrdParseInfo ParseFloat_sample {| InfoPrint := ["cpu,min,1.5"] ++ ["cpu,max,1.5"] |} ∅
     = Ok d0) ∧
    ∃ d1,
      rrdParseInfo ParseFloat_sample
        {| InfoPrint := ["cpu,min,1.5"] ++ ("cpu" +:+ "," +:+ "avg" +:+ "," +:+ "-nan")
                        :: ["cpu,max,1.5"] |} ∅ = Ok d1 ∧
      (∀ l, samples d1 l = samples d0 l ∧ samples d1 l = samples ∅ l) ∧
      (∀ l k, ¬ (l = "cpu" ∧ k = "avg") → stat d1 l k = stat d0 l k) ∧
      (Forall (λ line, ∀ v, SplitN line comma 3 ≠ ["cpu"; "avg"; v]) ["cpu,max,1.5"] →
       stat d1 "cpu" "avg" = Some NaN).
Proof.
  destruct (rrdParseInfo ParseFloat_sample
              {| InfoPrint := ["cpu,min,1.5"] ++ ["cpu,max,1.5"] |} ∅) as [d0| |] eqn:E;
    [|vm_compute in E; discriminate..].
  exists d0. split; [repeat split; reflexivity|].
  apply (rrdParseInfo_unparsable_value ParseFloat_sample
           ["cpu,min,1.5"] ["cpu,max,1.5"] "cpu" "avg" "-nan" ∅ d0);
    [reflexivity..|exact E].
Defined.

(** On those lines the statistics [min] and [max] are stored as parsed and
    [avg] is not-a-number. *)
Example rrdParseInfo_nan_average :
  ∃ d, rrdParseInfo ParseFloat_sample
         {| InfoPrint := ["cpu,min,1.5"; "cpu,avg,-nan"; "cpu,max,1.5"] |} ∅ = Ok d ∧
       stat d "cpu" "min" = Some (Fin false 3 2) ∧
       stat d "cpu" "avg" = Some NaN ∧
       stat d "cpu" "max" = Some (Fin false 3 2).
Proof. eexists. split; [vm_compute; reflexivity|]. repeat split; vm_compute; reflexivity. Qed.

(** ** Discovery and the catalog *)

(** The catalog entry of a source and a metric. *)
Definition entry (catalog : gmap string (gmap string rrdMetric)) (source metric : string)
    : option rrdMetric :=
  catalog !! source ≫= (λ src, src !! metric).

Definition catalog_of (st : Discovery) : gmap string (gmap string rrdMetric) :=
  metrics (d_connector st).

Lemma entry_new_source (catalog : gmap string (gmap string rrdMetric))
    (source0 source metric : string) :
  catalog !! source0 = None →
  entry (<[source0 := ∅]> catalog) source metric = entry catalog source metric.
Proof.
  intros H. unfold entry. destruct (decide (source = source0)) as [->|Hne].
  - rewrite lookup_insert_eq, H. simpl. apply lookup_empty.
  - by rewrite lookup_insert_ne.
Qed.

Lemma entry_add (catalog : gmap string (gmap string rrdMetric))
    (source0 metric0 source metric : string) (d : rrdMetric) :
  is_Some (catalog !! source0) →
  entry (alter (λ src, <[metric0 := d]> src) source0 catalog) source metric =
  if decide (source = source0 ∧ metric = metric0) then Some d
  else entry catalog source metric.
Proof.
  intros [src Hsrc]. unfold entry. destruct (decide (source = source0)) as [->|Hne].
  - rewrite lookup_alter_eq, Hsrc. simpl.
    destruct (decide (metric = metric0)) as [->|Hm].
    + rewrite decide_True by done. apply lookup_insert_eq.
    + rewrite decide_False by tauto. by apply lookup_insert_ne.
  - rewrite decide_False by tauto. by rewrite lookup_alter_ne.
Qed.

(** [grows st st' news]: from [st] to [st'] the pairs [news] were sent on the
    output channel, each of them has a catalog entry in [st'], and every other
    entry of the catalog is as it was in [st]. *)
Definition grows (st st' : Discovery) (news : list (string * string)) : Prop :=
  sent (d_output st') = sent (d_output st) ++ news ∧
  (∀ source metric, (source, metric) ∉ news →
     entry (catalog_of st') source metric = entry (catalog_of st) source metric) ∧
  (∀ source metric, (source, metric) ∈ news →
     is_Some (entry (catalog_of st') source metric)) ∧
  (∀ source, is_Some (catalog_of st !! source) → is_Some (catalog_of st' !! source)) ∧
  Path (d_connector st') = Path (d_connector st) ∧
  Pattern (d_connector st') = Pattern (d_connector st) ∧
  Daemon (d_connector st') = Daemon (d_connector st).

Lemma grows_refl (st : Discovery) : grows st st [].
Proof.
  unfold grows. rewrite app_nil_r. repeat split; try done.
  intros ? ? H. by apply not_elem_of_nil in H.
Qed.

Lemma grows_trans (st1 st2 st3 : Discovery) (n1 n2 : list (string * string)) :
  grows st1 st2 n1 → grows st2 st3 n2 → grows st1 st3 (n1 ++ n2).
Proof.
  intros (Hs1 & Ho1 & Hn1 & Hd1 & Hp1 & Hr1 & Hm1) (Hs2 & Ho2 & Hn2 & Hd2 & Hp2 & Hr2 & Hm2).
  unfold grows. rewrite Hs2, Hs1, (assoc_L (++)).
  split; [done|]. split; [|split; [|split; [|by rewrite Hp2, Hr2, Hm2]]].
  - intros s m Hnot. rewrite not_elem_of_app in Hnot. destruct Hnot as [H1 H2].
    by rewrite Ho2, Ho1.
  - intros s m Hin. destruct (decide ((s, m) ∈ n2)) as [H2|H2]; [by apply Hn2|].
    rewrite Ho2 by done. apply Hn1. apply elem_of_app in Hin. tauto.
  - intros s Hs. by apply Hd2, Hd1.
Qed.

(** Steps that leave the catalog and what was sent as they are. *)
Lemma grows_same (st st' : Discovery) :
  d_connector st' = d_connector st → sent (d_output st') = sent (d_output st) →
  grows st st' [].
Proof.
  intros Hc Hs. unfold grows, catalog_of. rewrite Hc, Hs, app_nil_r.
  repeat split; try done. intros ? ? H. by apply not_elem_of_nil in H.
Qed.

Lemma send_err_grows (msg : string) (st : Discovery) : grows st (send_err msg st).1 [].
Proof.
  unfold send_err. destruct (chan_send msg (d_errChan st)); simpl; by apply grows_same.
Qed.

Lemma foldS_grows {A : Type} (f : Discovery → A → Discovery * Outcome ()) (P : Discovery → Prop) :
  (∀ st x, P st → ∃ news, grows st (f st x).1 news ∧ P (f st x).1) →
  ∀ (l : list A) (st : Discovery),
    P st → ∃ news, grows st (foldS f l st).1 news ∧ P (foldS f l st).1.
Proof.
  intros Hf. induction l as [|x l IH]; intros st HP; simpl.
  - exists []. split; [apply grows_refl|done].
  - destruct (Hf st x HP) as (n1 & Hg1 & HP1).
    destruct (f st x) as [st1 [[]| |]]; simpl in *; [|by eauto..].
    destruct (IH st1 HP1) as (n2 & Hg2 & HP2).
    exists (n1 ++ n2). split; [by eapply grows_trans|done].
Qed.

Section Refresh.

Variable Compile : string → option Regexp.
Variable rrd_Info : string → string + option (list string).
Variable WalkDir_visits : string → list FileVisit.

Lemma add_dataset_grows (filePath sourceName metricName : string) (st : Discovery)
    (dsName : string) :
  is_Some (catalog_of st !! sourceName) →
  ∃ news, grows st (add_dataset filePath sourceName metricName st dsName).1 news ∧
          is_Some (catalog_of (add_dataset filePath sourceName metricName st dsName).1
                   !! sourceName).
Proof.
  intros Hsrc. unfold add_dataset, chan_send.
  destruct (closed (d_output st)); simpl.
  { exists []. split; [apply grows_refl|done]. }
  exists [(sourceName, metricName +:+ "/" +:+ dsName)].
  unfold grows, catalog_of. simpl. split.
  - split; [done|]. split; [|split; [|split; [|done]]].
    + intros s m Hnot. rewrite (entry_add _ _ _ _ _ _ Hsrc).
      rewrite decide_False; [done|]. intros [-> ->]. apply Hnot. by apply list_elem_of_singleton.
    + intros s m Hin. apply list_elem_of_singleton in Hin. injection Hin as -> ->.
      rewrite (entry_add _ _ _ _ _ _ Hsrc). by rewrite decide_True.
    + intros s [src Hs]. destruct (decide (s = sourceName)) as [->|Hne].
      * rewrite lookup_alter_eq. unfold catalog_of in Hsrc. by destruct Hsrc as [? ->].
      * rewrite lookup_alter_ne by done. eauto.
  - rewrite lookup_alter_eq. unfold catalog_of in Hsrc. by destruct Hsrc as [? ->].
Qed.

Lemma walkFunc_grows (re : Regexp) (st : Discovery) (v : FileVisit) :
  ∃ news, grows st (walkFunc rrd_Info re st v).1 news.
Proof.
  unfold walkFunc.
  destruct (fv_err v); [exists []; apply grows_refl|].
  destruct (fv_special v); [exists []; apply grows_refl|].
  destruct (slice_from _ _) as [rel|]; [|exists []; apply grows_refl].
  case_decide; [exists []; apply grows_refl|].
  match goal with
  | |- context [match ?c with Ok _ => _ | Err _ => _ | Panic _ => _ end] =>
      destruct c as [[sourceName metricName]| |]
  end; [|exists []; apply grows_refl..].
  set (st1 := match catalog_of st !! sourceName with
              | None => set_metrics (<[sourceName := ∅]> (catalog_of st)) st
              | Some _ => st
              end).
  assert (grows st st1 [] ∧ is_Some (catalog_of st1 !! sourceName)) as [Hg1 Hs1].
  { subst st1. destruct (catalog_of st !! sourceName) as [src|] eqn:E.
    - split; [apply grows_refl|by rewrite E].
    - split; [|unfold catalog_of; simpl; by rewrite lookup_insert_eq].
      unfold grows, catalog_of. simpl. rewrite app_nil_r.
      split; [done|]. split; [|split; [|split; [|done]]].
      + intros s m _. by apply entry_new_source.
      + intros ? ? Hin. by apply not_elem_of_nil in Hin.
      + intros s [src Hs]. destruct (decide (s = sourceName)) as [->|Hne].
        * by rewrite lookup_insert_eq.
        * rewrite lookup_insert_ne by done. eauto. }
  change (match metrics (d_connector st) !! sourceName with
          | None => set_metrics (<[sourceName := ∅]> (metrics (d_connector st))) st
          | Some _ => st
          end) with st1.
  destruct (rrd_Info (fv_path v)) as [err|[dsNames|]]; [by eauto| |by eauto].
  destruct (foldS_grows (add_dataset (fv_path v) sourceName metricName)
              (λ st, is_Some (catalog_of st !! sourceName))
              (λ st x, add_dataset_grows _ _ _ st x) dsNames st1 Hs1) as (n2 & Hg2 & _).
  exists ([] ++ n2). by eapply grows_trans.
Qed.

Lemma walk_grows (re : Regexp) (visits : list FileVisit) (st : Discovery) :
  ∃ news, grows st (foldS (walkFunc rrd_Info re) visits st).1 news.
Proof.
  destruct (foldS_grows (walkFunc rrd_Info re) (λ _, True)
              (λ st x _, let '(ex_intro _ n H) := walkFunc_grows re st x in
                         ex_intro _ n (conj H I)) visits st I) as (n & H & _).
  eauto.
Qed.

Lemma Refresh_body_grows (st : Discovery) :
  ∃ news, grows st (Refresh_body Compile rrd_Info WalkDir_visits st).1 news.
Proof.
  unfold Refresh_body.
  destruct (Compile _) as [re|]; [|exists []; apply grows_refl].
  destruct (check_groups _ _) as [key|groups]; [exists []; apply send_err_grows|].
  case_decide; [exists []; apply send_err_grows|].
  case_decide; [exists []; apply send_err_grows|].
  destruct (walk_grows re (WalkDir_visits (Path (d_connector st))) st) as [n Hn].
  destruct (foldS _ _ st) as [st1 [[]| |]]; simpl in *; [by eauto| |by eauto].
  exists (n ++ []). eapply grows_trans; [done|apply send_err_grows].
Qed.

(** C4, as the code has it: a refresh updates the catalog in place.  The
    pairs sent on the output channel during the run all have an entry in the
    catalog afterwards, and every other entry of the catalog, in particular
    every entry of an earlier run that this run did not find again, is what it
    was before the run. *)
Theorem Refresh_merges (st : Discovery) :
  let st' := (Refresh Compile rrd_Info WalkDir_visits st).1 in
  ∃ news,
    sent (d_output st') = sent (d_output st) ++ news ∧
    (∀ source metric, (source, metric) ∈ news →
       is_Some (entry (metrics (d_connector st')) source metric)) ∧
    (∀ source metric, (source, metric) ∉ news →
       entry (metrics (d_connector st')) source metric =
       entry (metrics (d_connector st)) source metric).
Proof.
  unfold Refresh.
  destruct (Refresh_body_grows st) as [n (Hs & Ho & Hi & _)].
  destruct (Refresh_body Compile rrd_Info WalkDir_visits st) as [st1 r].
  simpl in Hs, Ho, Hi. exists n. unfold chan_close, catalog_of in *.
  destruct (closed (d_errChan st1)); simpl;
    destruct (closed (d_output st1)); simpl; done.
Qed.

End Refresh.

(** *** Two refreshes of a changing archive tree *)

(** The pattern [(?P<source>[^/]+)/(?P<metric>.+)\.rrd] by its capture group
    names and its matches on the two relative paths used below. *)
Definition re_source_metric : Regexp :=
  {| SubexpNames := [""; "source"; "metric"];
     FindStringSubmatch := λ rel,
       if decide (rel = "web1/cpu.rrd") then ["web1/cpu.rrd"; "web1"; "cpu"]
       else if decide (rel = "web1/load.rrd") then ["web1/load.rrd"; "web1"; "load"]
       else [] |}.

Definition Compile_source_metric (_ : string) : option Regexp := Some re_source_metric.

(** The dataset names of the two archives. *)
Definition Info_web1 (filePath : string) : string + option (list string) :=
  if decide (filePath = "/var/lib/rrd/web1/cpu.rrd") then inr (Some ["value"])
  else if decide (filePath = "/var/lib/rrd/web1/load.rrd") then inr (Some ["shortterm"])
  else inl "opening file: No such file or directory".

Definition visit_dir (path : string) : FileVisit :=
  {| fv_path := path; fv_special := true; fv_err := None |}.

Definition visit_file (path : string) : FileVisit :=
  {| fv_path := path; fv_special := false; fv_err := None |}.

(** The tree at the first refresh holds [web1/cpu.rrd]; at the second,
    [cpu.rrd] is gone and [web1/load.rrd] has appeared. *)
Definition tree_before (_ : string) : list FileVisit :=
  [visit_dir "/var/lib/rrd"; visit_dir "/var/lib/rrd/web1";
   visit_file "/var/lib/rrd/web1/cpu.rrd"].

Definition tree_after (_ : string) : list FileVisit :=
  [visit_dir "/var/lib/rrd"; visit_dir "/var/lib/rrd/web1";
   visit_file "/var/lib/rrd/web1/load.rrd"].

Definition open_chan {A : Type} : Chan A := {| closed := false; sent := [] |}.

(** A connector fresh from the factory, and the caller handing it new
    channels before a refresh. *)
Definition connector_new : RRDConnector :=
  {| Path := "/var/lib/rrd"; Pattern := "(?P<source>[^/]+)/(?P<metric>.+)\.rrd";
     Daemon := ""; metrics := ∅ |}.

Definition with_new_channels (connector : RRDConnector) : Discovery :=
  {| d_connector := connector; d_output := open_chan; d_errChan := open_chan |}.

Definition first_refresh : Discovery :=
  (Refresh Compile_source_metric Info_web1 tree_before (with_new_channels connector_new)).1.

Definition second_refresh : Discovery :=
  (Refresh Compile_source_metric Info_web1 tree_after
           (with_new_channels (d_connector first_refresh))).1.

(** The statement that after a refresh the catalog holds exactly the pairs
    the run has sent. *)
Definition catalog_is_discovered (st' : Discovery) : Prop :=
  ∀ source metric,
    is_Some (entry (catalog_of st') source metric) ↔ (source, metric) ∈ sent (d_output st').

Example second_refresh_sent :
  sent (d_output second_refresh) = [("web1", "load/shortterm")] ∧
  closed (d_output second_refresh) = true ∧
  sent (d_errChan second_refresh) = [].
Proof. vm_compute. done. Qed.

Example second_refresh_keeps_cpu :
  entry (catalog_of second_refresh) "web1" "cpu/value" =
  Some {| Dataset := "value"; FilePath := "/var/lib/rrd/web1/cpu.rrd" |} ∧
  entry (catalog_of second_refresh) "web1" "load/shortterm" =
  Some {| Dataset := "shortterm"; FilePath := "/var/lib/rrd/web1/load.rrd" |}.
Proof. vm_compute. done. Qed.

(** After the second refresh the catalog still holds the entry of the
    archive that is gone, which the run did not discover. *)
Lemma second_refresh_not_replaced : ¬ catalog_is_discovered second_refresh.
Proof.
  intros H. specialize (H "web1" "cpu/value").
  rewrite (proj1 second_refresh_keeps_cpu), (proj1 second_refresh_sent) in H.
  destruct H as [H _]. specialize (H (mk_is_Some _ _ eq_refl)).
  apply list_elem_of_singleton in H. discriminate.
Qed.

(** ** Evaluating the program of an aggregated query *)

(** *** Names and expressions as text *)

Definition is_digit (c : Ascii.ascii) : bool :=
  bool_decide (c ∈ map pretty_N_char [0; 1; 2; 3; 4; 5; 6; 7; 8; 9]%N).

Fixpoint all_digits (s : string) : bool :=
  match s with
  | EmptyString => true
  | String c r => is_digit c && all_digits r
  end.

Lemma all_digits_app (a b : string) : all_digits (a +:+ b) = all_digits a && all_digits b.
Proof. induction a as [|c r IH]; simpl; [done|]. by rewrite IH, andb_assoc. Qed.

Lemma pretty_N_char_digit (x : N) : is_digit (pretty_N_char x) = true.
Proof. destruct x as [|p]; [done|]. by do 4 (destruct p as [p|p|]; try done). Qed.

Lemma pretty_N_go_digits (x : N) (s : string) :
  all_digits s = true → all_digits (pretty_N_go x s) = true.
Proof.
  revert s. induction (N.lt_wf_0 x) as [x _ IH]; intros s Hs.
  destruct (decide (x = 0%N)) as [->|Hx]; [by rewrite pretty_N_go_0|].
  rewrite pretty_N_go_step by lia. apply IH.
  - apply N.div_lt; lia.
  - simpl. by rewrite pretty_N_char_digit, Hs.
Qed.

Lemma Itoa_digits (n : nat) : all_digits (Itoa (Z.of_nat n)) = true.
Proof.
  unfold Itoa, pretty, pretty_Z. destruct (Z.of_nat n) as [|p|p] eqn:E; [done| |lia].
  unfold pretty, pretty_positive, pretty, pretty_N. simpl.
  by apply pretty_N_go_digits.
Qed.











Lemma append_assoc (a b c : string) : (a +:+ b) +:+ c = a +:+ b +:+ c.
Proof.
  induction a as [|x r IH]; [done|].
  change (String x ((r +:+ b) +:+ c) = String x (r +:+ b +:+ c)). by rewrite IH.
Qed.


(** The contributing series are listed by increasing position. *)
Lemma contributors_from (connector : RRDConnector) (series : list SerieQuery) :
  ∀ index, Forall (λ c, (index ≤ c.1)%nat) (contributors connector series index).
Proof.
  induction series as [|serie rest IH]; intros index; simpl; [done|].
  apply Forall_app. split.
  - destruct (sq_Metric serie) as [metric|]; [|done].
    destruct (lookup_metric connector metric); repeat constructor.
  - eapply Forall_impl; [apply IH|]. simpl. intros; lia.
Qed.

Lemma contributors_NoDup (connector : RRDConnector) (series : list SerieQuery) :
  ∀ index, NoDup (contributors connector series index).*1.
Proof.
  induction series as [|serie rest IH]; intros index; simpl; [constructor|].
  rewrite fmap_app. apply NoDup_app. split; [|split; [|apply IH]].
  - destruct (sq_Metric serie) as [metric|]; [|constructor].
    destruct (lookup_metric connector metric); simpl; repeat constructor; set_solver.
  - intros i Hi Hin. apply list_elem_of_fmap in Hin as (c & -> & Hc).
    pose proof (contributors_from connector rest (S index)) as Hfrom.
    rewrite Forall_forall in Hfrom. specialize (Hfrom c Hc).
    destruct (sq_Metric serie) as [metric|]; [|by apply elem_of_nil in Hi].
    destruct (lookup_metric connector metric); simpl in Hi;
      [|by apply elem_of_nil in Hi..].
    apply list_elem_of_singleton in Hi. lia.
Qed.

Lemma initial_program_ops (connector : RRDConnector) : ops (initial_program connector) = [].
Proof. unfold initial_program. by case_decide. Qed.








Section Evaluation.

Variable num : Type.
Variables add mul div : num → num → num.
Variables zero one : num.
Variable is_zero : num → bool.
Variable lit : string → option num.
Variable sample : string → string → option num.

(** What the evaluator is assumed to know of numbers: [0] reads as zero, a
    word that starts with the letter [s] is not a number, and of the two
    truth values produced by [UN] one is zero and the other is not. *)
Hypothesis lit_zero : lit "0" = Some zero.
Hypothesis lit_word : ∀ r, lit (String "s"%char r) = None.
Hypothesis zero_is_zero : is_zero zero = true.
Hypothesis one_not_zero : is_zero one = false.

Local Abbreviation step := (Engine.step num add mul div zero one is_zero lit).
Local Abbreviation steps := (Engine.steps num add mul div zero one is_zero lit).
Local Abbreviation eval := (Engine.eval num add mul div zero one is_zero lit).
Local Abbreviation execs := (Engine.execs num add mul div zero one is_zero lit sample).


















Lemma steps_app (env : gmap string (option num)) (t1 t2 : list string)
    (stack : list (option num)) :
  steps env (t1 ++ t2) stack = steps env t1 stack ≫= steps env t2.
Proof.
  revert stack. induction t1 as [|t t1 IH]; intros stack; simpl; [done|].
  destruct (Engine.step _ _ _ _ _ _ _ _ env stack t); simpl; [apply IH|done].
Qed.








End Evaluation.

(** *** A sum with one unknown sample *)

(** A sum over three configured series, two of which resolve. *)
Definition sum_of_three : GroupQuery :=
  {| gq_Name := "group"; gq_Type := OperGroupTypeSum;
     gq_Series := [serie_cpu; serie_gone; serie_load]; gq_Scale := float64_zero |}.

(** Integer samples: at the row considered the dataset [value] of
    [cpu.rrd] is unknown and every other dataset reads 7. *)
Definition lit_zero_only (s : string) : option Z :=
  if decide (s = "0") then Some 0 else None.

Definition sample_cpu_unknown (_ dsname : string) : option Z :=
  if decide (dsname = "value") then None else Some 7.

(** On that query the exported sample is 7: neither unknown nor zero. *)
Example sum_of_three_row :
  ∃ l xport,
    rrdGetData_compile (λ _, true) catalog_web1 (guarded sum_of_three) [] false = Ok l ∧
    v_xport l = Some xport ∧
    Engine.run_row Z Z.add Z.mul Z.div 0 1 (Z.eqb 0) lit_zero_only sample_cpu_unknown xport
    = Some [("serie0", Some 7)].
Proof. eexists _, _. split; [vm_compute; reflexivity|]. split; vm_compute; reflexivity. Qed.

(* ===================================================================== *)
(** * Further properties of the connector                                 *)
(* ===================================================================== *)

(** ** The factory, case by case *)

(** The factory builds a connector exactly when the three settings are
    bound to strings; the connector then carries them and an empty
    catalog. *)
Theorem Connectors_rrd_succeeds_iff (config : gmap string Value) (c : RRDConnector) :
  Connectors_rrd config = Ok c ↔
  ∃ p re d,
    config !! "path" = Some (VString p) ∧
    config !! "pattern" = Some (VString re) ∧
    config !! "daemon" = Some (VString d) ∧
    c = {| Path := p; Pattern := re; Daemon := d; metrics := ∅ |}.
Proof.
  split.
  - unfold Connectors_rrd.
    destruct (config !! "path") as [[p| | |]|]; simpl; try discriminate;
      destruct (config !! "pattern") as [[re| | |]|]; simpl; try discriminate;
      destruct (config !! "daemon") as [[d| | |]|]; simpl; try discriminate.
    intros H. injection H as <-. by exists p, re, d.
  - intros (p & re & d & Hp & Hr & Hd & ->). by apply Connectors_rrd_ok.
Qed.

(** A mandatory setting that is absent is reported before any setting of
    the wrong type, [path] before [pattern]; among settings of the wrong
    type the order is [path], [pattern], [daemon]. *)
Theorem Connectors_rrd_first_error (config : gmap string Value) :
  (config !! "path" = None →
   Connectors_rrd config = Err "missing `path' mandatory connector setting") ∧
  (is_Some (config !! "path") → config !! "pattern" = None →
   Connectors_rrd config = Err "missing `pattern' mandatory connector setting") ∧
  (is_Some (config !! "pattern") → (assert_string (config !! "path")).2 = false →
   is_Some (config !! "path") →
   Connectors_rrd config = Err "connector setting `path' should be a string") ∧
  ((assert_string (config !! "path")).2 = true →
   is_Some (config !! "pattern") → (assert_string (config !! "pattern")).2 = false →
   Connectors_rrd config = Err "connector setting `pattern' should be a string") ∧
  ((assert_string (config !! "path")).2 = true →
   (assert_string (config !! "pattern")).2 = true →
   (assert_string (config !! "daemon")).2 = false →
   Connectors_rrd config = Err "connector setting `daemon' should be a string").
Proof.
  unfold Connectors_rrd.
  destruct (config !! "path") as [[p| | |]|]; simpl;
    destruct (config !! "pattern") as [[re| | |]|]; simpl;
    destruct (config !! "daemon") as [[d| | |]|]; simpl;
    repeat split; intros; try done;
    repeat match goal with
           | H : is_Some None |- _ => destruct H as [? H]; discriminate
           end.
Qed.

(** ** Discovery, step by step *)

(** The capture group names a pattern must have: nothing but [source] and
    [metric] (and unnamed groups), and both of them. *)
Definition keyword_ok (key : string) : Prop := key = "" ∨ key = "source" ∨ key = "metric".

Definition pattern_keywords_ok (re : Regexp) : Prop :=
  Forall keyword_ok (SubexpNames re) ∧
  "source" ∈ SubexpNames re ∧ "metric" ∈ SubexpNames re.

Lemma check_groups_spec (names : list string) :
  ∀ groups : gset string,
    match check_groups names groups with
    | inl key => ¬ Forall keyword_ok names
    | inr groups' =>
        Forall keyword_ok names ∧
        ∀ key, key ∈ groups' ↔
               key ∈ groups ∨ (key ∈ names ∧ (key = "source" ∨ key = "metric"))
    end.
Proof.
  induction names as [|key names IH]; intros groups; simpl.
  - split; [constructor|]. intros key. split; [tauto|].
    intros [H|[H _]]; [done|by apply elem_of_nil in H].
  - destruct (decide (key = "")) as [->|Hne].
    { specialize (IH groups). destruct (check_groups names groups) as [bad|groups'].
      - intros Hall. inversion Hall; subst. tauto.
      - destruct IH as [Hall Hg]. split; [constructor; [by left|done]|].
        intros k. rewrite Hg, elem_of_cons. split; [tauto|].
        intros [H|[[->|H] Hk]]; [tauto| |tauto]. by destruct Hk. }
    destruct (decide (key = "source" ∨ key = "metric")) as [Hk|Hk].
    + specialize (IH ({[key]} ∪ groups)).
      destruct (check_groups names ({[key]} ∪ groups)) as [bad|groups'].
      * intros Hall. inversion Hall; subst. tauto.
      * destruct IH as [Hall Hg]. split; [constructor; [right; tauto|done]|].
        intros k. rewrite Hg, elem_of_cons, elem_of_union, elem_of_singleton.
        split; [|tauto]. intros [[->|H]|H]; tauto.
    + intros Hall. inversion Hall as [|? ? Hkey _]; subst.
      unfold keyword_ok in Hkey. tauto.
Qed.

Lemma foldS_app {A St : Type} (f : St → A → St * Outcome ()) (l1 l2 : list A) (s : St) :
  foldS f (l1 ++ l2) s =
  match foldS f l1 s with
  | (s1, Ok _) => foldS f l2 s1
  | other => other
  end.
Proof.
  revert s. induction l1 as [|x l1 IH]; intros s; simpl; [done|].
  destruct (f s x) as [s1 [[]| |]]; [apply IH|done..].
Qed.

(** A relation that every step of a loop maintains holds across the loop. *)
Lemma foldS_invariant {A St : Type} (f : St → A → St * Outcome ()) (R : St → St → Prop) :
  (∀ s, R s s) → (∀ a b c, R a b → R b c → R a c) → (∀ s x, R s (f s x).1) →
  ∀ (l : list A) (s : St), R s (foldS f l s).1.
Proof.
  intros Hrefl Htrans Hstep. induction l as [|x l IH]; intros s; simpl; [done|].
  pose proof (Hstep s x) as H1.
  destruct (f s x) as [s1 [[]| |]]; simpl in *; [|done..].
  by eapply Htrans.
Qed.

(** What the walk never touches: the error channel, and whether the output
    channel is open. *)
Definition same_channels (st st' : Discovery) : Prop :=
  d_errChan st' = d_errChan st ∧ closed (d_output st') = closed (d_output st).

Lemma same_channels_refl (st : Discovery) : same_channels st st.
Proof. done. Qed.

Lemma same_channels_trans (a b c : Discovery) :
  same_channels a b → same_channels b c → same_channels a c.
Proof. intros [H1 H2] [H3 H4]. split; congruence. Qed.

Section RefreshSteps.

Variable Compile : string → option Regexp.
Variable rrd_Info : string → string + option (list string).
Variable WalkDir_visits : string → list FileVisit.

Lemma add_dataset_channels (filePath sourceName metricName : string) (st : Discovery)
    (dsName : string) :
  same_channels st (add_dataset filePath sourceName metricName st dsName).1.
Proof.
  unfold add_dataset, chan_send. destruct (closed (d_output st)) eqn:E; simpl; [done|].
  split; simpl; [done|by rewrite E].
Qed.

Lemma walkFunc_channels (re : Regexp) (st : Discovery) (v : FileVisit) :
  same_channels st (walkFunc rrd_Info re st v).1.
Proof.
  unfold walkFunc. repeat case_match; simpl; try done;
    try (eapply same_channels_trans;
         [|apply (foldS_invariant _ same_channels same_channels_refl same_channels_trans
                    (add_dataset_channels _ _ _))]; done).
Qed.

Lemma walk_channels (re : Regexp) (visits : list FileVisit) (st : Discovery) :
  same_channels st (foldS (walkFunc rrd_Info re) visits st).1.
Proof.
  apply (foldS_invariant _ same_channels same_channels_refl same_channels_trans).
  apply walkFunc_channels.
Qed.

Lemma send_err_open (msg : string) (st : Discovery) :
  closed (d_errChan st) = false →
  send_err msg st =
  (set_errChan {| closed := false; sent := sent (d_errChan st) ++ [msg] |} st, Ok ()).
Proof. intros H. unfold send_err, chan_send. by rewrite H. Qed.

(** The body of a refresh leaves open the channels it was given open. *)
Lemma Refresh_body_open (st : Discovery) :
  closed (d_output st) = false → closed (d_errChan st) = false →
  closed (d_output (Refresh_body Compile rrd_Info WalkDir_visits st).1) = false ∧
  closed (d_errChan (Refresh_body Compile rrd_Info WalkDir_visits st).1) = false.
Proof.
  intros Ho He. unfold Refresh_body.
  destruct (Compile _) as [re|]; [|done].
  destruct (check_groups _ _) as [key|groups]; [by rewrite send_err_open|].
  case_decide; [by rewrite send_err_open|].
  case_decide; [by rewrite send_err_open|].
  destruct (walk_channels re (WalkDir_visits (Path (d_connector st))) st) as [H1 H2].
  destruct (foldS _ _ st) as [st1 [[]| |]]; simpl in *;
    rewrite ?send_err_open by congruence; simpl; split; congruence.
Qed.

(** Given open channels, a refresh closes each of them exactly once: the
    deferred closes do not panic, so the refresh ends the way its body does,
    and afterwards both channels are closed and hold what the body sent. *)
Theorem Refresh_closes_once (st : Discovery) :
  closed (d_output st) = false → closed (d_errChan st) = false →
  let body := Refresh_body Compile rrd_Info WalkDir_visits st in
  let whole := Refresh Compile rrd_Info WalkDir_visits st in
  whole.2 = body.2 ∧
  d_connector whole.1 = d_connector body.1 ∧
  d_output whole.1 = {| closed := true; sent := sent (d_output body.1) |} ∧
  d_errChan whole.1 = {| closed := true; sent := sent (d_errChan body.1) |}.
Proof.
  intros Ho He. destruct (Refresh_body_open st Ho He) as [Ho' He'].
  unfold Refresh. simpl.
  destruct (Refresh_body Compile rrd_Info WalkDir_visits st) as [st1 r]. simpl in *.
  unfold chan_close. rewrite He'. simpl. rewrite Ho'. done.
Qed.

(** A pattern with a capture group named otherwise than [source] or
    [metric], or without one of these two, is refused before any file is
    visited: given open channels, the refresh sends one error, sends no pair,
    leaves the connector as it was and closes both channels. *)
Theorem Refresh_refuses_pattern (st : Discovery) (re : Regexp) :
  Compile (Pattern (d_connector st)) = Some re →
  ¬ pattern_keywords_ok re →
  closed (d_output st) = false → closed (d_errChan st) = false →
  ∃ msg,
    Refresh Compile rrd_Info WalkDir_visits st =
    ({| d_connector := d_connector st;
        d_output := {| closed := true; sent := sent (d_output st) |};
        d_errChan := {| closed := true; sent := sent (d_errChan st) ++ [msg] |} |},
     Ok ()).
Proof.
  intros Hre Hbad Ho He.
  assert (∃ msg, Refresh_body Compile rrd_Info WalkDir_visits st = send_err msg st)
    as [msg Hbody].
  { unfold Refresh_body. rewrite Hre.
    pose proof (check_groups_spec (SubexpNames re) ∅) as Hspec.
    destruct (check_groups (SubexpNames re) ∅) as [key|groups]; [by eauto|].
    destruct Hspec as [Hall Hg].
    case_decide as Hs; [by eauto|]. case_decide as Hm; [by eauto|].
    destruct Hbad. split; [done|].
    try apply dec_stable in Hs. try apply dec_stable in Hm.
    apply Hg in Hs as [Hs|[Hs _]]; [by apply not_elem_of_empty in Hs|].
    apply Hg in Hm as [Hm|[Hm _]]; [by apply not_elem_of_empty in Hm|]. done. }
  exists msg. unfold Refresh. rewrite Hbody, send_err_open by done. simpl.
  unfold chan_close. simpl. by rewrite Ho.
Qed.

(** A traversal error is fatal: when the walker hands an error to the visit
    function, the refresh sends that error on the error channel, and the
    visits that would have followed leave no trace, the connector and the
    pairs sent being those reached before the error. *)
Theorem Refresh_stops_at_walk_error (st st1 : Discovery) (re : Regexp)
    (pre post : list FileVisit) (v : FileVisit) (err : string) :
  Compile (Pattern (d_connector st)) = Some re →
  pattern_keywords_ok re →
  WalkDir_visits (Path (d_connector st)) = pre ++ v :: post →
  fv_err v = Some err →
  foldS (walkFunc rrd_Info re) pre st = (st1, Ok ()) →
  closed (d_errChan st) = false →
  let st' := (Refresh Compile rrd_Info WalkDir_visits st).1 in
  sent (d_errChan st') = sent (d_errChan st) ++ [err] ∧
  d_connector st' = d_connector st1 ∧
  sent (d_output st') = sent (d_output st1).
Proof.
  intros Hre [Hall [Hs Hm]] Hvisits Herr Hpre He.
  pose proof (walk_channels re pre st) as [Hch _]. rewrite Hpre in Hch. simpl in Hch.
  assert (Refresh_body Compile rrd_Info WalkDir_visits st = send_err err st1) as Hbody.
  { unfold Refresh_body. rewrite Hre.
    pose proof (check_groups_spec (SubexpNames re) ∅) as Hspec.
    destruct (check_groups (SubexpNames re) ∅) as [key|groups]; [done|].
    destruct Hspec as [_ Hg].
    rewrite decide_False by (intros Hn; apply Hn, Hg; tauto).
    rewrite decide_False by (intros Hn; apply Hn, Hg; tauto).
    rewrite Hvisits, foldS_app, Hpre. simpl.
    unfold walkFunc at 1. rewrite Herr. done. }
  unfold Refresh. rewrite Hbody, send_err_open by congruence. simpl.
  unfold chan_close. simpl. rewrite Hch.
  destruct (closed (d_output st1)); simpl; done.
Qed.

Lemma full_name_inj (metricName ds ds' : string) :
  metricName +:+ "/" +:+ ds = metricName +:+ "/" +:+ ds' → ds = ds'.
Proof.
  intros H. apply (inj (String.app metricName)) in H.
  by apply (inj (String.app "/")) in H.
Qed.

Lemma add_dataset_open (filePath sourceName metricName : string) (st : Discovery)
    (dsName : string) :
  closed (d_output st) = false →
  add_dataset filePath sourceName metricName st dsName =
  (set_metrics
     (alter (λ src, <[metricName +:+ "/" +:+ dsName :=
                        {| Dataset := dsName; FilePath := filePath |}]> src)
            sourceName (metrics (d_connector st)))
     (set_output {| closed := false;
                    sent := sent (d_output st) ++
                            [(sourceName, metricName +:+ "/" +:+ dsName)] |} st),
   Ok ()).
Proof. intros H. unfold add_dataset, chan_send. by rewrite H. Qed.

(** The loop over the dataset names of an archive, on an open channel. *)
Lemma add_datasets_run (filePath sourceName metricName : string) (dsNames : list string) :
  ∀ st : Discovery,
    closed (d_output st) = false →
    is_Some (catalog_of st !! sourceName) →
    let r := foldS (add_dataset filePath sourceName metricName) dsNames st in
    r.2 = Ok () ∧
    sent (d_output r.1) =
      sent (d_output st) ++ map (λ ds, (sourceName, metricName +:+ "/" +:+ ds)) dsNames ∧
    (∀ ds, ds ∈ dsNames →
       entry (catalog_of r.1) sourceName (metricName +:+ "/" +:+ ds) =
       Some {| Dataset := ds; FilePath := filePath |}) ∧
    (∀ source metric,
       (source, metric) ∉ map (λ ds, (sourceName, metricName +:+ "/" +:+ ds)) dsNames →
       entry (catalog_of r.1) source metric = entry (catalog_of st) source metric).
Proof.
  induction dsNames as [|ds rest IH]; intros st Ho Hsrc.
  { simpl. rewrite app_nil_r. repeat split; try done.
    intros ds H. by apply elem_of_nil in H. }
  cbn [foldS]. rewrite (add_dataset_open _ _ _ _ _ Ho).
  set (st1 := set_metrics _ _).
  assert (closed (d_output st1) = false) as Ho1 by done.
  assert (is_Some (catalog_of st1 !! sourceName)) as Hsrc1.
  { subst st1. unfold catalog_of in *. simpl. rewrite lookup_alter_eq.
    by destruct Hsrc as [? ->]. }
  assert (∀ source metric,
            entry (catalog_of st1) source metric =
            if decide (source = sourceName ∧ metric = metricName +:+ "/" +:+ ds)
            then Some {| Dataset := ds; FilePath := filePath |}
            else entry (catalog_of st) source metric) as Hst1.
  { intros source metric. subst st1. unfold catalog_of in *. simpl.
    by apply entry_add. }
  destruct (IH st1 Ho1 Hsrc1) as (Hr & Hsent & Hin & Hout).
  cbn zeta. split; [done|]. split; [|split].
  - rewrite Hsent. subst st1. simpl. by rewrite <- (assoc_L (++)).
  - intros ds' Hds'. destruct (decide (ds' ∈ rest)) as [Hrest|Hrest]; [by apply Hin|].
    apply elem_of_cons in Hds' as [->|?]; [|done].
    rewrite Hout, Hst1; [by rewrite decide_True|].
    intros Hmem. apply list_elem_of_fmap in Hmem as (ds' & Heq & Hds').
    injection Heq as Heq. apply full_name_inj in Heq. by subst.
  - intros source metric Hnot. simpl in Hnot. apply not_elem_of_cons in Hnot as [Hne Hnot].
    rewrite (Hout _ _ Hnot), Hst1. rewrite decide_False; [done|].
    intros [-> ->]. done.
Qed.

(** The names [walkFunc] gives to the two captures of a match: in the order
    of the groups of the pattern. *)
Definition captures (name1 sub1 sub2 : string) : string * string :=
  if decide (name1 = "source") then (sub1, sub2) else (sub2, sub1).

Lemma walkFunc_match (re : Regexp) (st : Discovery) (v : FileVisit)
    (rel name1 sub0 sub1 sub2 : string) (rest : list string) (sourceName metricName : string) :
  fv_err v = None → fv_special v = false →
  slice_from (fv_path v) (String.length (Path (d_connector st)) + 1) = Some rel →
  FindStringSubmatch re rel = sub0 :: sub1 :: sub2 :: rest →
  SubexpNames re !! 1%nat = Some name1 →
  captures name1 sub1 sub2 = (sourceName, metricName) →
  walkFunc rrd_Info re st v =
  let st1 := match metrics (d_connector st) !! sourceName with
             | None => set_metrics (<[sourceName := ∅]> (metrics (d_connector st))) st
             | Some _ => st
             end in
  match rrd_Info (fv_path v) with
  | inl _ => (st1, Ok ())
  | inr None => (st1, Ok ())
  | inr (Some dsNames) => foldS (add_dataset (fv_path v) sourceName metricName) dsNames st1
  end.
Proof.
  intros Herr Hspecial Hslice Hsub Hname Hcap. unfold walkFunc.
  rewrite Herr, Hspecial, Hslice, Hsub. simpl length.
  rewrite decide_False by done. unfold index. rewrite Hname. simpl.
  unfold captures in Hcap. destruct (decide (name1 = "source")); by injection Hcap as -> ->.
Qed.

(** The state after the source of a matching file has been registered. *)
Lemma register_source (st : Discovery) (sourceName : string) :
  let st1 := match metrics (d_connector st) !! sourceName with
             | None => set_metrics (<[sourceName := ∅]> (metrics (d_connector st))) st
             | Some _ => st
             end in
  d_output st1 = d_output st ∧ d_errChan st1 = d_errChan st ∧
  is_Some (catalog_of st1 !! sourceName) ∧
  ∀ source metric, entry (catalog_of st1) source metric = entry (catalog_of st) source metric.
Proof.
  unfold catalog_of. destruct (metrics (d_connector st) !! sourceName) as [src|] eqn:E; simpl.
  - rewrite E. eauto.
  - rewrite lookup_insert_eq. repeat split; [by eauto|].
    intros source metric. by apply entry_new_source.
Qed.

(** A regular file that matches the pattern and whose archive lists its
    datasets yields one pair per dataset, sent in the order of the listing,
    and one catalog entry per pair, holding the dataset name and the path of
    the file.  The source and metric names are the first two captures of
    the match: the first is the source when the first group of the pattern
    is named [source], and the metric otherwise, whatever the other groups
    are named.  No other entry of the catalog changes. *)
Theorem walkFunc_discovers (re : Regexp) (st : Discovery) (v : FileVisit)
    (rel name1 sub0 sub1 sub2 : string) (rest dsNames : list string)
    (sourceName metricName : string) :
  fv_err v = None → fv_special v = false →
  slice_from (fv_path v) (String.length (Path (d_connector st)) + 1) = Some rel →
  FindStringSubmatch re rel = sub0 :: sub1 :: sub2 :: rest →
  SubexpNames re !! 1%nat = Some name1 →
  captures name1 sub1 sub2 = (sourceName, metricName) →
  rrd_Info (fv_path v) = inr (Some dsNames) →
  closed (d_output st) = false →
  let r := walkFunc rrd_Info re st v in
  let pairs := map (λ ds, (sourceName, metricName +:+ "/" +:+ ds)) dsNames in
  r.2 = Ok () ∧
  sent (d_output r.1) = sent (d_output st) ++ pairs ∧
  (∀ ds, ds ∈ dsNames →
     entry (catalog_of r.1) sourceName (metricName +:+ "/" +:+ ds) =
     Some {| Dataset := ds; FilePath := fv_path v |}) ∧
  (∀ source metric, (source, metric) ∉ pairs →
     entry (catalog_of r.1) source metric = entry (catalog_of st) source metric).
Proof.
  intros Herr Hspecial Hslice Hsub Hname Hcap Hinfo Ho.
  rewrite (walkFunc_match _ _ _ _ _ _ _ _ _ _ _ Herr Hspecial Hslice Hsub Hname Hcap).
  cbn zeta. rewrite Hinfo.
  destruct (register_source st sourceName) as (Hout & _ & Hsrc & Hentries).
  cbn zeta in Hout, Hsrc, Hentries.
  destruct (add_datasets_run (fv_path v) sourceName metricName dsNames _
              ltac:(rewrite Hout; exact Ho) Hsrc) as (Hr & Hsent & Hin & Hother).
  cbn zeta in Hr, Hsent, Hin, Hother.
  split; [done|]. split; [by rewrite Hsent, Hout|]. split; [done|].
  intros source metric Hnot. by rewrite (Hother _ _ Hnot).
Qed.

(** A regular file that matches the pattern but whose archive cannot be
    read, or lists no datasets, is passed over: the walk goes on, no pair is
    sent and no catalog entry changes.  Its source name has nevertheless
    become a source of the catalog. *)
Theorem walkFunc_unreadable (re : Regexp) (st : Discovery) (v : FileVisit)
    (rel name1 sub0 sub1 sub2 : string) (rest : list string)
    (sourceName metricName : string) :
  fv_err v = None → fv_special v = false →
  slice_from (fv_path v) (String.length (Path (d_connector st)) + 1) = Some rel →
  FindStringSubmatch re rel = sub0 :: sub1 :: sub2 :: rest →
  SubexpNames re !! 1%nat = Some name1 →
  captures name1 sub1 sub2 = (sourceName, metricName) →
  (∀ dsNames, rrd_Info (fv_path v) ≠ inr (Some dsNames)) →
  let r := walkFunc rrd_Info re st v in
  r.2 = Ok () ∧
  d_output r.1 = d_output st ∧ d_errChan r.1 = d_errChan st ∧
  (∀ source metric,
     entry (catalog_of r.1) source metric = entry (catalog_of st) source metric) ∧
  is_Some (catalog_of r.1 !! sourceName).
Proof.
  intros Herr Hspecial Hslice Hsub Hname Hcap Hinfo.
  rewrite (walkFunc_match _ _ _ _ _ _ _ _ _ _ _ Herr Hspecial Hslice Hsub Hname Hcap).
  cbn zeta.
  destruct (register_source st sourceName) as (Hout & Herrc & Hsrc & Hentries).
  cbn zeta in Hout, Herrc, Hsrc, Hentries.
  destruct (rrd_Info (fv_path v)) as [e|[dsNames|]]; simpl; try done.
  by destruct (Hinfo dsNames).
Qed.

(** The pairs a visit contributes: those of the datasets of a regular file
    that matches the pattern and whose archive lists its datasets, none for
    any other visit. *)
Definition pairs_of (re : Regexp) (root : string) (v : FileVisit) : list (string * string) :=
  match fv_err v with
  | Some _ => []
  | None =>
      if fv_special v then [] else
      match slice_from (fv_path v) (String.length root + 1) with
      | None => []
      | Some rel =>
          match FindStringSubmatch re rel, SubexpNames re !! 1%nat with
          | _ :: sub1 :: sub2 :: _, Some name1 =>
              match rrd_Info (fv_path v) with
              | inr (Some dsNames) =>
                  map (λ ds, ((captures name1 sub1 sub2).1,
                              (captures name1 sub1 sub2).2 +:+ "/" +:+ ds)) dsNames
              | _ => []
              end
          | _, _ => []
          end
      end
  end.

Lemma walkFunc_path (re : Regexp) (st : Discovery) (v : FileVisit) :
  Path (d_connector (walkFunc rrd_Info re st v).1) = Path (d_connector st).
Proof. destruct (walkFunc_grows rrd_Info re st v) as [n Hn]. apply Hn. Qed.

Lemma walkFunc_pairs (re : Regexp) (st st1 : Discovery) (v : FileVisit) :
  closed (d_output st) = false →
  walkFunc rrd_Info re st v = (st1, Ok ()) →
  sent (d_output st1) = sent (d_output st) ++ pairs_of re (Path (d_connector st)) v.
Proof.
  intros Ho Hrun. unfold pairs_of.
  destruct (fv_err v) as [err|] eqn:Herr.
  { unfold walkFunc in Hrun. rewrite Herr in Hrun. discriminate. }
  destruct (fv_special v) eqn:Hspecial.
  { unfold walkFunc in Hrun. rewrite Herr, Hspecial in Hrun.
    injection Hrun as <-. by rewrite app_nil_r. }
  destruct (slice_from _ _) as [rel|] eqn:Hslice.
  2:{ unfold walkFunc in Hrun. rewrite Herr, Hspecial, Hslice in Hrun. discriminate. }
  destruct (FindStringSubmatch re rel) as [|sub0 [|sub1 [|sub2 rest]]] eqn:Hsub;
    destruct (SubexpNames re !! 1%nat) as [name1|] eqn:Hname;
    try (unfold walkFunc, index in Hrun;
         rewrite Herr, Hspecial, Hslice, Hsub, ?Hname in Hrun; simpl in Hrun;
         repeat case_decide; simpl in Hrun; try discriminate;
         injection Hrun as <-; by rewrite app_nil_r).
  destruct (captures name1 sub1 sub2) as [sourceName metricName] eqn:Hcap.
  rewrite (walkFunc_match _ _ _ _ _ _ _ _ _ _ _ Herr Hspecial Hslice Hsub Hname Hcap)
    in Hrun. cbn zeta in Hrun.
  destruct (register_source st sourceName) as (Hout & _ & Hsrc & _).
  cbn zeta in Hout, Hsrc.
  destruct (rrd_Info (fv_path v)) as [e|[dsNames|]].
  - injection Hrun as <-. by rewrite Hout, app_nil_r.
  - destruct (add_datasets_run (fv_path v) sourceName metricName dsNames _
                ltac:(rewrite Hout; exact Ho) Hsrc) as (_ & Hsent & _).
    cbn zeta in Hsent. rewrite Hrun in Hsent. simpl in Hsent. by rewrite Hsent, Hout.
  - injection Hrun as <-. by rewrite Hout, app_nil_r.
Qed.

(** A walk that runs to its end sends, in the order of the visits, the pairs
    of every visit and nothing else: one pair per dataset of every regular
    file that matches and can be read. *)
Lemma walk_sends_pairs (re : Regexp) (visits : list FileVisit) :
  ∀ st st' : Discovery,
    closed (d_output st) = false →
    foldS (walkFunc rrd_Info re) visits st = (st', Ok ()) →
    sent (d_output st') =
    sent (d_output st) ++ flat_map (pairs_of re (Path (d_connector st))) visits.
Proof.
  induction visits as [|v visits IH]; intros st st' Ho Hrun; simpl in *.
  - injection Hrun as <-. by rewrite app_nil_r.
  - pose proof (walkFunc_channels re st v) as [_ Hclosed].
    pose proof (walkFunc_path re st v) as Hpath.
    destruct (walkFunc rrd_Info re st v) as [st1 [[]| |]] eqn:Hstep;
      simpl in *; try discriminate.
    rewrite (IH st1 st') by congruence.
    rewrite (walkFunc_pairs re st st1 v Ho Hstep), Hpath.
    by rewrite <- (assoc_L (++)).
Qed.

End RefreshSteps.

(** ** Queries: errors and panics *)

(** A series whose metric pointer is set but whose metric the catalog does
    not hold. *)
Definition dangling (connector : RRDConnector) (serie : SerieQuery) : bool :=
  match sq_Metric serie with
  | Some metric =>
      match lookup_metric connector metric with
      | Ok _ => false
      | _ => true
      end
  | None => false
  end.

Lemma lookup_metric_cases (connector : RRDConnector) (metric : MetricQuery) :
  (∃ m, lookup_metric connector metric = Ok m) ∨
  lookup_metric connector metric = Panic "nil pointer dereference".
Proof. unfold lookup_metric. destruct (_ ≫= _); eauto. Qed.

(** A loop whose body panics on the elements that satisfy [bad] and goes on
    otherwise completes exactly when no element is bad. *)
Lemma foldM_panics {A St : Type} (f : St → A → Outcome St) (bad : A → bool) (why : string) :
  (∀ s x, bad x = false → ∃ s', f s x = Ok s') →
  (∀ s x, bad x = true → f s x = Panic why) →
  ∀ (l : list A) (s : St),
    ((∃ s', foldM f l s = Ok s') ↔ Forall (λ x, bad x = false) l) ∧
    (foldM f l s = Panic why ↔ Exists (λ x, bad x = true) l).
Proof.
  intros Hok Hbad. induction l as [|x l IH]; intros s; simpl.
  - split; split; eauto; [discriminate|]. intros H. inversion H.
  - destruct (bad x) eqn:Hx.
    + rewrite (Hbad s x Hx). simpl. split; split.
      * intros [? ?]. discriminate.
      * intros H. inversion H; subst. congruence.
      * intros _. by apply Exists_cons_hd.
      * done.
    + destruct (Hok s x Hx) as [s1 ->]. simpl. destruct (IH s1) as [IH1 IH2].
      split; split.
      * intros H. constructor; [done|]. by apply IH1.
      * intros H. inversion H; subst. by apply IH1.
      * intros H. apply Exists_cons_tl. by apply IH2.
      * intros H. inversion H; subst; [congruence|]. by apply IH2.
Qed.

Lemma range_foldM_panics {A St : Type} (f : St → nat → A → Outcome St) (bad : A → bool)
    (why : string) :
  (∀ s i x, bad x = false → ∃ s', f s i x = Ok s') →
  (∀ s i x, bad x = true → f s i x = Panic why) →
  ∀ (l : list A) (i : nat) (s : St),
    ((∃ s', range_foldM f l i s = Ok s') ↔ Forall (λ x, bad x = false) l) ∧
    (range_foldM f l i s = Panic why ↔ Exists (λ x, bad x = true) l).
Proof.
  intros Hok Hbad. induction l as [|x l IH]; intros i s; simpl.
  - split; split; eauto; [discriminate|]. intros H. inversion H.
  - destruct (bad x) eqn:Hx.
    + rewrite (Hbad s i x Hx). simpl. split; split.
      * intros [? ?]. discriminate.
      * intros H. inversion H; subst. congruence.
      * intros _. by apply Exists_cons_hd.
      * done.
    + destruct (Hok s i x Hx) as [s1 ->]. simpl. destruct (IH (S i) s1) as [IH1 IH2].
      split; split.
      * intros H. constructor; [done|]. by apply IH1.
      * intros H. inversion H; subst. by apply IH1.
      * intros H. apply Exists_cons_tl. by apply IH2.
      * intros H. inversion H; subst; [congruence|]. by apply IH2.
Qed.

Section Compilation.

Variable int_overflow_test : float64 → bool.

Lemma none_body_cases (connector : RRDConnector) (query : GroupQuery)
    (percentiles : list float64) (infoOnly : bool) (l : Locals) (serie : SerieQuery) :
  (dangling connector serie = false →
   ∃ l', none_body int_overflow_test connector query percentiles infoOnly l serie = Ok l') ∧
  (dangling connector serie = true →
   none_body int_overflow_test connector query percentiles infoOnly l serie =
   Panic "nil pointer dereference").
Proof.
  unfold none_body, dangling.
  destruct (sq_Metric serie) as [metric|]; [|split; [by eauto|discriminate]].
  destruct (lookup_metric_cases connector metric) as [[m ->]| ->]; simpl;
    (split; [first [discriminate|by eauto]|first [discriminate|done]]).
Qed.

Lemma aggr_body_cases (connector : RRDConnector) (serieName : string) (infoOnly : bool)
    (l : Locals) (index : nat) (serie : SerieQuery) :
  (dangling connector serie = false →
   ∃ l', aggr_body connector serieName infoOnly l index serie = Ok l') ∧
  (dangling connector serie = true →
   aggr_body connector serieName infoOnly l index serie = Panic "nil pointer dereference").
Proof.
  unfold aggr_body, dangling.
  destruct (sq_Metric serie) as [metric|]; [|split; [by eauto|discriminate]].
  destruct (lookup_metric_cases connector metric) as [[m ->]| ->]; simpl;
    (split; [first [discriminate|by eauto]|first [discriminate|done]]).
Qed.

(** For the three known aggregation types, compilation completes exactly
    when the catalog holds the metric of every series that carries one, and
    otherwise panics on the nil catalog entry; a series without a metric is
    never a cause of failure. *)
Theorem rrdGetData_compile_completes (connector : RRDConnector) (query : GroupQuery)
    (percentiles : list float64) (infoOnly : bool) :
  (∀ code, gq_Type query ≠ OperGroupTypeOther code) →
  ((∃ l, rrdGetData_compile int_overflow_test connector query percentiles infoOnly = Ok l) ↔
   Forall (λ serie, dangling connector serie = false) (gq_Series query)) ∧
  (rrdGetData_compile int_overflow_test connector query percentiles infoOnly =
   Panic "nil pointer dereference" ↔
   Exists (λ serie, dangling connector serie = true) (gq_Series query)).
Proof.
  intros Hknown. unfold rrdGetData_compile.
  assert (∀ l0,
    ((∃ l, rrdGetData_aggregate int_overflow_test connector query percentiles infoOnly l0
           = Ok l) ↔ Forall (λ serie, dangling connector serie = false) (gq_Series query)) ∧
    (rrdGetData_aggregate int_overflow_test connector query percentiles infoOnly l0
     = Panic "nil pointer dereference" ↔
     Exists (λ serie, dangling connector serie = true) (gq_Series query))) as Haggr.
  { intros l0. unfold rrdGetData_aggregate.
    destruct (range_foldM_panics
                (aggr_body connector ("serie" +:+ Itoa (v_count l0)) infoOnly)
                (dangling connector) "nil pointer dereference"
                (λ s i x, proj1 (aggr_body_cases _ _ _ s i x))
                (λ s i x, proj2 (aggr_body_cases _ _ _ s i x))
                (gq_Series query) 0%nat l0) as [H1 H2].
    destruct (range_foldM _ _ _ _) as [l1| |] eqn:E; simpl.
    - split; split.
      + intros _. apply H1. eauto.
      + eauto.
      + discriminate.
      + intros H. apply H2 in H. discriminate.
    - split; split.
      + intros [? ?]. discriminate.
      + intros H. apply H1 in H as [? ?]. discriminate.
      + intros H. by apply H2.
      + intros H. by apply H2.
    - split; split.
      + intros [? ?]. discriminate.
      + intros H. apply H1 in H as [? ?]. discriminate.
      + intros H. by apply H2.
      + intros H. by apply H2. }
  destruct (gq_Type query) as [| | |code] eqn:Ht; [|apply Haggr..|by destruct (Hknown code)].
  apply (foldM_panics _ (dangling connector) "nil pointer dereference").
  - intros s x. apply none_body_cases.
  - intros s x. apply none_body_cases.
Qed.

End Compilation.

Section QueryErrors.

Variable int_overflow_test : float64 → bool.
Variable Xport : Exporter → Z → Z → Z → XportData + string.
Variable Graph : Grapher → Z → Z → GraphInfo + string.
Variable ParseFloat : string → option float64.

Local Abbreviation run := (rrdGetData int_overflow_test Xport Graph ParseFloat).

Lemma set_query_same (w : World) : set_query (w_query w) w = w.
Proof. by destruct w. Qed.

(** An aggregation type other than the three known ones is reported, with
    nothing written and nothing submitted to the engine, exactly when the
    query has at least two series: with a single series the type is first
    rewritten to [None] and the query runs. *)
Theorem rrdGetData_unknown_type (w : World) (startTime endTime step : Z)
    (percentiles : list float64) (infoOnly : bool) (code : Z) :
  gq_Type (w_query w) = OperGroupTypeOther code →
  gq_Series (w_query w) ≠ [] →
  (run w startTime endTime step percentiles infoOnly =
   (w, Err ("unknown `" +:+ Itoa code +:+ "' operator type")) ↔
   (2 ≤ length (gq_Series (w_query w)))%nat).
Proof.
  intros Ht Hne. split.
  - intros Hrun.
    pose proof (rrdGetData_writes int_overflow_test Xport Graph ParseFloat
                  w startTime endTime step percentiles infoOnly) as [_ Hq].
    simpl in Hq. rewrite Hrun in Hq. simpl in Hq.
    unfold guarded, single_series in Hq.
    destruct (gq_Series (w_query w)) as [|s1 [|s2 rest]] eqn:Hs; [done| |simpl; lia].
    rewrite decide_True in Hq by (by rewrite Ht).
    apply (f_equal gq_Type) in Hq. simpl in Hq. congruence.
  - intros Hlen. rewrite rrdGetData_guarded by done.
    assert (guarded (w_query w) = w_query w) as ->.
    { unfold guarded, single_series. rewrite decide_False; [done|]. intros [_ ?]. lia. }
    rewrite set_query_same. unfold rrdGetData_execute, rrdGetData_compile.
    by rewrite Ht.
Qed.

(** A failed export ends the query with the engine's error as it is: the
    graph-info program is not run and no buffer is held. *)
Theorem rrdGetData_export_error (w : World) (startTime endTime step : Z)
    (percentiles : list float64) (l : Locals) (xport : Exporter) (err : string) :
  gq_Series (w_query w) ≠ [] →
  rrdGetData_compile int_overflow_test (w_connector w) (guarded (w_query w))
                     percentiles false = Ok l →
  v_xport l = Some xport →
  Xport xport startTime endTime step = inr err →
  run w startTime endTime step percentiles false =
  (set_query (guarded (w_query w)) w, Err err).
Proof.
  intros Hne Hc Hx Hr. rewrite rrdGetData_guarded by done.
  unfold rrdGetData_execute. simpl. by rewrite Hc, Hx, Hr.
Qed.

End QueryErrors.

(** A query for statistics only runs no export: its outcome does not depend
    on the export engine, it holds no buffer, and every label of its result
    has an empty sample sequence. *)
Theorem rrdGetData_info_only
    (int_overflow_test : float64 → bool)
    (Xport Xport' : Exporter → Z → Z → Z → XportData + string)
    (Graph : Grapher → Z → Z → GraphInfo + string)
    (ParseFloat : string → option float64)
    (w : World) (startTime endTime step : Z) (percentiles : list float64) :
  let r := rrdGetData int_overflow_test Xport Graph ParseFloat w
                      startTime endTime step percentiles true in
  r = rrdGetData int_overflow_test Xport' Graph ParseFloat w
                 startTime endTime step percentiles true ∧
  w_live r.1 = w_live w ∧
  (∀ result, r.2 = Ok result → ∀ label, samples result label = []).
Proof.
  destruct (decide (gq_Series (w_query w) = [])) as [He|Hne].
  { rewrite !rrdGetData_empty by done. simpl. repeat split. intros ? [=]. }
  rewrite !rrdGetData_guarded by done. unfold rrdGetData_execute. simpl.
  destruct (rrdGetData_compile _ _ _ _ _) as [l| |]; simpl; [|by repeat split..].
  destruct (Graph (v_graph l) startTime endTime) as [info|err]; simpl;
    [|by repeat split].
  destruct (rrdParseInfo ParseFloat info ∅) as [result| |] eqn:E; simpl;
    [|by repeat split..].
  repeat split. intros ? [= <-] label.
  by rewrite (rrdParseInfo_samples ParseFloat _ _ _ E label).
Qed.

(** ** The two programs of a query *)

Lemma program_eq (p q : Program) : daemon p = daemon q → ops p = ops q → p = q.
Proof. destruct p, q. simpl. by intros -> ->. Qed.

(** The statistics block, as a program extension. *)
Lemma rrdSetGraph_block (int_overflow_test : float64 → bool) (graph : Grapher)
    (serieName itemName : string) (percentiles : list float64) :
  Forall test_determined percentiles →
  rrdSetGraph int_overflow_test graph serieName itemName percentiles =
  add_ops (summary_ops serieName itemName ++
           concat (imap (percentile_ops serieName itemName) percentiles)) graph.
Proof.
  intros H.
  destruct (rrdSetGraph_appends int_overflow_test graph serieName itemName percentiles)
    as [os Hos].
  apply program_eq; [by rewrite Hos|].
  unfold rrdSetGraph. rewrite (percentile_loop_ops _ _ _ _ H). simpl.
  rewrite <- !(assoc_L (++)). reflexivity.
Qed.

(** The identifier of the [k]-th resolvable series of a query without
    aggregation. *)
Definition serie_name (k : Z) : string := "serie" +:+ Itoa k.

(** The definitions of such a series: the raw dataset, the series scale
    applied to it, the group scale applied to that. *)
Definition none_defs (serieTemp : string) (serie : SerieQuery) (m : rrdMetric)
    (gscale : float64) : list Op :=
  [ OpDef (serieTemp +:+ "-orig0") (FilePath m) (Dataset m) "AVERAGE";
    scale_op (serieTemp +:+ "-orig1") (serieTemp +:+ "-orig0") (sq_Scale serie);
    scale_op serieTemp (serieTemp +:+ "-orig1") gscale ].

(** The series of a query that carry a metric, with their catalog entry. *)
Fixpoint resolved (connector : RRDConnector) (series : list SerieQuery)
    : list (SerieQuery * rrdMetric) :=
  match series with
  | [] => []
  | serie :: rest =>
      match sq_Metric serie with
      | Some metric =>
          match lookup_metric connector metric with
          | Ok m => [(serie, m)]
          | _ => []
          end
      | None => []
      end ++ resolved connector rest
  end.

Fixpoint none_xport_ops (k : Z) (rs : list (SerieQuery * rrdMetric)) (gscale : float64)
    : list Op :=
  match rs with
  | [] => []
  | (serie, m) :: rest =>
      none_defs (serie_name k) serie m gscale ++
      [OpXportDef (serie_name k) (serie_name k)] ++
      none_xport_ops (k + 1) rest gscale
  end.

Fixpoint none_graph_ops (k : Z) (rs : list (SerieQuery * rrdMetric)) (gscale : float64)
    (percentiles : list float64) : list Op :=
  match rs with
  | [] => []
  | (serie, m) :: rest =>
      none_defs (serie_name k) serie m gscale ++
      (summary_ops (serie_name k) (sq_Name serie) ++
       concat (imap (percentile_ops (serie_name k) (sq_Name serie)) percentiles)) ++
      none_graph_ops (k + 1) rest gscale percentiles
  end.

Fixpoint none_labels (k : Z) (rs : list (SerieQuery * rrdMetric))
    (labels : gmap string string) : gmap string string :=
  match rs with
  | [] => labels
  | (serie, _) :: rest => none_labels (k + 1) rest (<[serie_name k := sq_Name serie]> labels)
  end.

Lemma scale_op_emit (target source : string) (scale : float64) (p : Program) :
  (if fne0 scale
   then emit (OpCDef target (source +:+ "," +:+ FormatF scale +:+ ",*")) p
   else emit (OpCDef target source) p) = add_ops [scale_op target source scale] p.
Proof. unfold scale_op. by destruct (fne0 scale). Qed.

Lemma scaled_text (serieTemp suffix : string) (scale : float64) :
  serieTemp +:+ String.app suffix ("," +:+ FormatF scale +:+ ",*") =
  (serieTemp +:+ suffix) +:+ "," +:+ FormatF scale +:+ ",*".
Proof. by rewrite append_assoc. Qed.

Section NonePrograms.

Variable int_overflow_test : float64 → bool.

(** The loop of the case without aggregation. *)
Lemma none_loop (connector : RRDConnector) (query : GroupQuery)
    (percentiles : list float64) (infoOnly : bool) (series : list SerieQuery) :
  Forall test_determined percentiles →
  ∀ l l' : Locals,
    foldM (none_body int_overflow_test connector query percentiles infoOnly) series l = Ok l' →
    let rs := resolved connector series in
    v_count l' = v_count l + Z.of_nat (length rs) ∧
    v_graph l' = add_ops (none_graph_ops (v_count l) rs (gq_Scale query) percentiles)
                         (v_graph l) ∧
    v_xport l' = (if infoOnly then v_xport l
                  else add_ops (none_xport_ops (v_count l) rs (gq_Scale query))
                       <$> v_xport l) ∧
    v_series l' = none_labels (v_count l) rs (v_series l) ∧
    v_stack l' = v_stack l.
Proof.
  intros Hp. induction series as [|serie rest IH]; intros l l' H; simpl in *.
  - injection H as <-. rewrite Z.add_0_r, add_ops_nil.
    destruct infoOnly, (v_xport l); simpl; rewrite ?add_ops_nil; done.
  - destruct (none_body _ _ _ _ _ l serie) as [l1| |] eqn:E; simpl in H; try discriminate.
    destruct (IH _ _ H) as (Hc & Hg & Hx & Hs & Hk). clear IH H.
    unfold none_body in E. destruct (sq_Metric serie) as [metric|].
    + destruct (lookup_metric connector metric) as [m| |]; simpl in E; try discriminate.
      injection E as <-. cbn [v_count v_graph v_xport v_series v_stack] in *.
      change ("serie" +:+ Itoa (v_count l)) with (serie_name (v_count l)) in *.
      rewrite Hc, Hg, Hx, Hs, Hk. cbn [app length none_graph_ops none_xport_ops none_labels].
      assert (∀ p : Program,
        (if fne0 (gq_Scale query)
         then emit (OpCDef (serie_name (v_count l))
                     (serie_name (v_count l) +:+ "-orig1," +:+ FormatF (gq_Scale query)
                      +:+ ",*"))
                (if fne0 (sq_Scale serie)
                 then emit (OpCDef (serie_name (v_count l) +:+ "-orig1")
                              (serie_name (v_count l) +:+ "-orig0," +:+
                               FormatF (sq_Scale serie) +:+ ",*"))
                        (emit (OpDef (serie_name (v_count l) +:+ "-orig0") (FilePath m)
                                 (Dataset m) "AVERAGE") p)
                 else emit (OpCDef (serie_name (v_count l) +:+ "-orig1")
                              (serie_name (v_count l) +:+ "-orig0"))
                        (emit (OpDef (serie_name (v_count l) +:+ "-orig0") (FilePath m)
                                 (Dataset m) "AVERAGE") p))
         else emit (OpCDef (serie_name (v_count l)) (serie_name (v_count l) +:+ "-orig1"))
                (if fne0 (sq_Scale serie)
                 then emit (OpCDef (serie_name (v_count l) +:+ "-orig1")
                              (serie_name (v_count l) +:+ "-orig0," +:+
                               FormatF (sq_Scale serie) +:+ ",*"))
                        (emit (OpDef (serie_name (v_count l) +:+ "-orig0") (FilePath m)
                                 (Dataset m) "AVERAGE") p)
                 else emit (OpCDef (serie_name (v_count l) +:+ "-orig1")
                              (serie_name (v_count l) +:+ "-orig0"))
                        (emit (OpDef (serie_name (v_count l) +:+ "-orig0") (FilePath m)
                                 (Dataset m) "AVERAGE") p))) =
        add_ops (none_defs (serie_name (v_count l)) serie m (gq_Scale query)) p) as Hdefs.
      { intros p. unfold none_defs, scale_op.
        change (serie_name (v_count l) +:+ "-orig1," +:+ FormatF (gq_Scale query) +:+ ",*")
          with (serie_name (v_count l) +:+
                String.app "-orig1" ("," +:+ FormatF (gq_Scale query) +:+ ",*")).
        change (serie_name (v_count l) +:+ "-orig0," +:+ FormatF (sq_Scale serie) +:+ ",*")
          with (serie_name (v_count l) +:+
                String.app "-orig0" ("," +:+ FormatF (sq_Scale serie) +:+ ",*")).
        rewrite !scaled_text.
        destruct (fne0 (gq_Scale query)), (fne0 (sq_Scale serie));
          by rewrite !emit_add_ops, !add_ops_add_ops. }
      rewrite Hdefs, (rrdSetGraph_block _ _ _ _ _ Hp), !add_ops_add_ops.
      split; [lia|]. split; [by rewrite <- ?(assoc_L (++))|]. split; [|done].
      destruct infoOnly; [done|]. destruct (v_xport l) as [x|]; simpl; [|done].
      rewrite Hdefs, !emit_add_ops, !add_ops_add_ops.
      by rewrite <- ?(assoc_L (++)).
    + injection E as <-. done.
Qed.

End NonePrograms.

Lemma serie_name_inj (a b : Z) : serie_name a = serie_name b → a = b.
Proof.
  unfold serie_name, Itoa. intros H. apply (inj (String.app "serie")) in H.
  by apply (inj pretty).
Qed.

(** The labels of the series of a query without aggregation: the [k]-th
    identifier from [c] on is bound to the name of the [k]-th series. *)
Lemma none_labels_lookup (rs : list (SerieQuery * rrdMetric)) :
  ∀ (c : Z) (labels : gmap string string),
    (∀ k, (k < length rs)%nat →
          none_labels c rs labels !! serie_name (c + Z.of_nat k) =
          (λ r, sq_Name r.1) <$> rs !! k) ∧
    (∀ key, (∀ k, (k < length rs)%nat → key ≠ serie_name (c + Z.of_nat k)) →
            none_labels c rs labels !! key = labels !! key).
Proof.
  induction rs as [|[serie m] rest IH]; intros c labels.
  { split; [simpl; intros; lia|done]. }
  destruct (IH (c + 1) (<[serie_name c := sq_Name serie]> labels)) as [IH1 IH2].
  assert (∀ key, (∀ k, (k < length ((serie, m) :: rest))%nat →
                       key ≠ serie_name (c + Z.of_nat k)) →
                 none_labels c ((serie, m) :: rest) labels !! key = labels !! key) as Hother.
  { intros key Hkey. cbn [none_labels]. rewrite IH2.
    - apply lookup_insert_ne. intros Heq. apply (Hkey 0%nat); [simpl; lia|].
      by rewrite Z.add_0_r.
    - intros k Hk. replace (c + 1 + Z.of_nat k) with (c + Z.of_nat (S k)) by lia.
      apply Hkey. simpl. lia. }
  split; [|done]. intros [|k] Hk.
  - cbn [none_labels]. rewrite Z.add_0_r, IH2; [by rewrite lookup_insert_eq|].
    intros k _ Heq%serie_name_inj. lia.
  - cbn [none_labels]. replace (c + Z.of_nat (S k)) with (c + 1 + Z.of_nat k) by lia.
    apply IH1. simpl in Hk. lia.
Qed.

Lemma none_labels_keys (rs : list (SerieQuery * rrdMetric)) :
  ∀ (c : Z) (labels : gmap string string) (key : string),
    is_Some (none_labels c rs labels !! key) →
    is_Some (labels !! key) ∨
    ∃ k, (k < length rs)%nat ∧ key = serie_name (c + Z.of_nat k).
Proof.
  induction rs as [|[serie m] rest IH]; intros c labels key H; [by left|].
  cbn [none_labels] in H. apply IH in H as [H|(k & Hk & ->)].
  - destruct (decide (key = serie_name c)) as [->|Hne].
    + right. exists 0%nat. split; [simpl; lia|]. by rewrite Z.add_0_r.
    + left. by rewrite lookup_insert_ne in H.
  - right. exists (S k). split; [simpl; lia|]. f_equal. lia.
Qed.

(** The two programs of a query without aggregation. *)
Lemma none_programs (int_overflow_test : float64 → bool)
    (connector : RRDConnector) (query : GroupQuery) (percentiles : list float64)
    (infoOnly : bool) (l : Locals) :
  gq_Type query = OperGroupTypeNone →
  Forall test_determined percentiles →
  rrdGetData_compile int_overflow_test connector query percentiles infoOnly = Ok l →
  let rs := resolved connector (gq_Series query) in
  v_graph l = add_ops (none_graph_ops 0 rs (gq_Scale query) percentiles)
                      (initial_program connector) ∧
  v_xport l = (if infoOnly then None
               else Some (add_ops (none_xport_ops 0 rs (gq_Scale query))
                                  (initial_program connector))).
Proof.
  intros Ht Hp H. unfold rrdGetData_compile in H. rewrite Ht in H.
  destruct (none_loop int_overflow_test _ _ _ _ _ Hp _ _ H) as (_ & Hg & Hx & _ & _).
  cbn zeta in *.
  change (v_count (initial_locals connector infoOnly)) with 0 in *.
  change (v_graph (initial_locals connector infoOnly)) with (initial_program connector) in *.
  change (v_xport (initial_locals connector infoOnly))
    with (if infoOnly then None else Some (initial_program connector)) in *.
  split; [done|by destruct infoOnly].
Qed.

(** In a query without aggregation the series that carry a metric are
    numbered [serie0], [serie1], ... in their order, the others being passed
    over without using up a number.  Each is defined in both programs as its
    raw dataset, scaled by its own scale and then by the scale of the group
    (a zero scale meaning none); the graph program adds its statistics block
    under the name of the series, the export program marks it as a column;
    the label map binds each identifier to the name of its series and
    nothing else. *)
Theorem rrdGetData_compile_none (int_overflow_test : float64 → bool)
    (connector : RRDConnector) (query : GroupQuery) (percentiles : list float64)
    (infoOnly : bool) (l : Locals) :
  gq_Type query = OperGroupTypeNone →
  Forall test_determined percentiles →
  rrdGetData_compile int_overflow_test connector query percentiles infoOnly = Ok l →
  let rs := resolved connector (gq_Series query) in
  v_count l = Z.of_nat (length rs) ∧
  (∀ k, (k < length rs)%nat →
        v_series l !! serie_name (Z.of_nat k) = (λ r, sq_Name r.1) <$> rs !! k) ∧
  (∀ key, is_Some (v_series l !! key) →
          ∃ k, (k < length rs)%nat ∧ key = serie_name (Z.of_nat k)) ∧
  v_graph l = add_ops (none_graph_ops 0 rs (gq_Scale query) percentiles)
                      (initial_program connector) ∧
  v_xport l = (if infoOnly then None
               else Some (add_ops (none_xport_ops 0 rs (gq_Scale query))
                                  (initial_program connector))).
Proof.
  intros Ht Hp H. unfold rrdGetData_compile in H. rewrite Ht in H.
  destruct (none_loop int_overflow_test _ _ _ _ _ Hp _ _ H) as (Hc & Hg & Hx & Hs & _).
  cbn zeta in *.
  change (v_count (initial_locals connector infoOnly)) with 0 in *.
  change (v_series (initial_locals connector infoOnly)) with (∅ : gmap string string) in *.
  change (v_graph (initial_locals connector infoOnly)) with (initial_program connector) in *.
  change (v_xport (initial_locals connector infoOnly))
    with (if infoOnly then None else Some (initial_program connector)) in *.
  split; [lia|]. rewrite Hs.
  destruct (none_labels_lookup (resolved connector (gq_Series query)) 0 ∅) as [H1 H2].
  split; [intros k Hk; by rewrite <- (H1 k Hk)|].
  split; [|split; [done|by destruct infoOnly]].
  intros key Hkey. apply none_labels_keys in Hkey as [Hkey|Hkey]; [|done].
  rewrite lookup_empty in Hkey. by destruct Hkey.
Qed.

(** The two programs of an aggregated query. *)
Lemma aggr_programs (int_overflow_test : float64 → bool)
    (connector : RRDConnector) (query : GroupQuery) (percentiles : list float64)
    (infoOnly : bool) (l : Locals) :
  gq_Type query = OperGroupTypeAvg ∨ gq_Type query = OperGroupTypeSum →
  Forall test_determined percentiles →
  rrdGetData_compile int_overflow_test connector query percentiles infoOnly = Ok l →
  v_graph l =
    add_ops (aggr_ops connector query ++
             summary_ops "serie0" (gq_Name query) ++
             concat (imap (percentile_ops "serie0" (gq_Name query)) percentiles))
            (initial_program connector) ∧
  v_xport l = (if infoOnly then None
               else Some (add_ops (aggr_ops connector query ++ [OpXportDef "serie0" "serie0"])
                                  (initial_program connector))).
Proof.
  intros Ht Hp H.
  destruct (rrdGetData_compile_aggr _ _ _ _ _ _ Ht H) as (_ & _ & Hx & _).
  split; [|done].
  - assert (rrdGetData_aggregate int_overflow_test connector query percentiles infoOnly
              (initial_locals connector infoOnly) = Ok l) as Ha.
    { unfold rrdGetData_compile in H. by destruct Ht as [Ht|Ht]; rewrite Ht in H. }
    unfold rrdGetData_aggregate in Ha.
    change (v_count (initial_locals connector infoOnly)) with 0 in Ha.
    rewrite serie0_name in Ha.
    destruct (range_foldM _ _ _ _) as [l1| |] eqn:Hloop; try discriminate.
    apply aggr_loop in Hloop as (Hg & _ & Hst & _).
    change (v_graph (initial_locals connector infoOnly))
      with (initial_program connector) in Hg.
    change (Ok ?x = Ok l) with (mret (M := Outcome) x = Ok l) in Ha.
    cbv beta iota zeta delta [mbind outcome_bind mret outcome_ret] in Ha.
    injection Ha as <-. cbn [v_graph].
    rewrite (scale_op_emit "serie0" "serie0-orig"), emit_add_ops, !add_ops_add_ops.
    rewrite (rrdSetGraph_block _ _ _ _ _ Hp), Hg, !add_ops_add_ops.
    assert ((if decide (gq_Type query = OperGroupTypeAvg)
             then v_stack l1 ++ [Itoa (Z.of_nat (length (gq_Series query))); "/"]
             else v_stack l1) = aggr_stack connector query) as ->.
    { unfold aggr_stack. rewrite Hst. case_decide; [done|by rewrite app_nil_r]. }
    unfold aggr_ops. by rewrite <- !(assoc_L (++)).
Qed.

(** In an aggregated query both programs hold the same definitions: the
    contributing series with their unknown samples zeroed, their accumulation
    under [serie0-orig] and the group scale applied to it under [serie0].
    The graph program then has the statistics block of [serie0] under the
    name of the group, the export program the mark of [serie0] as its single
    column, and the label map binds [serie0] to the name of the group. *)
Theorem rrdGetData_compile_aggr_programs (int_overflow_test : float64 → bool)
    (connector : RRDConnector) (query : GroupQuery) (percentiles : list float64)
    (infoOnly : bool) (l : Locals) :
  gq_Type query = OperGroupTypeAvg ∨ gq_Type query = OperGroupTypeSum →
  Forall test_determined percentiles →
  rrdGetData_compile int_overflow_test connector query percentiles infoOnly = Ok l →
  v_graph l =
    add_ops (aggr_ops connector query ++
             summary_ops "serie0" (gq_Name query) ++
             concat (imap (percentile_ops "serie0" (gq_Name query)) percentiles))
            (initial_program connector) ∧
  v_xport l = (if infoOnly then None
               else Some (add_ops (aggr_ops connector query ++ [OpXportDef "serie0" "serie0"])
                                  (initial_program connector))) ∧
  v_series l = {["serie0" := gq_Name query]} ∧
  v_count l = 1.
Proof.
  intros Ht Hp H.
  destruct (aggr_programs _ _ _ _ _ _ Ht Hp H) as [Hg Hx].
  destruct (rrdGetData_compile_aggr _ _ _ _ _ _ Ht H) as (_ & _ & _ & Hs).
  split; [done|split; [done|split; [done|]]].
  assert (rrdGetData_aggregate int_overflow_test connector query percentiles infoOnly
            (initial_locals connector infoOnly) = Ok l) as Ha.
  { unfold rrdGetData_compile in H. by destruct Ht as [Ht|Ht]; rewrite Ht in H. }
  unfold rrdGetData_aggregate in Ha.
  destruct (range_foldM _ _ _ _) as [l1| |]; try discriminate.
  by injection Ha as <-.
Qed.

(** ** Identifiers are unique within a program *)

(** The identifier an operation defines, if any. *)
Definition defined (o : Op) : option string :=
  match o with
  | OpDef vname _ _ _ | OpCDef vname _ | OpVDef vname _ => Some vname
  | OpPrint _ _ | OpXportDef _ _ => None
  end.

Definition defined_names (os : list Op) : list string := omap defined os.

(** What follows [serie<k>] in an identifier. *)
Inductive suffix : Type :=
| Orig0 | Orig1 | Self | Orig
| Tmp (i : nat) | TmpOri (i : nat)
| Min | Avg | Max | Last
| Cdef (i : nat) | Vdef (i : nat).

#[global] Instance suffix_eq_dec : EqDecision suffix.
Proof. solve_decision. Defined.

Definition suffix_text (s : suffix) : string :=
  match s with
  | Orig0 => "-orig0" | Orig1 => "-orig1" | Self => "" | Orig => "-orig"
  | Tmp i => "-tmp" +:+ Itoa (Z.of_nat i)
  | TmpOri i => ("-tmp" +:+ Itoa (Z.of_nat i)) +:+ "-ori"
  | Min => "-min" | Avg => "-avg" | Max => "-max" | Last => "-last"
  | Cdef i => "-cdef" +:+ Itoa (Z.of_nat i)
  | Vdef i => "-vdef" +:+ Itoa (Z.of_nat i)
  end.

Definition render (ks : nat * suffix) : string :=
  serie_name (Z.of_nat ks.1) +:+ suffix_text ks.2.

(** A text that is empty or starts with a byte that is not a digit. *)
Definition no_digit_head (s : string) : Prop :=
  match s with
  | EmptyString => True
  | String c _ => is_digit c = false
  end.

(** A run of digits followed by such a text can be read in one way only. *)
Lemma digits_prefix (x : string) :
  ∀ y s t : string,
    all_digits x = true → all_digits y = true → no_digit_head s → no_digit_head t →
    x +:+ s = y +:+ t → x = y ∧ s = t.
Proof.
  induction x as [|c x IH]; intros [|d y] s t Hx Hy Hs Ht H.
  - done.
  - change (s = String d (y +:+ t)) in H. subst s. simpl in Hy, Hs.
    apply andb_true_iff in Hy as [Hd _]. congruence.
  - change (String c (x +:+ s) = t) in H. subst t. simpl in Hx, Ht.
    apply andb_true_iff in Hx as [Hc _]. congruence.
  - change (String c (x +:+ s) = String d (y +:+ t)) in H. injection H as -> H.
    simpl in Hx, Hy. apply andb_true_iff in Hx as [_ Hx]. apply andb_true_iff in Hy as [_ Hy].
    destruct (IH y s t Hx Hy Hs Ht H) as [-> ->]. done.
Qed.

Lemma suffix_text_head (s : suffix) : no_digit_head (suffix_text s).
Proof. destruct s; done. Qed.

Lemma Itoa_nat_inj (i j : nat) : Itoa (Z.of_nat i) = Itoa (Z.of_nat j) → i = j.
Proof. intros H. apply Nat2Z.inj. by apply (inj pretty). Qed.

Lemma Itoa_not_ori (i j : nat) : Itoa (Z.of_nat i) ≠ Itoa (Z.of_nat j) +:+ "-ori".
Proof.
  intros H. apply (f_equal all_digits) in H.
  rewrite all_digits_app, !Itoa_digits in H. discriminate.
Qed.

Lemma suffix_text_inj (a b : suffix) : suffix_text a = suffix_text b → a = b.
Proof.
  destruct a, b; intros H; try done;
    try (apply (inj (String.app "-tmp")) in H);
    try (apply (inj (String.app "-cdef")) in H);
    try (apply (inj (String.app "-vdef")) in H);
    try (by apply Itoa_nat_inj in H; subst);
    try (by apply Itoa_not_ori in H);
    try (by symmetry in H; apply Itoa_not_ori in H).
  change (Itoa (Z.of_nat i) +:+ "-ori" = Itoa (Z.of_nat i0) +:+ "-ori") in H.
  destruct (digits_prefix _ _ "-ori" "-ori" (Itoa_digits i) (Itoa_digits i0)
              ltac:(done) ltac:(done) H) as [Hi _].
  by apply Itoa_nat_inj in Hi; subst.
Qed.

Lemma render_inj (a b : nat * suffix) : render a = render b → a = b.
Proof.
  destruct a as [k s], b as [k' s']. unfold render, serie_name. simpl. intros H.
  rewrite !append_assoc in H. apply (inj (String.app "serie")) in H.
  destruct (digits_prefix _ _ _ _ (Itoa_digits k) (Itoa_digits k')
              (suffix_text_head s) (suffix_text_head s') H) as [Hk Hs].
  apply Itoa_nat_inj in Hk. apply suffix_text_inj in Hs. by subst.
Qed.

Lemma append_nil_r (s : string) : s +:+ "" = s.
Proof.
  induction s as [|c s IH]; [done|].
  change (String c (s +:+ "") = String c s). by rewrite IH.
Qed.

Lemma defined_names_app (os1 os2 : list Op) :
  defined_names (os1 ++ os2) = defined_names os1 ++ defined_names os2.
Proof. apply omap_app. Qed.

Lemma defined_scale_op (target source : string) (scale : float64) :
  defined (scale_op target source scale) = Some target.
Proof. unfold scale_op. by destruct (fne0 scale). Qed.

(** The suffixes defined by a statistics block with [np] percentiles. *)
Definition stat_suffixes (np : nat) : list suffix :=
  [Min; Avg; Max; Last] ++ (seq 0 np ≫= λ i, [Cdef i; Vdef i]).

Lemma percentile_names (serieName itemName : string) (percentiles : list float64) :
  ∀ j : nat,
    defined_names (concat (imap (λ i p, percentile_ops serieName itemName (j + i) p)
                                percentiles)) =
    (λ s, serieName +:+ suffix_text s) <$> (seq j (length percentiles) ≫= λ i, [Cdef i; Vdef i]).
Proof.
  induction percentiles as [|p ps IH]; intros j; [done|].
  rewrite imap_cons, concat_cons, defined_names_app. cbn [length seq].
  rewrite bind_cons, fmap_app, Nat.add_0_r. f_equal.
  rewrite <- (IH (S j)). do 2 f_equal. apply imap_ext. intros i x _. simpl.
  by rewrite Nat.add_succ_r.
Qed.

Lemma stat_names (k : nat) (itemName : string) (percentiles : list float64) :
  defined_names (summary_ops (serie_name (Z.of_nat k)) itemName ++
                 concat (imap (percentile_ops (serie_name (Z.of_nat k)) itemName) percentiles)) =
  render <$> (pair k <$> stat_suffixes (length percentiles)).
Proof.
  rewrite defined_names_app. unfold stat_suffixes. rewrite !fmap_app. f_equal.
  rewrite (percentile_names _ _ _ 0), <- list_fmap_compose. done.
Qed.

Lemma none_defs_names (k : nat) (serie : SerieQuery) (m : rrdMetric) (gscale : float64) :
  defined_names (none_defs (serie_name (Z.of_nat k)) serie m gscale) =
  render <$> (pair k <$> [Orig0; Orig1; Self]).
Proof.
  unfold none_defs, defined_names. cbn [omap list_omap].
  rewrite !defined_scale_op. unfold render. simpl. by rewrite append_nil_r.
Qed.

Lemma none_graph_names (rs : list (SerieQuery * rrdMetric)) (gscale : float64)
    (percentiles : list float64) :
  ∀ c : nat,
    defined_names (none_graph_ops (Z.of_nat c) rs gscale percentiles) =
    render <$> (seq c (length rs) ≫=
                λ k, pair k <$> ([Orig0; Orig1; Self] ++ stat_suffixes (length percentiles))).
Proof.
  induction rs as [|[serie m] rest IH]; intros c; [done|].
  cbn [none_graph_ops length seq].
  rewrite bind_cons, (defined_names_app (none_defs _ _ _ _)),
    (defined_names_app (summary_ops _ _ ++ _)), !fmap_app.
  rewrite none_defs_names, stat_names.
  replace (Z.of_nat c + 1) with (Z.of_nat (S c)) by lia. rewrite IH.
  by rewrite <- !(assoc_L (++)).
Qed.

Lemma none_xport_names (rs : list (SerieQuery * rrdMetric)) (gscale : float64) :
  ∀ c : nat,
    defined_names (none_xport_ops (Z.of_nat c) rs gscale) =
    render <$> (seq c (length rs) ≫= λ k, pair k <$> [Orig0; Orig1; Self]).
Proof.
  induction rs as [|[serie m] rest IH]; intros c; [done|].
  cbn [none_xport_ops length seq].
  rewrite bind_cons, (defined_names_app (none_defs _ _ _ _)),
    (defined_names_app [_]), !fmap_app.
  rewrite none_defs_names.
  replace (Z.of_nat c + 1) with (Z.of_nat (S c)) by lia. rewrite IH. done.
Qed.

Lemma contributor_ops_names (cs : list (nat * rrdMetric)) :
  defined_names (contributor_ops "serie0" cs) =
  render <$> (pair 0%nat <$> (cs.*1 ≫= λ i, [TmpOri i; Tmp i])).
Proof.
  unfold contributor_ops. induction cs as [|[i m] cs IH]; [done|].
  cbn [flat_map]. rewrite defined_names_app, IH, fmap_cons, bind_cons, !fmap_app.
  f_equal.
Qed.

Lemma aggr_ops_names (connector : RRDConnector) (query : GroupQuery) :
  defined_names (aggr_ops connector query) =
  render <$> (pair 0%nat <$>
              (((contributors connector (gq_Series query) 0).*1 ≫= λ i, [TmpOri i; Tmp i]) ++
               [Orig; Self])).
Proof.
  unfold aggr_ops. rewrite defined_names_app, contributor_ops_names, !fmap_app. f_equal.
  unfold defined_names. cbn [omap list_omap]. by rewrite defined_scale_op.
Qed.

#[global] Instance render_Inj : Inj (=) (=) render.
Proof. intros a b. apply render_inj. Qed.

Lemma percentile_suffixes (l : list nat) (x : suffix) :
  x ∈ (l ≫= λ i, [Cdef i; Vdef i]) → ∃ i, x = Cdef i ∨ x = Vdef i.
Proof.
  intros (i & Hx & _)%list_elem_of_bind.
  apply elem_of_cons in Hx as [->|Hx]; [by eauto|].
  apply list_elem_of_singleton in Hx as ->. eauto.
Qed.

Lemma percentile_suffixes_NoDup (l : list nat) :
  NoDup l → NoDup (l ≫= λ i, [Cdef i; Vdef i]).
Proof.
  intros Hl. apply NoDup_bind; [|intros; repeat constructor; set_solver|done].
  intros i j y _ _ Hi Hj. set_solver.
Qed.

Lemma stat_suffixes_NoDup (np : nat) : NoDup (stat_suffixes np).
Proof.
  unfold stat_suffixes. apply NoDup_app. split; [repeat constructor; set_solver|].
  split; [|apply percentile_suffixes_NoDup, NoDup_seq].
  intros x Hx [i [-> | ->]]%percentile_suffixes; set_solver.
Qed.

Lemma stat_suffixes_elem (np : nat) (x : suffix) :
  x ∈ stat_suffixes np →
  x ∈ [Min; Avg; Max; Last] ∨ ∃ i, x = Cdef i ∨ x = Vdef i.
Proof.
  unfold stat_suffixes. intros [H|H]%elem_of_app; [by left|right].
  by eapply percentile_suffixes.
Qed.

Lemma blocks_NoDup (c n : nat) (block : list suffix) :
  NoDup block → NoDup (seq c n ≫= λ k, pair k <$> block).
Proof.
  intros Hb. apply NoDup_bind; [| |apply NoDup_seq].
  - intros k1 k2 y _ _ (s1 & -> & _)%list_elem_of_fmap (s2 & Heq & _)%list_elem_of_fmap.
    by injection Heq.
  - intros k _. apply NoDup_fmap_2; [|done]. by intros s1 s2 [=].
Qed.

Lemma none_block_NoDup (np : nat) : NoDup ([Orig0; Orig1; Self] ++ stat_suffixes np).
Proof.
  apply NoDup_app. split; [repeat constructor; set_solver|].
  split; [|apply stat_suffixes_NoDup].
  intros x Hx [H|[i [-> | ->]]]%stat_suffixes_elem; set_solver.
Qed.

Lemma tmp_suffixes_NoDup (l : list nat) : NoDup l → NoDup (l ≫= λ i, [TmpOri i; Tmp i]).
Proof.
  intros Hl. apply NoDup_bind; [|intros; repeat constructor; set_solver|done].
  intros i j y _ _ Hi Hj. set_solver.
Qed.

Lemma tmp_suffixes (l : list nat) (x : suffix) :
  x ∈ (l ≫= λ i, [TmpOri i; Tmp i]) → ∃ i, x = TmpOri i ∨ x = Tmp i.
Proof.
  intros (i & Hx & _)%list_elem_of_bind.
  apply elem_of_cons in Hx as [->|Hx]; [by eauto|].
  apply list_elem_of_singleton in Hx as ->. eauto.
Qed.

Lemma aggr_block_NoDup (l : list nat) (tail : list suffix) :
  NoDup l → NoDup tail → (∀ x, x ∈ tail → ∀ i, x ≠ TmpOri i ∧ x ≠ Tmp i) →
  NoDup ((l ≫= λ i, [TmpOri i; Tmp i]) ++ tail).
Proof.
  intros Hl Ht Hd. apply NoDup_app. split; [by apply tmp_suffixes_NoDup|].
  split; [|done]. intros x [i Hx]%tmp_suffixes Hin.
  destruct (Hd x Hin i). destruct Hx; done.
Qed.

(** Within each of the two programs compiled for a query of a known type,
    no identifier is defined twice. *)
Theorem identifiers_unique (int_overflow_test : float64 → bool)
    (connector : RRDConnector) (query : GroupQuery) (percentiles : list float64)
    (infoOnly : bool) (l : Locals) :
  Forall test_determined percentiles →
  rrdGetData_compile int_overflow_test connector query percentiles infoOnly = Ok l →
  NoDup (defined_names (ops (v_graph l))) ∧
  (∀ xport, v_xport l = Some xport → NoDup (defined_names (ops xport))).
Proof.
  intros Hp H. destruct (gq_Type query) as [| | |code] eqn:Ht.
  - destruct (none_programs _ _ _ _ _ _ Ht Hp H) as (Hg & Hx).
    cbn zeta in Hg, Hx. rewrite Hg, Hx. cbn [ops add_ops].
    rewrite initial_program_ops, !app_nil_l. split.
    + rewrite (none_graph_names _ _ _ 0). apply NoDup_fmap_2; [apply _|].
      apply blocks_NoDup, none_block_NoDup.
    + destruct infoOnly; [done|]. intros xport [= <-]. cbn [ops add_ops].
      rewrite initial_program_ops, app_nil_l, (none_xport_names _ _ 0).
      apply NoDup_fmap_2; [apply _|].
      apply blocks_NoDup. repeat constructor; set_solver.
  - destruct (aggr_programs _ _ _ _ _ _ (or_introl Ht) Hp H) as (Hg & Hx).
    rewrite Hg, Hx. cbn [ops add_ops]. rewrite initial_program_ops, !app_nil_l. split.
    + rewrite defined_names_app, aggr_ops_names, (stat_names 0), <- !fmap_app.
      apply NoDup_fmap_2; [apply _|]. apply NoDup_fmap_2; [by intros ? ? [=]|].
      rewrite <- (assoc_L (++)). apply aggr_block_NoDup.
      * apply contributors_NoDup.
      * apply NoDup_app. split; [repeat constructor; set_solver|].
        split; [|apply stat_suffixes_NoDup].
        intros x Hin [Hs|[i [-> | ->]]]%stat_suffixes_elem; set_solver.
      * intros x [Hin|[Hs|[i [-> | ->]]]%stat_suffixes_elem]%elem_of_app i'; set_solver.
    + destruct infoOnly; [done|]. intros xport [= <-]. cbn [ops add_ops].
      rewrite initial_program_ops, app_nil_l, defined_names_app, aggr_ops_names.
      cbn [defined_names omap list_omap defined]. rewrite app_nil_r.
      apply NoDup_fmap_2; [apply _|]. apply NoDup_fmap_2; [by intros ? ? [=]|].
      apply aggr_block_NoDup; [apply contributors_NoDup|repeat constructor; set_solver|].
      intros x Hin i'. set_solver.
  - destruct (aggr_programs _ _ _ _ _ _ (or_intror Ht) Hp H) as (Hg & Hx).
    rewrite Hg, Hx. cbn [ops add_ops]. rewrite initial_program_ops, !app_nil_l. split.
    + rewrite defined_names_app, aggr_ops_names, (stat_names 0), <- !fmap_app.
      apply NoDup_fmap_2; [apply _|]. apply NoDup_fmap_2; [by intros ? ? [=]|].
      rewrite <- (assoc_L (++)). apply aggr_block_NoDup.
      * apply contributors_NoDup.
      * apply NoDup_app. split; [repeat constructor; set_solver|].
        split; [|apply stat_suffixes_NoDup].
        intros x Hin [Hs|[i [-> | ->]]]%stat_suffixes_elem; set_solver.
      * intros x [Hin|[Hs|[i [-> | ->]]]%stat_suffixes_elem]%elem_of_app i'; set_solver.
    + destruct infoOnly; [done|]. intros xport [= <-]. cbn [ops add_ops].
      rewrite initial_program_ops, app_nil_l, defined_names_app, aggr_ops_names.
      cbn [defined_names omap list_omap defined]. rewrite app_nil_r.
      apply NoDup_fmap_2; [apply _|]. apply NoDup_fmap_2; [by intros ? ? [=]|].
      apply aggr_block_NoDup; [apply contributors_NoDup|repeat constructor; set_solver|].
      intros x Hin i'. set_solver.
  - unfold rrdGetData_compile in H. rewrite Ht in H. discriminate.
Qed.

(** ** From the exported table to sample sequences *)

(** The column of a legend in the row-major table of an export. *)
Definition column (tbl : XportData) (legend : nat) : list float64 :=
  omap (λ row, values tbl !! (length (Legends tbl) * row + legend)%nat)
       (seq 0 (RowCnt tbl)).

Definition full_table (tbl : XportData) : Prop :=
  length (values tbl) = (length (Legends tbl) * RowCnt tbl)%nat.

Lemma length_omap_total {A B : Type} (f : A → option B) (l : list A) :
  (∀ x, x ∈ l → is_Some (f x)) → length (omap f l) = length l.
Proof.
  induction l as [|x l IH]; intros H; [done|]. simpl.
  destruct (H x) as [y ->]; [by left|]. simpl. f_equal. apply IH.
  intros z Hz. apply H. by right.
Qed.

Lemma full_table_cell (tbl : XportData) (legend row : nat) :
  full_table tbl → (legend < length (Legends tbl))%nat → (row < RowCnt tbl)%nat →
  is_Some (values tbl !! (length (Legends tbl) * row + legend)%nat).
Proof. intros Hfull Hl Hr. apply lookup_lt_is_Some. rewrite Hfull. nia. Qed.

Lemma column_length (tbl : XportData) (legend : nat) :
  full_table tbl → (legend < length (Legends tbl))%nat →
  length (column tbl legend) = RowCnt tbl.
Proof.
  intros Hfull Hl. unfold column. rewrite length_omap_total, length_seq; [done|].
  intros row Hrow%elem_of_seq. apply full_table_cell; [done|done|lia].
Qed.

(** The loop over the rows of one column. *)
Lemma fill_rows (data : XportResult) (legend : nat) (label : string) (n : nat) :
  ∀ (result : gmap string PlotResult) (r0 : PlotResult),
    result !! label = Some r0 →
    (∀ row, (row < n)%nat →
            is_Some (values (table data) !!
                     (length (Legends (table data)) * row + legend)%nat)) →
    foldM (λ result i,
             v ← ValueAt data legend i;
             Ok (alter (λ r, {| Plots := Plots r ++ [v]; Info := Info r |}) label result))
          (seq 0 n) result =
    Ok (<[label := {| Plots := Plots r0 ++
                        omap (λ row, values (table data) !!
                                     (length (Legends (table data)) * row + legend)%nat)
                             (seq 0 n);
                      Info := Info r0 |}]> result).
Proof.
  induction n as [|n IH]; intros result r0 Hr0 Hcells.
  - simpl. rewrite app_nil_r. f_equal. symmetry. rewrite insert_id; [done|].
    by destruct r0.
  - rewrite seq_S, foldM_app, (IH result r0 Hr0) by (intros; apply Hcells; lia).
    simpl. unfold ValueAt. destruct (Hcells n ltac:(lia)) as [v Hv]. rewrite Hv. simpl.
    f_equal. rewrite omap_app. simpl. rewrite Hv. simpl.
    rewrite alter_insert_eq. simpl. by rewrite <- (assoc_L (++)).
Qed.

Section Columns.

Variable series : gmap string string.
Variable data : XportResult.

Hypothesis table_full : full_table (table data).

(** The label a legend is filed under. *)
Definition label_of (legend : string) : string := default "" (series !! legend).

Lemma fill_column_run (legend : nat) (label : string) (result : gmap string PlotResult) :
  (legend < length (Legends (table data)))%nat →
  fill_column data legend label (<[label := new_PlotResult]> result) =
  Ok (<[label := {| Plots := column (table data) legend; Info := ∅ |}]> result).
Proof.
  intros Hl. unfold fill_column.
  rewrite (fill_rows data legend label _ _ new_PlotResult (lookup_insert_eq _ _ _)).
  - simpl. by rewrite insert_insert_eq.
  - intros row Hrow. by apply full_table_cell.
Qed.

Lemma fill_result_run (ls : list string) :
  ∀ (first : nat) (result : gmap string PlotResult),
    (first + length ls ≤ length (Legends (table data)))%nat →
    ∃ r,
      range_foldM (λ result index serieName,
                     fill_column data index (label_of serieName)
                                 (<[label_of serieName := new_PlotResult]> result))
                  ls first result = Ok r ∧
      (∀ k legend,
         ls !! k = Some legend →
         (∀ k' legend', (k < k')%nat → ls !! k' = Some legend' →
                        label_of legend' ≠ label_of legend) →
         r !! label_of legend =
         Some {| Plots := column (table data) (first + k); Info := ∅ |}) ∧
      (∀ label, (∀ legend, legend ∈ ls → label_of legend ≠ label) →
                r !! label = result !! label).
Proof.
  induction ls as [|legend0 rest IH]; intros first result Hlen.
  { exists result. split; [done|]. split; [by intros ? ? ?|done]. }
  cbn [range_foldM]. simpl in Hlen. rewrite fill_column_run by lia. simpl.
  destruct (IH (S first)
              (<[label_of legend0 := {| Plots := column (table data) first; Info := ∅ |}]>
                 result) ltac:(lia)) as (r & Hrun & Hcols & Hother).
  exists r. split; [done|]. split.
  - intros [|k] legend Hk Hlater.
    + injection Hk as ->. rewrite Hother, lookup_insert_eq, Nat.add_0_r; [done|].
      intros legend' Hin. apply list_elem_of_lookup in Hin as [k' Hk'].
      apply (Hlater (S k')); [lia|done].
    + replace (first + S k)%nat with (S first + k)%nat by lia.
      apply Hcols; [done|]. intros k' legend' Hlt Hk'.
      apply (Hlater (S k')); [lia|done].
  - intros label Hlabel. rewrite Hother.
    + apply lookup_insert_ne. apply Hlabel. by left.
    + intros legend Hin. apply Hlabel. by right.
Qed.

(** Given a table with a value for every legend and row, the loop over the
    legends completes and files each column, in row order, under the label of
    its legend; when several legends have the same label the last of them
    wins.  Results under other labels are left as they were. *)
Theorem fill_result_columns (result : gmap string PlotResult) :
  ∃ r,
    fill_result series data result = Ok r ∧
    (∀ k legend,
       Legends (table data) !! k = Some legend →
       (∀ k' legend', (k < k')%nat → Legends (table data) !! k' = Some legend' →
                      label_of legend' ≠ label_of legend) →
       r !! label_of legend = Some {| Plots := column (table data) k; Info := ∅ |} ∧
       length (column (table data) k) = RowCnt (table data)) ∧
    (∀ label, (∀ legend, legend ∈ Legends (table data) → label_of legend ≠ label) →
              r !! label = result !! label).
Proof.
  destruct (fill_result_run (Legends (table data)) 0 result ltac:(simpl; lia))
    as (r & Hrun & Hcols & Hother).
  exists r. split; [exact Hrun|]. split; [|done].
  intros k legend Hk Hlater. split; [by apply (Hcols k legend Hk Hlater)|].
  apply column_length; [done|]. by eapply lookup_lt_Some.
Qed.

End Columns.

(** ** What a merge leaves in the result *)

(** The statistic a list of lines leaves for a label and key: the value of
    the last line naming both, and the one held before when no line does. *)
Fixpoint last_stat (ParseFloat : string → option float64) (lines : list string)
    (label key : string) (held : option float64) : option float64 :=
  match lines with
  | [] => held
  | line :: lines =>
      last_stat ParseFloat lines label key
        (match SplitN line comma 3 with
         | [c0; c1; c2] =>
             if decide (label = c0 ∧ key = c1) then Some (parsed ParseFloat c2) else held
         | _ => held
         end)
  end.

(** A line whose first field is the label. *)
Definition names_label (line label : string) : Prop :=
  ∃ c1 c2, SplitN line comma 3 = [label; c1; c2].

Lemma store_present (data : gmap string PlotResult) (c0 c1 : string) (x : float64)
    (label : string) :
  is_Some (store c0 c1 x data !! label) ↔ is_Some (data !! label) ∨ label = c0.
Proof.
  unfold store. destruct (decide (label = c0)) as [->|Hl].
  - rewrite lookup_alter_eq. destruct (data !! c0) as [r|] eqn:E.
    + rewrite E. simpl. split; [by left|by eauto].
    + rewrite lookup_insert_eq. simpl. split; [by right|by eauto].
  - rewrite lookup_alter_ne by done. destruct (data !! c0) eqn:E.
    + split; [by left|]. by intros [?|?].
    + rewrite lookup_insert_ne by done. split; [by left|]. by intros [?|?].
Qed.

Lemma last_stat_held (ParseFloat : string → option float64) (lines : list string)
    (label key : string) (held : option float64) :
  last_stat ParseFloat lines label key held =
  match last_stat ParseFloat lines label key None with
  | Some x => Some x
  | None => held
  end.
Proof.
  revert held. induction lines as [|line lines IH]; intros held; simpl; [done|].
  rewrite IH. symmetry. rewrite IH. symmetry.
  destruct (last_stat ParseFloat lines label key None); [done|].
  repeat case_match; done.
Qed.

Lemma last_stat_idemp (ParseFloat : string → option float64) (lines : list string)
    (label key : string) (held : option float64) :
  last_stat ParseFloat lines label key (last_stat ParseFloat lines label key held) =
  last_stat ParseFloat lines label key held.
Proof.
  rewrite (last_stat_held _ _ _ _ (last_stat _ _ _ _ held)).
  rewrite (last_stat_held _ _ _ _ held).
  by destruct (last_stat ParseFloat lines label key None).
Qed.

(** Two results with the same labels, samples and statistics are equal. *)
Lemma result_eq (d1 d2 : gmap string PlotResult) :
  (∀ l, samples d1 l = samples d2 l) →
  (∀ l k, stat d1 l k = stat d2 l k) →
  (∀ l, is_Some (d1 !! l) ↔ is_Some (d2 !! l)) →
  d1 = d2.
Proof.
  intros Hsamples Hstat Hdom. apply map_eq. intros l.
  specialize (Hsamples l). specialize (Hstat l). specialize (Hdom l).
  unfold samples, stat in *.
  destruct (d1 !! l) as [[p1 i1]|], (d2 !! l) as [[p2 i2]|]; simpl in *.
  - f_equal. f_equal; [done|]. apply map_eq. exact Hstat.
  - destruct Hdom as [Hdom _]. by destruct (Hdom ltac:(eauto)).
  - destruct Hdom as [_ Hdom]. by destruct (Hdom ltac:(eauto)).
  - done.
Qed.

Section MergeResult.

Variable ParseFloat : string → option float64.

Lemma rrdParseInfo_lines (lines : list string) :
  ∀ (data d : gmap string PlotResult),
    foldM (rrdParseInfo_line ParseFloat) lines data = Ok d →
    ∀ label,
      (∀ key, stat d label key =
              last_stat ParseFloat lines label key (stat data label key)) ∧
      (is_Some (d !! label) ↔
       is_Some (data !! label) ∨ ∃ line, line ∈ lines ∧ names_label line label).
Proof.
  induction lines as [|line lines IH]; intros data d H label;
    cbn [last_stat]; cbn [foldM] in H.
  - injection H as <-. split; [done|]. split; [by left|].
    intros [?|(line & Hin & _)]; [done|]. by apply elem_of_nil in Hin.
  - destruct (rrdParseInfo_line ParseFloat data line) as [data'| |] eqn:E;
      simpl in H; try discriminate.
    apply rrdParseInfo_line_inv in E as (c0 & c1 & c2 & Hs & ->).
    destruct (IH _ _ H label) as [Hstat Hdom]. split.
    + intros key. rewrite Hstat, Hs, stat_store. done.
    + rewrite Hdom, store_present. split.
      * intros [[?| ->]|(l' & Hin & Hl')]; [by left| |].
        -- right. exists line. split; [by left|]. by exists c1, c2.
        -- right. exists l'. split; [by right|done].
      * intros [?|(l' & Hin & Hl')]; [by left; left|].
        apply elem_of_cons in Hin as [->|Hin].
        -- destruct Hl' as (c1' & c2' & Hs'). rewrite Hs in Hs'.
           injection Hs' as -> _ _. by left; right.
        -- right. by exists l'.
Qed.

(** What a completed merge leaves: the samples of every label as they were;
    for every label and key the value of the last line naming both (not a
    number when its third field does not parse), or the statistic held
    before when no line names them; and a result under exactly the labels
    that had one or are named by a line. *)
Theorem rrdParseInfo_result (info : GraphInfo) (data d : gmap string PlotResult) :
  rrdParseInfo ParseFloat info data = Ok d →
  ∀ label,
    samples d label = samples data label ∧
    (∀ key, stat d label key =
            last_stat ParseFloat (InfoPrint info) label key (stat data label key)) ∧
    (is_Some (d !! label) ↔
     is_Some (data !! label) ∨ ∃ line, line ∈ InfoPrint info ∧ names_label line label).
Proof.
  unfold rrdParseInfo. intros H label. split.
  - apply (rrdParseInfo_samples _ _ _ _ H).
  - apply (rrdParseInfo_lines _ _ _ H).
Qed.

Lemma rrdParseInfo_runs (lines : list string) :
  ∀ (dA dB d0 : gmap string PlotResult),
    foldM (rrdParseInfo_line ParseFloat) lines dB = Ok d0 →
    ∃ d1, foldM (rrdParseInfo_line ParseFloat) lines dA = Ok d1.
Proof.
  induction lines as [|line lines IH]; simpl; intros dA dB d0 H; [by eauto|].
  destruct (rrdParseInfo_line ParseFloat dB line) as [dB'| |] eqn:E;
    simpl in H; try discriminate.
  apply rrdParseInfo_line_inv in E as (c0 & c1 & c2 & Hs & ->).
  rewrite (rrdParseInfo_line_fields _ dA _ _ _ _ Hs). simpl. by eapply IH.
Qed.

(** Merging the same lines a second time changes nothing. *)
Theorem rrdParseInfo_twice (info : GraphInfo) (data d : gmap string PlotResult) :
  rrdParseInfo ParseFloat info data = Ok d →
  rrdParseInfo ParseFloat info d = Ok d.
Proof.
  unfold rrdParseInfo. intros H.
  destruct (rrdParseInfo_runs _ d _ _ H) as [d1 H1]. rewrite H1. f_equal.
  apply result_eq.
  - intros l. apply (rrdParseInfo_samples _ _ _ _ H1).
  - intros l k.
    destruct (rrdParseInfo_lines _ _ _ H1 l) as [-> _].
    destruct (rrdParseInfo_lines _ _ _ H l) as [-> _].
    apply last_stat_idemp.
  - intros l.
    destruct (rrdParseInfo_lines _ _ _ H1 l) as [_ ->].
    destruct (rrdParseInfo_lines _ _ _ H l) as [_ Hd].
    rewrite Hd. tauto.
Qed.

End MergeResult.

(** ** A query that succeeds *)

Lemma fill_result_no_stats (series : gmap string string) (data : XportResult)
    (ls : list string) :
  full_table (table data) →
  ∀ (first : nat) (result r : gmap string PlotResult),
    (first + length ls ≤ length (Legends (table data)))%nat →
    range_foldM (λ result index serieName,
                   fill_column data index (label_of series serieName)
                               (<[label_of series serieName := new_PlotResult]> result))
                ls first result = Ok r →
    (∀ label key, stat result label key = None) →
    ∀ label key, stat r label key = None.
Proof.
  intros Hfull. induction ls as [|legend0 rest IH]; intros first result r Hlen Hrun Hnone.
  { injection Hrun as <-. done. }
  cbn [range_foldM] in Hrun. simpl in Hlen.
  rewrite (fill_column_run data Hfull) in Hrun by lia. simpl in Hrun.
  eapply IH; [|exact Hrun|]; [lia|]. intros label key. unfold stat.
  destruct (decide (label = label_of series legend0)) as [->|Hne].
  - by rewrite lookup_insert_eq.
  - rewrite lookup_insert_ne by done. apply Hnone.
Qed.

Lemma rrdParseInfo_completes (ParseFloat : string → option float64) (lines : list string) :
  Forall (λ line, (2 ≤ count_byte comma line)%nat) lines →
  ∀ data, ∃ d, foldM (rrdParseInfo_line ParseFloat) lines data = Ok d.
Proof.
  induction 1 as [|line lines Hline _ IH]; intros data; cbn [foldM]; [by eauto|].
  destruct (SplitN3_fields _ Hline) as (c0 & c1 & c2 & Hs).
  rewrite (rrdParseInfo_line_fields _ data _ _ _ _ Hs). apply IH.
Qed.

(** When both engine runs succeed, the export table holds a value for every
    legend and row and every statistic line has three fields, the query
    returns a result in which a label has the column of the last legend
    filed under it as its samples, no samples when no legend is filed under
    it, and as statistics exactly those of the statistic lines: for a label
    and key the value of the last line naming both. *)
Theorem GetPlots_result
    (int_overflow_test : float64 → bool)
    (Xport : Exporter → Z → Z → Z → XportData + string)
    (Graph : Grapher → Z → Z → GraphInfo + string)
    (ParseFloat : string → option float64)
    (w : World) (startTime endTime step : Z) (percentiles : list float64)
    (l : Locals) (xport : Exporter) (tbl : XportData) (info : GraphInfo) :
  gq_Series (w_query w) ≠ [] →
  rrdGetData_compile int_overflow_test (w_connector w) (guarded (w_query w))
                     percentiles false = Ok l →
  v_xport l = Some xport →
  Xport xport startTime endTime step = inl tbl →
  full_table tbl →
  Graph (v_graph l) startTime endTime = inl info →
  Forall (λ line, (2 ≤ count_byte comma line)%nat) (InfoPrint info) →
  ∃ result,
    (GetPlots int_overflow_test Xport Graph ParseFloat w startTime endTime step
              percentiles).2 = Ok result ∧
    (∀ k legend,
       Legends tbl !! k = Some legend →
       (∀ k' legend', (k < k')%nat → Legends tbl !! k' = Some legend' →
                      label_of (v_series l) legend' ≠ label_of (v_series l) legend) →
       samples result (label_of (v_series l) legend) = column tbl k) ∧
    (∀ label, (∀ legend, legend ∈ Legends tbl → label_of (v_series l) legend ≠ label) →
              samples result label = []) ∧
    (∀ label key,
       stat result label key = last_stat ParseFloat (InfoPrint info) label key None).
Proof.
  intros Hne Hc Hx Hr Hfull Hg Hlines.
  set (data := {| table := tbl; buffer := Some (fresh (w_live w)) |}).
  destruct (fill_result_run (v_series l) data Hfull (Legends tbl) 0 ∅ ltac:(simpl; lia))
    as (r & Hfill & Hcols & Hother).
  change (fill_result (v_series l) data ∅ = Ok r) in Hfill.
  destruct (rrdParseInfo_completes ParseFloat _ Hlines r) as [result Hmerge].
  exists result. split.
  - unfold GetPlots. rewrite rrdGetData_guarded by done.
    unfold rrdGetData_execute. simpl. rewrite Hc, Hx, Hr. fold data.
    rewrite Hfill, Hg. unfold rrdParseInfo. by rewrite Hmerge.
  - split; [|split].
    + intros k legend Hk Hlater.
      rewrite (rrdParseInfo_samples _ _ _ _ Hmerge). unfold samples.
      by rewrite (Hcols k legend Hk Hlater).
    + intros label Hlabel.
      rewrite (rrdParseInfo_samples _ _ _ _ Hmerge). unfold samples.
      by rewrite (Hother label Hlabel), lookup_empty.
    + intros label key.
      destruct (rrdParseInfo_lines _ _ _ _ Hmerge label) as [-> _]. f_equal.
      apply (fill_result_no_stats (v_series l) data (Legends tbl) Hfull 0 ∅ r);
        [simpl; lia|exact Hfill|].
      intros label' key'. unfold stat. by rewrite lookup_empty.
Qed.

(** ** The properties above on the running examples *)

(** A pattern with a capture group named [host]. *)
Definition re_host_metric : Regexp :=
  {| SubexpNames := [""; "host"; "metric"]; FindStringSubmatch := λ _, [] |}.

Definition Compile_host_metric (_ : string) : option Regexp := Some re_host_metric.

(** A tree whose second directory cannot be read. *)
Definition visit_denied (path : string) : FileVisit :=
  {| fv_path := path; fv_special := true; fv_err := Some "permission denied" |}.

Definition tree_denied (_ : string) : list FileVisit :=
  [visit_dir "/var/lib/rrd"; visit_dir "/var/lib/rrd/web1";
   visit_file "/var/lib/rrd/web1/cpu.rrd"] ++
  visit_denied "/var/lib/rrd/web2" :: [visit_file "/var/lib/rrd/web1/load.rrd"].

(** An archive reader that fails on every file. *)
Definition Info_failing (_ : string) : string + option (list string) :=
  inl "opening file: Permission denied".

Lemma re_source_metric_ok : pattern_keywords_ok re_source_metric.
Proof.
  split; [|split].
  - apply Forall_cons. split; [by left|].
    apply Forall_cons. split; [by right; left|].
    apply Forall_cons. split; [by right; right|]. constructor.
  - simpl. apply list_elem_of_further, list_elem_of_here.
  - simpl. do 2 apply list_elem_of_further. apply list_elem_of_here.
Qed.

Lemma re_host_metric_bad : ¬ pattern_keywords_ok re_host_metric.
Proof.
  intros [Hall _]. simpl in Hall.
  apply Forall_cons in Hall as [_ Hall]. apply Forall_cons in Hall as [Hhost _].
  by destruct Hhost as [?|[?|?]].
Qed.

(** The first refresh of a new connector closes its two channels. *)
Lemma Refresh_closes_once_witness :
  d_output (Refresh Compile_source_metric Info_web1 tree_before
                    (with_new_channels connector_new)).1 =
  {| closed := true;
     sent := sent (d_output (Refresh_body Compile_source_metric Info_web1 tree_before
                                          (with_new_channels connector_new)).1) |}.
Proof.
  exact (proj1 (proj2 (proj2
    (Refresh_closes_once Compile_source_metric Info_web1 tree_before
                         (with_new_channels connector_new) eq_refl eq_refl)))).
Defined.

(** The pattern with a group [host] is refused. *)
Lemma Refresh_refuses_pattern_witness :
  ∃ msg,
    Refresh Compile_host_metric Info_web1 tree_before (with_new_channels connector_new) =
    ({| d_connector := connector_new;
        d_output := {| closed := true; sent := [] |};
        d_errChan := {| closed := true; sent := [] ++ [msg] |} |}, Ok ()).
Proof.
  exact (Refresh_refuses_pattern Compile_host_metric Info_web1 tree_before
           (with_new_channels connector_new) re_host_metric
           eq_refl re_host_metric_bad eq_refl eq_refl).
Defined.

(** The walk over the tree with an unreadable directory stops there: the
    archive visited before it is in the catalog, the one after it is not. *)
Lemma Refresh_stops_at_walk_error_witness :
  sent (d_errChan (Refresh Compile_source_metric Info_web1 tree_denied
                           (with_new_channels connector_new)).1) =
  [] ++ ["permission denied"] ∧
  sent (d_output (Refresh Compile_source_metric Info_web1 tree_denied
                          (with_new_channels connector_new)).1) =
  [("web1", "cpu/value")].
Proof.
  destruct (Refresh_stops_at_walk_error Compile_source_metric Info_web1 tree_denied
              (with_new_channels connector_new)
              (foldS (walkFunc Info_web1 re_source_metric)
                     [visit_dir "/var/lib/rrd"; visit_dir "/var/lib/rrd/web1";
                      visit_file "/var/lib/rrd/web1/cpu.rrd"]
                     (with_new_channels connector_new)).1
              re_source_metric
              [visit_dir "/var/lib/rrd"; visit_dir "/var/lib/rrd/web1";
               visit_file "/var/lib/rrd/web1/cpu.rrd"]
              [visit_file "/var/lib/rrd/web1/load.rrd"]
              (visit_denied "/var/lib/rrd/web2") "permission denied"
              eq_refl re_source_metric_ok eq_refl eq_refl
              ltac:(vm_compute; reflexivity) eq_refl) as (Herr & _ & Hout).
  split; [exact Herr|]. rewrite Hout. vm_compute. reflexivity.
Defined.

(** The archive [web1/cpu.rrd] yields the pair of its dataset [value]. *)
Lemma walkFunc_discovers_witness :
  sent (d_output (walkFunc Info_web1 re_source_metric (with_new_channels connector_new)
                           (visit_file "/var/lib/rrd/web1/cpu.rrd")).1) =
  [] ++ map (λ ds, ("web1", "cpu" +:+ "/" +:+ ds)) ["value"].
Proof.
  exact (proj1 (proj2
    (walkFunc_discovers Info_web1 re_source_metric (with_new_channels connector_new)
       (visit_file "/var/lib/rrd/web1/cpu.rrd")
       "web1/cpu.rrd" "source" "web1/cpu.rrd" "web1" "cpu" [] ["value"] "web1" "cpu"
       eq_refl eq_refl eq_refl eq_refl eq_refl eq_refl eq_refl eq_refl))).
Defined.

(** With a reader that fails, the same archive yields nothing but its source. *)
Lemma walkFunc_unreadable_witness :
  d_output (walkFunc Info_failing re_source_metric (with_new_channels connector_new)
                     (visit_file "/var/lib/rrd/web1/cpu.rrd")).1 = open_chan ∧
  is_Some (catalog_of (walkFunc Info_failing re_source_metric
                                (with_new_channels connector_new)
                                (visit_file "/var/lib/rrd/web1/cpu.rrd")).1 !! "web1").
Proof.
  destruct (walkFunc_unreadable Info_failing re_source_metric
              (with_new_channels connector_new) (visit_file "/var/lib/rrd/web1/cpu.rrd")
              "web1/cpu.rrd" "source" "web1/cpu.rrd" "web1" "cpu" [] "web1" "cpu"
              eq_refl eq_refl eq_refl eq_refl eq_refl eq_refl
              ltac:(intros dsNames; discriminate)) as (_ & Hout & _ & _ & Hsrc).
  split; [exact Hout|exact Hsrc].
Defined.

(** A group of two series with an aggregation type the connector does not
    know. *)
Definition other_of_two : GroupQuery :=
  {| gq_Name := "group"; gq_Type := OperGroupTypeOther 7;
     gq_Series := [serie_cpu; serie_load]; gq_Scale := float64_zero |}.

(** An export engine that fails. *)
Definition Xport_failing (_ : Exporter) (_ _ _ : Z) : XportData + string :=
  inr "rrd: export failed".

(** An export of two legends over two rows. *)
Definition table_2x2 : XportData :=
  {| Legends := ["serie0"; "serie1"]; RowCnt := 2;
     values := [Fin false 1 1; Fin false 2 1; Fin false 3 1; Fin false 4 1] |}.

Definition labels_cpu_load : gmap string string :=
  <["serie0" := "cpu"]> (<["serie1" := "load"]> ∅).

Lemma percentiles_50_99_9 : Forall test_determined [f50; f99_9].
Proof. repeat constructor; vm_compute; eauto. Qed.

(** The average over three series, one without a metric, compiles. *)
Lemma rrdGetData_compile_completes_witness :
  ∃ l, rrdGetData_compile (λ _, true) catalog_web1 avg_of_three [] false = Ok l.
Proof.
  apply (proj1 (rrdGetData_compile_completes (λ _, true) catalog_web1 avg_of_three [] false
                  ltac:(intros code; discriminate))).
  repeat (apply Forall_cons; split; [reflexivity|]). constructor.
Defined.

(** The group of unknown type is refused with its type code. *)
Lemma rrdGetData_unknown_type_witness :
  rrdGetData (λ _, true) Xport_one Graph_one ParseFloat_sample (world_of other_of_two)
             0 3600 60 [] false =
  (world_of other_of_two, Err ("unknown `" +:+ Itoa 7 +:+ "' operator type")).
Proof.
  apply (rrdGetData_unknown_type (λ _, true) Xport_one Graph_one ParseFloat_sample
           (world_of other_of_two) 0 3600 60 [] false 7 eq_refl ltac:(discriminate)).
  simpl. lia.
Defined.

(** With a failing export engine the query for one series returns its error. *)
Lemma rrdGetData_export_error_witness :
  rrdGetData (λ _, true) Xport_failing Graph_one ParseFloat_sample (world_of one_series)
             0 3600 60 [] false =
  (set_query (guarded (w_query (world_of one_series))) (world_of one_series),
   Err "rrd: export failed").
Proof.
  destruct one_series_compiles as (l & xport & Hl & Hx).
  exact (rrdGetData_export_error (λ _, true) Xport_failing Graph_one ParseFloat_sample
           (world_of one_series) 0 3600 60 [] l xport "rrd: export failed"
           ltac:(discriminate) Hl Hx eq_refl).
Defined.

(** The programs of the query for one series. *)
Lemma rrdGetData_compile_none_witness :
  ∃ l,
    rrdGetData_compile (λ _, true) catalog_web1 one_series [f50; f99_9] false = Ok l ∧
    v_graph l =
      add_ops (none_graph_ops 0 (resolved catalog_web1 (gq_Series one_series))
                              (gq_Scale one_series) [f50; f99_9])
              (initial_program catalog_web1) ∧
    v_xport l =
      Some (add_ops (none_xport_ops 0 (resolved catalog_web1 (gq_Series one_series))
                                    (gq_Scale one_series))
                    (initial_program catalog_web1)).
Proof.
  destruct (rrdGetData_compile (λ _, true) catalog_web1 one_series [f50; f99_9] false)
    as [l| |] eqn:Hl; [|vm_compute in Hl; discriminate..].
  exists l. split; [reflexivity|].
  destruct (rrdGetData_compile_none (λ _, true) catalog_web1 one_series [f50; f99_9] false l
              eq_refl percentiles_50_99_9 Hl) as (_ & _ & _ & Hg & Hx).
  split; [exact Hg|exact Hx].
Defined.

(** The programs of the average over three series. *)
Lemma rrdGetData_compile_aggr_programs_witness :
  ∃ l,
    rrdGetData_compile (λ _, true) catalog_web1 avg_of_three [f50; f99_9] false = Ok l ∧
    v_xport l =
      Some (add_ops (aggr_ops catalog_web1 avg_of_three ++ [OpXportDef "serie0" "serie0"])
                    (initial_program catalog_web1)) ∧
    v_series l = {["serie0" := "group"]}.
Proof.
  destruct (rrdGetData_compile (λ _, true) catalog_web1 avg_of_three [f50; f99_9] false)
    as [l| |] eqn:Hl; [|vm_compute in Hl; discriminate..].
  exists l. split; [reflexivity|].
  destruct (rrdGetData_compile_aggr_programs (λ _, true) catalog_web1 avg_of_three
              [f50; f99_9] false l (or_introl eq_refl) percentiles_50_99_9 Hl)
    as (_ & Hx & Hs & _).
  split; [exact Hx|exact Hs].
Defined.

(** The graph program of the sum over three series defines no identifier
    twice. *)
Lemma identifiers_unique_witness :
  ∃ l,
    rrdGetData_compile (λ _, true) catalog_web1 sum_of_three [f50; f99_9] false = Ok l ∧
    NoDup (defined_names (ops (v_graph l))).
Proof.
  destruct (rrdGetData_compile (λ _, true) catalog_web1 sum_of_three [f50; f99_9] false)
    as [l| |] eqn:Hl; [|vm_compute in Hl; discriminate..].
  exists l. split; [reflexivity|].
  exact (proj1 (identifiers_unique (λ _, true) catalog_web1 sum_of_three [f50; f99_9] false l
                  percentiles_50_99_9 Hl)).
Defined.

(** The table of two legends over two rows is filed under [cpu] and [load]. *)
Lemma fill_result_columns_witness :
  ∃ r,
    fill_result labels_cpu_load {| table := table_2x2; buffer := None |} ∅ = Ok r ∧
    r !! "cpu" = Some {| Plots := column table_2x2 0; Info := ∅ |}.
Proof.
  destruct (fill_result_columns labels_cpu_load {| table := table_2x2; buffer := None |}
              eq_refl ∅) as (r & Hfill & Hcols & _).
  exists r. split; [exact Hfill|].
  apply (Hcols 0%nat "serie0" eq_refl).
  intros [|[|k']] legend' Hlt Hk'; [lia| |discriminate].
  injection Hk' as <-. discriminate.
Defined.

(** Three statistic lines of one label, the second overriding the first. *)
Lemma rrdParseInfo_result_witness :
  ∃ d,
    rrdParseInfo ParseFloat_sample
                 {| InfoPrint := ["cpu,min,-nan"; "cpu,min,1.5"; "cpu,max,1.5"] |} ∅ = Ok d ∧
    stat d "cpu" "min" =
    last_stat ParseFloat_sample ["cpu,min,-nan"; "cpu,min,1.5"; "cpu,max,1.5"]
              "cpu" "min" (stat ∅ "cpu" "min").
Proof.
  destruct (rrdParseInfo ParseFloat_sample
              {| InfoPrint := ["cpu,min,-nan"; "cpu,min,1.5"; "cpu,max,1.5"] |} ∅)
    as [d| |] eqn:E; [|vm_compute in E; discriminate..].
  exists d. split; [reflexivity|].
  exact (proj1 (proj2 (rrdParseInfo_result ParseFloat_sample _ ∅ d E "cpu")) "min").
Defined.

(** Merging these three lines again leaves the result as it is. *)
Lemma rrdParseInfo_twice_witness :
  ∃ d,
    rrdParseInfo ParseFloat_sample
                 {| InfoPrint := ["cpu,min,-nan"; "cpu,min,1.5"; "cpu,max,1.5"] |} ∅ = Ok d ∧
    rrdParseInfo ParseFloat_sample
                 {| InfoPrint := ["cpu,min,-nan"; "cpu,min,1.5"; "cpu,max,1.5"] |} d = Ok d.
Proof.
  destruct (rrdParseInfo ParseFloat_sample
              {| InfoPrint := ["cpu,min,-nan"; "cpu,min,1.5"; "cpu,max,1.5"] |} ∅)
    as [d| |] eqn:E; [|vm_compute in E; discriminate..].
  exists d. split; [reflexivity|].
  exact (rrdParseInfo_twice ParseFloat_sample _ ∅ d E).
Defined.

(** The query for one series against the engine of one sample and one
    statistic line. *)
Lemma GetPlots_result_witness :
  ∃ result,
    (GetPlots (λ _, true) Xport_one Graph_one ParseFloat_sample (world_of one_series)
              0 3600 60 []).2 = Ok result ∧
    ∀ label key,
      stat result label key = last_stat ParseFloat_sample ["cpu,min,1.5"] label key None.
Proof.
  destruct one_series_compiles as (l & xport & Hl & Hx).
  destruct (GetPlots_result (λ _, true) Xport_one Graph_one ParseFloat_sample
              (world_of one_series) 0 3600 60 [] l xport
              {| Legends := ["serie0"]; RowCnt := 1; values := [Fin false 3 2] |}
              {| InfoPrint := ["cpu,min,1.5"] |}
              ltac:(discriminate) Hl Hx eq_refl eq_refl eq_refl
              ltac:(repeat constructor)) as (result & Hrun & _ & _ & Hstat).
  exists result. split; [exact Hrun|exact Hstat].
Defined.

(** ** The path handed to the pattern *)

Lemma slice_from_short (s : string) :
  ∀ i, (String.length s < i)%nat → slice_from s i = None.
Proof.
  induction s as [|c r IH]; intros [|i] H; simpl in *; try lia; [done|].
  apply IH. lia.
Qed.

Lemma slice_from_app (prefix rel : string) :
  slice_from (prefix +:+ rel) (String.length prefix) = Some rel.
Proof. induction prefix as [|c r IH]; simpl; [by destruct rel|exact IH]. Qed.

(** The visit of a regular file whose path is not longer than the root of
    the connector panics on the slice that cuts the root off. *)
Theorem walkFunc_short_path (rrd_Info : string → string + option (list string))
    (re : Regexp) (st : Discovery) (v : FileVisit) :
  fv_err v = None → fv_special v = false →
  (String.length (fv_path v) ≤ String.length (Path (d_connector st)))%nat →
  walkFunc rrd_Info re st v = (st, Panic "slice bounds out of range").
Proof.
  intros Herr Hspecial Hlen. unfold walkFunc. rewrite Herr, Hspecial.
  by rewrite slice_from_short by lia.
Qed.

(** What is matched against the pattern is the path less as many leading
    bytes as the root has and one more, whatever these bytes are.  A
    directory or other special file, and a regular file on which the pattern
    finds no match, are passed over: the state is left as it is and the walk
    goes on. *)
Theorem walkFunc_skips (rrd_Info : string → string + option (list string))
    (re : Regexp) (st : Discovery) (v : FileVisit) :
  fv_err v = None →
  fv_special v = true ∨
  (∃ prefix rel,
     fv_path v = prefix +:+ rel ∧
     String.length prefix = (String.length (Path (d_connector st)) + 1)%nat ∧
     FindStringSubmatch re rel = []) →
  walkFunc rrd_Info re st v = (st, Ok ()).
Proof.
  intros Herr Hskip. unfold walkFunc. rewrite Herr.
  destruct (fv_special v); [done|].
  destruct Hskip as [?|(prefix & rel & Hpath & Hlen & Hsub)]; [done|].
  by rewrite Hpath, <- Hlen, slice_from_app, Hsub.
Qed.

(** A refresh whose pattern is accepted and whose walk runs to its end sends
    no error: it ends with both channels closed, the error channel holding
    what it held and the output channel, after what it held, the pairs of
    the visits in their order. *)
Theorem Refresh_completes (Compile : string → option Regexp)
    (rrd_Info : string → string + option (list string))
    (WalkDir_visits : string → list FileVisit)
    (st st1 : Discovery) (re : Regexp) :
  Compile (Pattern (d_connector st)) = Some re →
  pattern_keywords_ok re →
  closed (d_output st) = false → closed (d_errChan st) = false →
  foldS (walkFunc rrd_Info re) (WalkDir_visits (Path (d_connector st))) st = (st1, Ok ()) →
  Refresh Compile rrd_Info WalkDir_visits st =
  ({| d_connector := d_connector st1;
      d_output :=
        {| closed := true;
           sent := sent (d_output st) ++
                   flat_map (pairs_of rrd_Info re (Path (d_connector st)))
                            (WalkDir_visits (Path (d_connector st))) |};
      d_errChan := {| closed := true; sent := sent (d_errChan st) |} |},
   Ok ()).
Proof.
  intros Hre [Hall [Hs Hm]] Ho He Hwalk.
  pose proof (walk_channels rrd_Info re (WalkDir_visits (Path (d_connector st))) st)
    as [Herrc Hclosed].
  rewrite Hwalk in Herrc, Hclosed. simpl in Herrc, Hclosed.
  pose proof (walk_sends_pairs rrd_Info re _ st st1 Ho Hwalk) as Hsent.
  assert (Refresh_body Compile rrd_Info WalkDir_visits st = (st1, Ok ())) as Hbody.
  { unfold Refresh_body. rewrite Hre.
    pose proof (check_groups_spec (SubexpNames re) ∅) as Hspec.
    destruct (check_groups (SubexpNames re) ∅) as [key|groups]; [done|].
    destruct Hspec as [_ Hg].
    rewrite decide_False by (intros Hn; apply Hn, Hg; tauto).
    rewrite decide_False by (intros Hn; apply Hn, Hg; tauto).
    by rewrite Hwalk. }
  unfold Refresh. rewrite Hbody. cbn beta iota. unfold chan_close.
  rewrite Herrc, He. cbn. rewrite Hclosed, Ho. cbn.
  by rewrite Hsent.
Qed.

(** The root itself visited as a regular file. *)
Lemma walkFunc_short_path_witness :
  walkFunc Info_web1 re_source_metric (with_new_channels connector_new)
           (visit_file "/var/lib/rrd") =
  (with_new_channels connector_new, Panic "slice bounds out of range").
Proof.
  apply (walkFunc_short_path Info_web1 re_source_metric (with_new_channels connector_new)
           (visit_file "/var/lib/rrd")); [reflexivity|reflexivity|simpl; lia].
Defined.

(** A file that is not an archive. *)
Lemma walkFunc_skips_witness :
  walkFunc Info_web1 re_source_metric (with_new_channels connector_new)
           (visit_file "/var/lib/rrd/README") =
  (with_new_channels connector_new, Ok ()).
Proof.
  apply (walkFunc_skips Info_web1 re_source_metric (with_new_channels connector_new)
           (visit_file "/var/lib/rrd/README")); [reflexivity|].
  right. exists "/var/lib/rrd/", "README". repeat split; reflexivity.
Defined.

(** The first refresh of a new connector. *)
Lemma Refresh_completes_witness :
  sent (d_output (Refresh Compile_source_metric Info_web1 tree_before
                          (with_new_channels connector_new)).1) =
  [] ++ flat_map (pairs_of Info_web1 re_source_metric "/var/lib/rrd") (tree_before "") ∧
  sent (d_errChan (Refresh Compile_source_metric Info_web1 tree_before
                           (with_new_channels connector_new)).1) = [].
Proof.
  rewrite (Refresh_completes Compile_source_metric Info_web1 tree_before
             (with_new_channels connector_new)
             (foldS (walkFunc Info_web1 re_source_metric) (tree_before "")
                    (with_new_channels connector_new)).1
             re_source_metric eq_refl re_source_metric_ok eq_refl eq_refl
             ltac:(vm_compute; reflexivity)).
  split; reflexivity.
Defined.

(** ** The merged sample of a sum *)






Section SumSamples.

Variable num : Type.
Variables add mul div : num → num → num.
Variables zero one : num.
Variable is_zero : num → bool.
Variable lit : string → option num.
Variable double : num → float64.

Hypothesis lit_zero : lit "0" = Some zero.
Hypothesis lit_word : ∀ r, lit (String "s"%char r) = None.
Hypothesis zero_is_zero : is_zero zero = true.
Hypothesis one_not_zero : is_zero one = false.




End SumSamples.




(** *** A scaled sum with one unknown sample *)






